(** * aikatsu-kibun: the video library store and the control panel of [src/App.tsx]

    A shallow embedding of the state handling in [App.tsx]: the React state of
    the [App] component (videos, videoId, favoriteIds, ...) is a record, every
    handler is a function on that record, the one handler that throws
    ([handleAddVideo]) runs in a small state-and-exception monad, and the
    [GameControls] component is a record with its timers and an effect log.
    The modal ([VideoSelectionModal]), the persistence hook
    ([useLocalStorageState]) and the key and pointer handlers follow the
    same scheme, each with the part of the browser it acts on.

    Conventions.
    - A JavaScript string is represented by the bytes of its UTF-8 encoding
      (Rocq's [string]); [utf16] recovers the UTF-16 code units the regular
      expression of [extractVideoId] runs on.
    - A value of [Math.random()] is a double, given by the rational number
      it stands for; every statement that depends on it assumes the
      contract of [Math.random]: a double in [[0, 1)]. The product
      [Math.random() * n] is rounded to the nearest double before
      [Math.floor] reads it, as in the arithmetic of JavaScript.
    - Handlers run one after the other, each to its end; the handler that
      awaits a fetch, [handleAddVideo], is also given in its two parts,
      before and after the [await] ([addVideoRequest], [addVideoSettle]),
      for what happens in between. A handler reads the values it closes
      over as of the render that made it: [handlePressIn] and
      [handleReleaseIn] take the [pressedState] of that render, and
      [handleAddVideo], memoized on [videos] only, the [videoId] of its
      render. [handlePress], [handleRelease] and the handlers of [App]
      that are made on every render are those of a render that shows the
      state they start from; [Panel] follows the renders of
      [GameControls] themselves.
    - A property of an object literal that is read by a key is first an
      own property and then one of [Object.prototype] ([keyMap_at]). *)

From Stdlib Require Import String Ascii List ZArith NArith QArith Qround Lia Bool.
From stdpp Require Import base option list gmap strings.
Import ListNotations.

Local Open Scope string_scope.
Local Open Scope nat_scope.
Local Open Scope list_scope.

(* ================================================================== *)
(** * JavaScript strings as sequences of UTF-16 code units              *)
(* ================================================================== *)

Module Utf16.

Definition byte (c : ascii) : N := N_of_ascii c.

(** A continuation byte [10xxxxxx]. *)
Definition cont (b : N) : bool := (128 <=? b)%N && (b <? 192)%N.

Definition low6 (b : N) : N := N.land b 63.

(** The code units of one code point: itself below U+10000, a surrogate
    pair above. *)
Definition units (cp : N) : list N :=
  if (cp <? 65536)%N then [cp]
  else [ (55296 + N.shiftr (cp - 65536) 10)%N ;
         (56320 + N.land (cp - 65536) 1023)%N ].

(** Decoding of the UTF-8 bytes; a byte that starts no well-formed
    sequence (which the encoding of a JavaScript string never holds) is
    read as U+FFFD. *)
Fixpoint decode (bs : list N) : list N :=
  match bs with
  | [] => []
  | b0 :: t0 =>
    if (b0 <? 128)%N then b0 :: decode t0
    else
      match t0 with
      | b1 :: t1 =>
        if (192 <=? b0)%N && (b0 <? 224)%N && cont b1 then
          units (N.shiftl (N.land b0 31) 6 + low6 b1) ++ decode t1
        else
          match t1 with
          | b2 :: t2 =>
            if (224 <=? b0)%N && (b0 <? 240)%N && cont b1 && cont b2 then
              units (N.shiftl (N.land b0 15) 12 + N.shiftl (low6 b1) 6
                     + low6 b2) ++ decode t2
            else
              match t2 with
              | b3 :: t3 =>
                if (240 <=? b0)%N && (b0 <? 248)%N
                   && cont b1 && cont b2 && cont b3 then
                  units (N.shiftl (N.land b0 7) 18 + N.shiftl (low6 b1) 12
                         + N.shiftl (low6 b2) 6 + low6 b3) ++ decode t3
                else 65533%N :: decode t0
              | [] => 65533%N :: decode t0
              end
          | [] => 65533%N :: decode t0
          end
      | [] => [65533%N]
      end
  end.

Definition utf16 (s : string) : list N :=
  decode (map byte (list_ascii_of_string s)).

(** The string of a sequence of code units below 128. *)
Definition of_ascii_units (us : list N) : string :=
  string_of_list_ascii (map ascii_of_N us).

End Utf16.

(* ================================================================== *)
(** * A backtracking matcher for the pattern of [extractVideoId]        *)
(* ================================================================== *)

Module Regex.

(** The fragment of JavaScript patterns the source uses: classes of one
    code unit, sequence, ordered alternative, the greedy [+] and the lazy
    [*?] of a class, and one capturing group. [(?:r)?] is [Alt r Eps]. *)
Inductive regex : Type :=
| Eps
| Chr (p : N -> bool)
| Seq (r1 r2 : regex)
| Alt (r1 r2 : regex)
| Plus (p : N -> bool)
| LazyStar (p : N -> bool)
| Group (r : regex).

Definition Opt (r : regex) : regex := Alt r Eps.

Definition code (c : ascii) (u : N) : bool := (u =? N_of_ascii c)%N.

Fixpoint Lit (s : string) : regex :=
  match s with
  | EmptyString => Eps
  | String c s' => Seq (Chr (code c)) (Lit s')
  end.

Fixpoint Rep (n : nat) (r : regex) : regex :=
  match n with
  | O => Eps
  | S n' => Seq r (Rep n' r)
  end.

Section Matcher.
Context {T : Type}.

(** What is left of the input and the value of group 1. *)
Definition cont : Type := list N -> option (list N) -> option T.

(** [p*], longest first. *)
Fixpoint star_greedy (p : N -> bool) (s : list N) (k : list N -> option T)
  : option T :=
  match s with
  | c :: s' =>
    if p c then
      match star_greedy p s' k with
      | Some x => Some x
      | None => k s
      end
    else k s
  | [] => k s
  end.

(** [p*?], shortest first. *)
Fixpoint star_lazy (p : N -> bool) (s : list N) (k : list N -> option T)
  : option T :=
  match k s with
  | Some x => Some x
  | None =>
    match s with
    | c :: s' => if p c then star_lazy p s' k else None
    | [] => None
    end
  end.

Fixpoint rmatch (r : regex) (s : list N) (cap : option (list N)) (k : cont)
  : option T :=
  match r with
  | Eps => k s cap
  | Chr p =>
    match s with
    | c :: s' => if p c then k s' cap else None
    | [] => None
    end
  | Seq r1 r2 => rmatch r1 s cap (fun s' cap' => rmatch r2 s' cap' k)
  | Alt r1 r2 =>
    match rmatch r1 s cap k with
    | Some x => Some x
    | None => rmatch r2 s cap k
    end
  | Plus p =>
    match s with
    | c :: s' => if p c then star_greedy p s' (fun s'' => k s'' cap) else None
    | [] => None
    end
  | LazyStar p => star_lazy p s (fun s'' => k s'' cap)
  | Group r1 =>
    rmatch r1 s cap
      (fun s' _ => k s' (Some (firstn (length s - length s') s)))
  end.
End Matcher.

(** [text.match(r)] for a pattern without flags: the leftmost match, and
    of it the value of group 1 ([None]: the group took no part). *)
Fixpoint exec (r : regex) (s : list N) : option (option (list N)) :=
  match rmatch r s None (fun _ cap => Some cap) with
  | Some cap => Some cap
  | None =>
    match s with
    | _ :: s' => exec r s'
    | [] => None
    end
  end.

(** ** The classes of the pattern *)

Definition between (lo hi : ascii) (u : N) : bool :=
  (N_of_ascii lo <=? u)%N && (u <=? N_of_ascii hi)%N.

(** [\s]: the white space and line terminators of ECMAScript. *)
Definition white (u : N) : bool :=
  ((9 <=? u) && (u <=? 13) || (u =? 32) || (u =? 160) || (u =? 5760)
   || (8192 <=? u) && (u <=? 8202) || (u =? 8232) || (u =? 8233)
   || (u =? 8239) || (u =? 8287) || (u =? 12288) || (u =? 65279))%N.

(** [\S] *)
Definition nonwhite (u : N) : bool := negb (white u).

(** [[^\/\n\s]] *)
Definition segment (u : N) : bool :=
  negb (code "/" u || (u =? 10)%N || white u).

(** [[?&]] *)
Definition query_sep (u : N) : bool := code "?" u || code "&" u.

(** [[a-zA-Z0-9_-]] *)
Definition idchar (u : N) : bool :=
  between "a" "z" u || between "A" "Z" u || between "0" "9" u
  || code "_" u || code "-" u.

(** [/(?:https?:\/\/)?(?:www\.)?(?:youtube\.com\/(?:[^\/\n\s]+\/\S+\/|(?:v|e(?:mbed)?)\/|\S*?[?&]v=)|youtu\.be\/)([a-zA-Z0-9_-]{11})/] *)
Definition youtube : regex :=
  Seq (Opt (Seq (Lit "http") (Seq (Opt (Lit "s")) (Lit "://"))))
 (Seq (Opt (Lit "www."))
 (Seq (Alt (Seq (Lit "youtube.com/")
                (Alt (Seq (Plus segment)
                          (Seq (Lit "/") (Seq (Plus nonwhite) (Lit "/"))))
                (Alt (Seq (Alt (Lit "v") (Seq (Lit "e") (Opt (Lit "mbed"))))
                          (Lit "/"))
                     (Seq (LazyStar nonwhite)
                          (Seq (Chr query_sep) (Lit "v="))))))
           (Lit "youtu.be/"))
      (Group (Rep 11 (Chr idchar))))).

(** ** The words of a pattern *)

(** [derives r w c c']: the pattern [r] matches the word [w], group 1
    holding [c] before and [c'] after. The matcher is checked against it
    below ([rmatch_sound]). *)
Inductive derives : regex -> list N -> option (list N) -> option (list N) -> Prop :=
| derives_Eps c : derives Eps [] c c
| derives_Chr p u c : p u = true -> derives (Chr p) [u] c c
| derives_Seq r1 r2 w1 w2 c c1 c2 :
    derives r1 w1 c c1 -> derives r2 w2 c1 c2 ->
    derives (Seq r1 r2) (w1 ++ w2) c c2
| derives_Alt_l r1 r2 w c c1 : derives r1 w c c1 -> derives (Alt r1 r2) w c c1
| derives_Alt_r r1 r2 w c c1 : derives r2 w c c1 -> derives (Alt r1 r2) w c c1
| derives_Plus p u w c :
    p u = true -> forallb p w = true -> derives (Plus p) (u :: w) c c
| derives_LazyStar p w c : forallb p w = true -> derives (LazyStar p) w c c
| derives_Group r w c c1 : derives r w c c1 -> derives (Group r) w c (Some w).

End Regex.

(** [extractVideoId] of [handleAddVideo]: [match ? match[1] : null]. *)
Definition extractVideoId (url : string) : option string :=
  match Regex.exec Regex.youtube (Utf16.utf16 url) with
  | Some (Some us) => Some (Utf16.of_ascii_units us)
  | _ => None
  end.

(* ================================================================== *)
(** * Arrays, sets and maps of the JavaScript runtime                   *)
(* ================================================================== *)

Module Js.

(** [xs.includes(x)] on an array of strings. *)
Definition includes (xs : list string) (x : string) : bool :=
  existsb (String.eqb x) xs.

(** [Array.from(new Set(xs))]: the first occurrence of every element, in
    the order of [xs]. *)
Fixpoint from_Set_acc (seen xs : list string) : list string :=
  match xs with
  | [] => []
  | x :: xs' =>
    if includes seen x then from_Set_acc seen xs'
    else x :: from_Set_acc (x :: seen) xs'
  end.

Definition Array_from_Set (xs : list string) : list string :=
  from_Set_acc [] xs.

(** [new Map(entries)]: the entries are set from left to right, so the
    last entry of a key is the one the map holds. *)
Definition new_Map {V : Type} (entries : list (string * V)) : gmap string V :=
  fold_left (fun m kv => <[kv.1 := kv.2]> m) entries ∅.

(** [xs[i]] for an index in range; [dflt] stands for [undefined]. *)
Definition at_index {A : Type} (dflt : A) (xs : list A) (i : nat) : A :=
  nth i xs dflt.

(** ** Numbers

    The doubles of IEEE 754 that are not negative, for what
    [Math.floor(Math.random() * n)] computes. Such a double is a multiple
    of [2^-1074]; it is given by the number of these units. *)
Module Number.
Local Open Scope Z_scope.

(** The double [1]. *)
Definition one : Z := 2 ^ 1074.

(** The exponent of the last place of the doubles around [u] units: a
    double has 53 significant bits, and no place below the unit. *)
Definition ulp (u : Z) : Z := Z.max (Z.log2 u - 52) 0.

(** The double nearest to [u] units, the even one of two that are equally
    near: the rounding of the arithmetic of JavaScript, for a number below
    the largest double (a product [Math.random() * n] is below [n], the
    length of an array). *)
Definition round (u : Z) : Z :=
  let e := ulp u in
  let m := u / 2 ^ e in
  let rest := u mod 2 ^ e in
  let m' := match 2 * rest ?= 2 ^ e with
            | Lt => m
            | Gt => m + 1
            | Eq => if Z.even m then m else m + 1
            end in
  m' * 2 ^ e.

End Number.

(** The units of a number that is not negative, whole for a double. *)
Definition unitsOf (r : Q) : Z := Qfloor (r * inject_Z Number.one).

(** [r] is a double. *)
Definition number (r : Q) : Prop :=
  (inject_Z (Number.round (unitsOf r)) == r * inject_Z Number.one)%Q.

(** [Math.floor(r * n)] for [r] the value of [Math.random()] and [n] the
    length of an array: the product of the two doubles is exact in units,
    is rounded to a double, and [Math.floor] takes its whole part. *)
Definition randomIndex (r : Q) (n : nat) : nat :=
  Z.to_nat (Number.round (unitsOf r * Z.of_nat n) / Number.one).

(** The contract of [Math.random()]: a double in [[0, 1)]. *)
Definition unit_interval (r : Q) : Prop :=
  (0 <= r)%Q /\ (r < 1)%Q /\ number r.

(** The contract, as a test. *)
Definition unit_intervalb (r : Q) : bool :=
  Qle_bool 0 r && negb (Qle_bool 1 r)
  && Qeq_bool (inject_Z (Number.round (unitsOf r))) (r * inject_Z Number.one).

(** A call either returns a value or throws; for a promise: it is
    fulfilled or rejected. *)
Inductive Outcome (A : Type) : Type :=
| Returned (a : A)
| Thrown (message : string).
Arguments Returned {A} a.
Arguments Thrown {A} message.

(** [Promise.all]: rejected as soon as one of the promises is. *)
Fixpoint Promise_all {A : Type} (ps : list (Outcome A)) : Outcome (list A) :=
  match ps with
  | [] => Returned []
  | Thrown m :: _ => Thrown m
  | Returned a :: ps' =>
    match Promise_all ps' with
    | Returned l => Returned (a :: l)
    | Thrown m => Thrown m
    end
  end.

End Js.
Import Js.

(* ================================================================== *)
(** * The metadata fetcher: [fetchVideoDetails]                         *)
(* ================================================================== *)

Record Video : Type :=
  { id : string; title : string; thumbnailUrl : string }.

(** What one request to the metadata service comes to. *)
Inductive Lookup : Type :=
| Rejected (message : string)
    (** [fetch] or [response.json()] rejects, or the callback throws
        (network error, a body that is not JSON or not an object) *)
| NotOk
    (** a response with [response.ok] false *)
| Payload (error : bool) (title thumbnail_url : option string).
    (** the parsed body: whether [data.error] is truthy, [data.title] and
        [data.thumbnail_url] ([None]: the field is absent) *)

(** The service, as seen from the program: the answer to the request for
    each id. *)
Definition Network : Type := string -> Lookup.

Definition thumbnail_of (i : string) : string :=
  "https://i.ytimg.com/vi/" ++ i ++ "/mqdefault.jpg".

(** [defaultData] of [fetchVideoDetails]. *)
Definition defaultData (i : string) : Video :=
  {| id := i;
     title := "動画 (ID: " ++ i ++ ")";
     thumbnailUrl := thumbnail_of i |}.

(** [x || d] for an optional string field: [d] when the field is absent
    or the empty string. *)
Definition or_else (x : option string) (d : string) : string :=
  match x with
  | Some (String c s) => String c s
  | _ => d
  end.

(** The body of the [async (id) => ...] callback. *)
Definition fetchOne (net : Network) (i : string) : Outcome Video :=
  match net i with
  | Rejected m => Thrown m
  | NotOk => Returned (defaultData i)
  | Payload error t u =>
    if error then Returned (defaultData i)
    else Returned {| id := i;
                     title := or_else t ("無題の動画 (ID: " ++ i ++ ")");
                     thumbnailUrl := or_else u (thumbnail_of i) |}
  end.

Definition fetchVideoDetails (net : Network) (ids : list string) : list Video :=
  match Promise_all (map (fetchOne net) ids) with
  | Returned vs => vs
  | Thrown _ => map defaultData ids
  end.

(* ================================================================== *)
(** * The video library store: the state of [App] and its handlers      *)
(* ================================================================== *)

Record AppState : Type :=
  { videos : list Video;
    isLoading : bool;
    videoId : string;
    isModalOpen : bool;
    favoriteIds : list string }.

Definition setVideos (f : list Video -> list Video) (s : AppState) : AppState :=
  {| videos := f (videos s); isLoading := isLoading s; videoId := videoId s;
     isModalOpen := isModalOpen s; favoriteIds := favoriteIds s |}.

Definition setIsLoading (b : bool) (s : AppState) : AppState :=
  {| videos := videos s; isLoading := b; videoId := videoId s;
     isModalOpen := isModalOpen s; favoriteIds := favoriteIds s |}.

Definition setVideoId (i : string) (s : AppState) : AppState :=
  {| videos := videos s; isLoading := isLoading s; videoId := i;
     isModalOpen := isModalOpen s; favoriteIds := favoriteIds s |}.

Definition setIsModalOpen (b : bool) (s : AppState) : AppState :=
  {| videos := videos s; isLoading := isLoading s; videoId := videoId s;
     isModalOpen := b; favoriteIds := favoriteIds s |}.

Definition setFavoriteIds (f : list string -> list string) (s : AppState)
  : AppState :=
  {| videos := videos s; isLoading := isLoading s; videoId := videoId s;
     isModalOpen := isModalOpen s; favoriteIds := f (favoriteIds s) |}.

(** ** Handlers that throw: state and exceptions *)

Definition Action (A : Type) : Type := AppState -> Outcome A * AppState.

Definition ret {A : Type} (a : A) : Action A := fun s => (Returned a, s).

Definition bind {A B : Type} (m : Action A) (f : A -> Action B) : Action B :=
  fun s =>
    match m s with
    | (Returned a, s') => f a s'
    | (Thrown e, s') => (Thrown e, s')
    end.

Definition throw {A : Type} (message : string) : Action A :=
  fun s => (Thrown message, s).

(** [try { body } catch (error) { handler }]: the state the body reached
    when it threw is the state the handler starts from. *)
Definition try_catch {A : Type} (body : Action A) (handler : string -> Action A)
  : Action A :=
  fun s =>
    match body s with
    | (Returned a, s') => (Returned a, s')
    | (Thrown e, s') => handler e s'
    end.

(** A handler that cannot throw, run as an action. *)
Definition run (f : AppState -> AppState) : Action unit :=
  fun s => (Returned tt, f s).

Notation "m ;;; k" := (bind m (fun _ => k))
  (at level 100, right associativity).

(** The literal of [App.tsx], before [new Set]. *)
Definition seedLiteral : list string :=
  [ "tsKd6HdXvso"; "RjGv7Sa4YQo"; "4z31xQuGTp4"; "3qqJ1WpF1Cg"; "uISk1HrbFzA";
    "q5d60AsaN98"; "Wy_pD0JgHR4"; "2BN2jH1zlUA"; "bBYYGWyi_Ig"; "aKPhl4S91mM";
    "ZCEXyMPKWhA"; "7fJuYvx3ou0"; "2t0vIcfvEeY"; "uPVjCDbc-Ow"; "uRcy4Aj4B8w";
    "BZqKDdCoTZM"; "HcHpQ_qj6WQ"; "en95U1lK2EQ"; "LQa1mIGbV1c"; "72xB_012eVY";
    "3gVFHFm9Gxw"; "xiXCHkBaOCg"; "ZbgdnKbyFSo"; "BoE8mVhNjO0"; "6beo8GHes4U";
    "4H4ID0eHREE"; "jmKak1vq1Go"; "Ogu6EGNumKI"; "N1W9IzcJ8Ug"; "pYT8w_qP6ro";
    "gVw3xo5Uf-8"; "KLLJJIs9_7s"; "KATAtxUEEy4"; "RVZCWJ8XuhI"; "sRfanR9ZZ0U";
    "iXr5sT3PFKg"; "NmZm5YQf8l0"; "GlgVZ5Z76-M"; "1wMEC1WZLts"; "qs4FOgqvTj0";
    "lHrI8DmPCac"; "ULY7WX4_Sd8"; "MpffoNUUGx8"; "KkPGFKp0gXA"; "pJEKdGGQXdo";
    "_yyszvUE4r8"; "FPSmZacW_UA"; "hwuuwNyRcKI"; "-Xh9NYCRw0M"; "9w_utuMvfOc";
    "SvFOQobTzk0"; "xhBY87NDwrE"; "6IEVhN5zJC0"; "VxQ4wn8cGyA"; "op0UXD2l55g";
    "oj9dwIkLI_4"; "oTME3Ur1-ak"; "w2DOYY1mFrg"; "clq4pdBCtTY"; "5u5Nc1UWXgg";
    "RuKpbA9RSGw"; "M4r1vx2ofUQ"; "AEMsMi7n5x8"; "BKdhQ8GTjbU"; "n8cEgbNzGPc";
    "lODsTsWgyg4"; "cNrttb3MPlY"; "0GxDua-0G98"; "-YAB0CUxkPE"; "Pu0wYH4CU4E";
    "cwZBNZkF4UQ"; "ujWIfR_rwIg"; "x2Po_BZM_uI"; "tezg1gSJbdo"; "VLIHkj5TrlY";
    "PdOakkv6I1w"; "KBWyBfdYy5w"; "EpSXZjzrUkg"; "OUj4Q8qx1ZQ"; "1meOdSe6XTQ";
    "Vh2KJq-lyLk"; "5dRbGrDWIOU"; "4SR6G0eoDPs"; "1Jy-KfZwCeA"; "jIRuoBkjltc";
    "UNwx5x2NM9A"; "wDcemF2c3Ro"; "M73DLRbfn_c"; "2pAT2OBDXXk"; "yp8Jhjt_png";
    "fcPc573QgjU"; "EOAzGVIzo7U"; "S3bGcj2Rm5o"; "rqqKNukafX0"; "EShAj8OeknA";
    "tRx-ayAnRXA"; "p3lVBD4ei6k"; "WLnv4MwbumM"; "F8V90FkxIZU"; "qpjQ6ZmhDCo";
    "nC7OrqXYc6k"; "huFkGmp6eaw"; "cEO4Z7lq-q8"; "LzlDy5edLzo"; "IoK9hnz8cOs";
    "4wEIAGRAxHw"; "1xwXyuePSak"; "ql5bm1VU7oQ"; "RfwQteCBfYw"; "fMz6hOoGHHU";
    "XzezA5Icqoo"; "WO9D0IKmnX0"; "9f6_hQtkQsA"; "9JQFov6GazM"; "8wKDBiD4XsA";
    "uXhyoPjNmaw"; "iqRMeq9ajZE"; "fxBWfBLLlU"; "XTSgskSDKEw"; "WkcqB18K60c";
    "TrTFIr8f-n0"; "NLi86WxjPvs"; "MXOBWa1DLCw"; "tfAep2L872E"; "itWdwzWn0Sk";
    "z8_cmTbrlNw"; "xE_Z_Ph7fYk"; "wfqZHr40e0k"; "uepx-pu_IOI"; "r3ZOW5AQRis";
    "oo6cucd8FGY"; "mNCv-dmYPS8"; "ltcZaHcarug"; "h0kOl31dJoM"; "fXluHhS6IGQ";
    "f9eRf6ccrAs"; "bWDAyRa6rGU"; "a86i2NFElAk"; "TX414PPKQTA"; "QqJs_d5PWzw";
    "KsORl3_jgMQ"; "KIKPbfhYxPY"; "ItzPBWP614E"; "I8rX7mfQd90"; "HvtKsOu48JU";
    "GtXHDzY1yCA"; "DjraTjOS0c4"; "BDu-c8m3Elo"; "9-ITMd0_Hmc"; "3lFpoJyNmSs";
    "3ULbpMIz32w"; "Q1zHZ_5WoQo"; "m0FGgFsMpNc"; "K2uy7wGFFgw"; "1x9rWKtrn9Y";
    "Vnobd_FDp48"; "H5miyoLIaGk"; "ZLIqln6BSGI"; "Oqepld-YRaE"; "i_NnjpotJ5M";
    "5r3snDugV8M"; "zv7he_TKHpg"; "q2tjrV2JiZY"; "kibfnTlnKBs"; "hihAM-CQyzM";
    "cYstuM4CYsU"; "mkdEmQ5RttE"; "XO_2jNhCqTw"; "VWrSZ8BjIyA"; "KbYs5YYUK7I";
    "2ZNxFC--4fE"; "qJ3YJ4eywvY"; "1vYteBXaOyI"; "lsFTKcP9EyA"; "bz6ejOvk2_U";
    "vHnENRwluK0"; "htnIF4hkZ40"; "lZ_3EU7X3yA"; "PUR0XbH4LrQ"; "Foyc6FTiRnA";
    "oz9aqDD7F_c"; "uOSDgSH_T80"; "22vPY_1OaLY"; "J_1DFaELLPU"; "THoRA3aT4og";
    "SYEqF_FY5Qo"; "_Vdv7TjMZzQ"; "LW9ho4Ftjh8"; "sLtVMfyuQfk"; "AyNw00TNrCA";
    "cvArV6EOysI"; "m3zcqWEBrI4"; "YPxyfDqAmYU"; "o545mbzprw4"; "O5BisaR_30Y";
    "FyG3JM9_Ga0"; "BaMR9ZcA8NU"; "AiWGcDOnFhM"; "o3IYLSbYac4"; "cvy9ts-rNTE";
    "KS83f4N0pwU"; "CJUtJQ1rzg4"; "slnfBIWMni4"; "WdpK14OXYB4"; "0sZE4i8Y7k4";
    "hF6YDrfCqbQ"; "dYVD26j9ZSc"; "bu5dmV11-ok"; "bh3QyscC4z4"; "4KtjvHTq5jY";
    "nGpwaZusSmc"; "6uduAQx_HKA"; "KRYSa79bbQE"; "Pd1Z0wX93cE"; "zOuIiDw9K_A";
    "c7HeTKiV4-Y"; "tDv6rkHgV9k"; "FAf3MKuOgGE"; "nSQYIQA6rB8"; "hUc05yg7RYM";
    "dirjw0TRnJE"; "WKsfqws2NOs"; "VwZ0bzDVIMo"; "zQSZpeuS3x0"; "SxR-zqtIg0A";
    "CQYcrKCjxlI"; "wKtiP2V9yr0"; "o7JY84_bMHQ"; "sZbyRDGAOD0"; "kl6mUw3zIbE";
    "A32dkTeVQwA"; "z8ay9dAhyFg"; "862yM3gCsuY"; "IOVtbv7ZEjU"; "Tn6mOEL1zJ0";
    "wctOLFXwRg4"; "wPiw_E_1WBg"; "9TJg8_FtCOQ"; "vyvXYaF0a04"; "Wsr3K2GZfys";
    "RYmw8Et5riA"; "3iy5PjmSPNM"; "sO7NArY8qhw"; "fGdLUtMch5c"; "j9nIpp9l99w";
    "e86X5ipmG9U"; "imVC38JopIU"; "R1TEBqAnkMU"; "MwvlyT0O9xE"; "xzss0RaYK18";
    "xHvKyrvQhu8"; "c8SNAvOvOOM"; "vg8EntypJ8c"; "cMQAbcUz20g"; "dUMxFQeFFbI";
    "wZWiZD4etXI"; "r9fnpDxkCH8"; "vKRBn9de308"; "d7AWyGroqxk"; "De3tjz6BhHY";
    "ByG2m8Rxx60"; "yh5nPYJR2Es"; "DC0YU_-t0y4"; "LqD2vAtHy10"; "B7DyC125qks";
    "DMhXbYkz4FQ"; "4ZGQMqSWKfw"; "bpmWBZqPl_U"; "0hJperuzZ_M"; "xcsQsXU6Rj8";
    "B6l3x2XrK6w"; "0t0VGl6uu5k"; "lHVf_1O4AII"; "RbyZQyiFFco"; "LMEzfV068a4";
    "pn8YwQlJuyU"; "-hyVsOSSPbw"; "22wYlpKWqC8"; "nwuC2NSyixg"; "km0hHCZp5RY";
    "hropvmRz0_M"; "uWvlOqpAbMM"; "xb639LdgDpw"; "4wignYcpqe8"; "RJTrTeEObog";
    "xh_360kVOF4"; "PMpfH86vnNM"; "EvIyzjlyH_0"; "B8tgwNoJ_8A"; "oUNR-I5V8rQ";
    "b4xLiGq72AM"; "SEL5D6ya14M"; "2qfgRuoMpcE"; "plFa4paRLdA"; "ceCioX0LYU0";
    "vPWL8vYPHNM"; "2hYr422h1wo"; "YLn9COaWyog"; "mAwLMgpSBAQ"; "VqZUUQ0KVqw";
    "S3twekqjVQc"; "rQ19M5WXmbA"; "ixRp65POU7k"; "NzpBaiboVYU"; "_5Y_mEzAOvI";
    "rqt-LlEloKk"; "DEdbmXWokTI"; "VmL9z7AhPMQ"; "UoEO_tK53ck"; "UXByUTuzQso";
    "RuKpbA9RSGw"; "tZ-p6ff8s0Y"; "T460dxv4sNA"; "fQ2OExJkSjI" ].

(** [.filter((v): v is Video => v !== undefined)] *)
Fixpoint defined {A : Type} (xs : list (option A)) : list A :=
  match xs with
  | [] => []
  | Some a :: xs' => a :: defined xs'
  | None :: xs' => defined xs'
  end.

(** The value [undefined.id] would be read from: an index out of range,
    which [randomIndex] never is for a draw in [[0, 1)]. *)
Definition noVideo : Video := {| id := ""; title := ""; thumbnailUrl := "" |}.

Section Library.

(** [initialVideoIds] of [App]; the program uses [seedVideoIds] below. *)
Variable initialVideoIds : list string.

(** The initial value of [videoId]. *)
Definition initialVideoId (r : Q) : string :=
  if length initialVideoIds =? 0 then ""
  else at_index "" initialVideoIds (randomIndex r (length initialVideoIds)).

(** The state of the first render; [stored] is what [useLocalStorageState]
    read under the key [favoriteVideoIds]. *)
Definition initialState (r : Q) (stored : list string) : AppState :=
  {| videos := []; isLoading := true; videoId := initialVideoId r;
     isModalOpen := false; favoriteIds := stored |}.

Definition favoriteVideos (s : AppState) : list Video :=
  let favoriteVideoMap := new_Map (map (fun v => (id v, v)) (videos s)) in
  defined (map (fun i => favoriteVideoMap !! i) (favoriteIds s)).

(** [loadInitialVideos], from its call to the completion of the fetch. *)
Definition loadInitialVideos (net : Network) (s : AppState) : AppState :=
  let fetchedVideos := fetchVideoDetails net initialVideoIds in
  setIsLoading false (setVideos (fun _ => fetchedVideos) (setIsLoading true s)).

(** [handleSelectNewVideo] as the closure of a render in which [videoId]
    was [seen]: its test reads the [videoId] of that render. *)
Definition selectNewVideo (seen i : string) (s : AppState) : AppState :=
  if negb (String.eqb seen i) then setVideoId i s else s.

(** [handleSelectVideoFromModal] as the closure of such a render. *)
Definition selectVideoFromModal (seen i : string) (s : AppState) : AppState :=
  setIsModalOpen false (selectNewVideo seen i s).

(** The two handlers as the carousel, the list of the modal and
    [handleFeelingLucky] call them: created in the last render, they read
    the [videoId] of the current state. *)
Definition handleSelectNewVideo (i : string) (s : AppState) : AppState :=
  selectNewVideo (videoId s) i s.

Definition handleSelectVideoFromModal (i : string) (s : AppState) : AppState :=
  selectVideoFromModal (videoId s) i s.

(** The updater [handleToggleFavorite] passes to [setFavoriteIds]. *)
Definition toggle (i : string) (prev : list string) : list string :=
  if includes prev i
  then List.filter (fun favId => negb (String.eqb favId i)) prev
  else prev ++ [i].

Definition handleToggleFavorite (i : string) (s : AppState) : AppState :=
  setFavoriteIds (toggle i) s.

(** The part of [handleAddVideo] after its [await], for the id
    [newVideoId] of the request: the [try] block from the completion of
    the fetch on, and its [catch]. *)
Definition addVideoSettle (seen : string) (net : Network) (newVideoId : string)
  : Action unit :=
  try_catch
    (let fetchedVideo := fetchVideoDetails net [newVideoId] in
     match fetchedVideo with
     | v :: _ =>
       run (setVideos (fun prevVideos => v :: prevVideos)) ;;;
       run (selectVideoFromModal seen newVideoId)
     | [] => throw "動画情報の取得に失敗しました。"
     end)
    (fun _ => throw "動画の追加に失敗しました。URLを確認してください。").

(** [handleAddVideo] is memoized by [useCallback] on [videos] and
    [fetchVideoDetails]: the [videos] it tests are those of the current
    state, but the [handleSelectVideoFromModal] it calls is the one of the
    render in which [videos] last changed, whose test reads the [videoId]
    of that render, [seen]. The call is one step here, from the click to
    the completion of its fetch (the modal disables the button
    meanwhile); [addVideoRequest] and [addVideoSettle] below are its two
    parts, for what completes in between. *)
Definition handleAddVideo (seen : string) (net : Network) (url : string)
  : Action unit :=
  fun s =>
    (match extractVideoId url with
     | None | Some EmptyString => throw "無効なYouTube URLです。"
     | Some newVideoId =>
       if existsb (fun v => String.eqb (id v) newVideoId) (videos s) then
         run (selectVideoFromModal seen newVideoId)
       else addVideoSettle seen net newVideoId
     end) s.

Definition handleResetFavorites (s : AppState) : AppState :=
  setFavoriteIds (fun _ => []) s.

Definition handleResetUserVideos (r : Q) (s : AppState) : AppState :=
  let s1 :=
    setVideos
      (fun currentVideos =>
         let initialVideoIdSet : gset string := list_to_set initialVideoIds in
         List.filter (fun video => bool_decide (id video ∈ initialVideoIdSet))
                     currentVideos) s in
  if negb (includes initialVideoIds (videoId s)) then
    if 0 <? length initialVideoIds then
      let randomIndex := randomIndex r (length initialVideoIds) in
      setVideoId (at_index "" initialVideoIds randomIndex) s1
    else setVideoId "" s1
  else s1.

(** The [do ... while (newVideoId === videoId)] loop of
    [handleFeelingLucky]; [rand n] is the value of the [n]-th call of
    [Math.random()], and [None] says the loop is still running after
    [fuel] draws. *)
Fixpoint luckyLoop (fuel : nat) (rand : nat -> Q) (n : nat) (s : AppState)
  : option string :=
  match fuel with
  | O => None
  | S fuel' =>
    let randomIndex := randomIndex (rand n) (length (videos s)) in
    let newVideoId := id (at_index noVideo (videos s) randomIndex) in
    if String.eqb newVideoId (videoId s)
    then luckyLoop fuel' rand (S n) s
    else Some newVideoId
  end.

Definition handleFeelingLucky (fuel : nat) (rand : nat -> Q) (s : AppState)
  : option AppState :=
  if length (videos s) <=? 1 then Some s
  else
    match luckyLoop fuel rand 0 s with
    | Some newVideoId => Some (handleSelectNewVideo newVideoId s)
    | None => None
    end.

Definition isFavoritesResettable (s : AppState) : bool :=
  0 <? length (favoriteIds s).

Definition isUserVideosResettable (s : AppState) : bool :=
  length initialVideoIds <? length (videos s).

End Library.

(** [initialVideoIds] as [App] computes it. *)
Definition seedVideoIds : list string := Array_from_Set seedLiteral.

(** ** The events of a session *)

(** What the user and the network do to the store. *)
Inductive AppEvent : Type :=
| SeedLoaded (net : Network)          (** the fetch of [loadInitialVideos] completes *)
| SelectVideo (i : string)            (** a click in the favorites carousel *)
| SelectFromModal (i : string)        (** a click in the list of the modal *)
| OpenModal
| CloseModal
| ToggleFavorite (i : string)
| AddVideo (net : Network) (url : string)
| ResetFavorites
| ResetUserVideos (r : Q)
| FeelingLucky (fuel : nat) (rand : nat -> Q).

(** A session: the state, and the [videoId] of the render in which
    [videos] last changed, which the memoized [handleAddVideo] reads. *)
Record Session : Type :=
  { store : AppState;
    memoVideoId : string }.

(** The session after an event that changed [videos] ([fresh]: a new
    [handleAddVideo] is created) or did not. *)
Definition rendered (fresh : bool) (ss : Session) (s' : AppState) : Session :=
  {| store := s';
     memoVideoId := if fresh then videoId s' else memoVideoId ss |}.

(** The session after an event; [None] when [handleFeelingLucky] has not
    returned within its fuel. A call of [handleAddVideo] that throws is
    caught by the modal, which shows the message: the session goes on in
    the state the call left. [setVideos] gives [videos] a new array in
    [loadInitialVideos], in [handleResetUserVideos], and in
    [handleAddVideo] when it prepends (the collection is then longer). *)
Definition appStep (initialVideoIds : list string) (e : AppEvent) (ss : Session)
  : option Session :=
  let s := store ss in
  match e with
  | SeedLoaded net => Some (rendered true ss (loadInitialVideos initialVideoIds net s))
  | SelectVideo i => Some (rendered false ss (handleSelectNewVideo i s))
  | SelectFromModal i => Some (rendered false ss (handleSelectVideoFromModal i s))
  | OpenModal => Some (rendered false ss (setIsModalOpen true s))
  | CloseModal => Some (rendered false ss (setIsModalOpen false s))
  | ToggleFavorite i => Some (rendered false ss (handleToggleFavorite i s))
  | AddVideo net url =>
    let s' := (handleAddVideo (memoVideoId ss) net url s).2 in
    Some (rendered (length (videos s) <? length (videos s')) ss s')
  | ResetFavorites => Some (rendered false ss (handleResetFavorites s))
  | ResetUserVideos r =>
    Some (rendered true ss (handleResetUserVideos initialVideoIds r s))
  | FeelingLucky fuel rand =>
    match handleFeelingLucky fuel rand s with
    | Some s' => Some (rendered false ss s')
    | None => None
    end
  end.

(** The first render, with any draw and any stored favorites. *)
Definition firstRender (initialVideoIds : list string) (r : Q)
           (stored : list string) : Session :=
  {| store := initialState initialVideoIds r stored;
     memoVideoId := initialVideoId initialVideoIds r |}.

(** The sessions: the first render and what the events lead to. *)
Inductive reachable (initialVideoIds : list string) : Session -> Prop :=
| reachable_initial r stored :
    reachable initialVideoIds (firstRender initialVideoIds r stored)
| reachable_step e ss ss' :
    reachable initialVideoIds ss -> appStep initialVideoIds e ss = Some ss' ->
    reachable initialVideoIds ss'.

(** ** Notions the statements below use *)

(** The state after a sequence of [handleToggleFavorite] calls. *)
Definition toggleAll (calls : list string) (s : AppState) : AppState :=
  fold_left (fun st i => handleToggleFavorite i st) calls s.

(** Whether the request for [i] is rejected. *)
Definition rejects (net : Network) (i : string) : bool :=
  match net i with
  | Rejected _ => true
  | _ => false
  end.

(** The video [fetchOne] builds from a body without error. *)
Definition fetched (i : string) (t u : option string) : Video :=
  {| id := i;
     title := or_else t ("無題の動画 (ID: " ++ i ++ ")");
     thumbnailUrl := or_else u (thumbnail_of i) |}.

(** The test of the filter in [handleResetUserVideos]. *)
Definition isSeed (initialVideoIds : list string) (video : Video) : bool :=
  bool_decide (id video ∈ (list_to_set initialVideoIds : gset string)).

(** The id [handleFeelingLucky] reads for the value [r] of [Math.random()]. *)
Definition pickedId (s : AppState) (r : Q) : string :=
  id (at_index noVideo (videos s) (randomIndex r (length (videos s)))).






(* ================================================================== *)
(** * The control panel: [GameControls]                                 *)
(* ================================================================== *)

Module GameControls.

Inductive ButtonColor : Type := red | green | yellow.

#[global] Instance ButtonColor_eq_dec : EqDecision ButtonColor.
Proof. solve_decision. Defined.

Definition color_code (c : ButtonColor) : nat :=
  match c with red => 0 | green => 1 | yellow => 2 end.

Definition color_of_code (n : nat) : option ButtonColor :=
  match n with
  | 0 => Some red
  | 1 => Some green
  | 2 => Some yellow
  | _ => None
  end.

#[global] Instance ButtonColor_countable : Countable ButtonColor.
Proof.
  refine (inj_countable color_code color_of_code _).
  intros []; reflexivity.
Defined.

(** [context.state] of the audio context. *)
Inductive AudioState : Type := running | suspended.

(** What the component does to the browser. *)
Inductive Effect : Type :=
| Resume                       (** [context.resume()] *)
| Pulse                        (** [playTickSound(context)]: one tick *)
| SetInterval (h : positive)   (** [setInterval(playSound, 40)] gave [h] *)
| ClearInterval (h : positive).

#[global] Instance Effect_eq_dec : EqDecision Effect.
Proof. solve_decision. Defined.

(** The component ([pressedState], [audioContextRef], [soundIntervalRef])
    and the part of the browser it acts on: the interval timers that are
    live, each with the button whose press set it, the handle the next
    [setInterval] returns (an integer above zero), and the effects so
    far. In [soundIntervalRef] a key that is absent reads [undefined] and
    the value [None] is [null]. *)
Record Controls : Type :=
  { pressedState : gmap ButtonColor bool;
    audioContextRef : option AudioState;
    soundIntervalRef : gmap ButtonColor (option positive);
    intervals : gmap positive ButtonColor;
    nextHandle : positive;
    effects : list Effect }.

Definition setPressedState (f : gmap ButtonColor bool -> gmap ButtonColor bool)
           (s : Controls) : Controls :=
  {| pressedState := f (pressedState s); audioContextRef := audioContextRef s;
     soundIntervalRef := soundIntervalRef s; intervals := intervals s;
     nextHandle := nextHandle s; effects := effects s |}.

Definition setSoundInterval (c : ButtonColor) (v : option positive)
           (s : Controls) : Controls :=
  {| pressedState := pressedState s; audioContextRef := audioContextRef s;
     soundIntervalRef := <[c := v]> (soundIntervalRef s);
     intervals := intervals s; nextHandle := nextHandle s;
     effects := effects s |}.

Definition emit (es : list Effect) (s : Controls) : Controls :=
  {| pressedState := pressedState s; audioContextRef := audioContextRef s;
     soundIntervalRef := soundIntervalRef s; intervals := intervals s;
     nextHandle := nextHandle s; effects := effects s ++ es |}.

(** [clearInterval(h)]; a handle that is not live is ignored. *)
Definition clearInterval (h : positive) (s : Controls) : Controls :=
  emit [ClearInterval h]
    {| pressedState := pressedState s; audioContextRef := audioContextRef s;
       soundIntervalRef := soundIntervalRef s;
       intervals := delete h (intervals s);
       nextHandle := nextHandle s; effects := effects s |}.

(** [setInterval(playSound, 40)] in the press of button [c]. *)
Definition setInterval (c : ButtonColor) (s : Controls) : positive * Controls :=
  let h := nextHandle s in
  (h, emit [SetInterval h]
        {| pressedState := pressedState s;
           audioContextRef := audioContextRef s;
           soundIntervalRef := soundIntervalRef s;
           intervals := <[h := c]> (intervals s);
           nextHandle := Pos.succ h; effects := effects s |}).

(** [pressedState[color]] *)
Definition pressed (c : ButtonColor) (s : Controls) : bool :=
  default false (pressedState s !! c).

(** [soundIntervalRef.current[color]] when it is truthy. *)
Definition handle_of (c : ButtonColor) (s : Controls) : option positive :=
  match soundIntervalRef s !! c with
  | Some (Some h) => Some h
  | _ => None
  end.

Definition playSound (s : Controls) : Controls :=
  match audioContextRef s with
  | None => s
  | Some suspended => emit [Resume; Pulse] s
  | Some running => emit [Pulse] s
  end.

(** [handlePress] as a render makes it. [useCallback] lists [pressedState]
    among its dependencies: every render makes a function of its own,
    whose guard reads the [pressedState] of that render, [shown]. The
    updater it passes to [setPressedState] and the two refs read the
    component as it is when the function is called. *)
Definition handlePressIn (shown : gmap ButtonColor bool) (c : ButtonColor)
           (s : Controls) : Controls :=
  if default false (shown !! c) then s
  else
    let s1 := setPressedState (fun prevState => <[c := true]> prevState) s in
    let s2 := match handle_of c s1 with
              | Some h => clearInterval h s1
              | None => s1
              end in
    let s3 := playSound s2 in
    let (h, s4) := setInterval c s3 in
    setSoundInterval c (Some h) s4.

(** [handleRelease] as the render that shows [shown] makes it. *)
Definition handleReleaseIn (shown : gmap ButtonColor bool) (c : ButtonColor)
           (s : Controls) : Controls :=
  if negb (default false (shown !! c)) then s
  else
    let s1 := setPressedState (fun prevState => <[c := false]> prevState) s in
    match handle_of c s1 with
    | Some h => setSoundInterval c None (clearInterval h s1)
    | None => s1
    end.

(** The two handlers of a render that shows the component as it is: React
    has rendered since [pressedState] last changed. *)
Definition handlePress (c : ButtonColor) (s : Controls) : Controls :=
  handlePressIn (pressedState s) c s.

Definition handleRelease (c : ButtonColor) (s : Controls) : Controls :=
  handleReleaseIn (pressedState s) c s.

(** The first render. *)
Definition initial : Controls :=
  {| pressedState := <[red := false]> (<[green := false]> (<[yellow := false]> ∅));
     audioContextRef := None;
     soundIntervalRef := ∅;
     intervals := ∅;
     nextHandle := 1%positive;
     effects := [] |}.

(** The effect that runs after the first render; [st] is the state the
    browser creates the context in. *)
Definition mount (st : AudioState) (s : Controls) : Controls :=
  match audioContextRef s with
  | None =>
    {| pressedState := pressedState s; audioContextRef := Some st;
       soundIntervalRef := soundIntervalRef s; intervals := intervals s;
       nextHandle := nextHandle s; effects := effects s |}
  | Some _ => s
  end.

(** What happens to the component after it is mounted; in [step] React
    has rendered the component before each event. *)
Inductive Event : Type :=
| Press (c : ButtonColor)        (** mouse down, touch start, key down *)
| Release (c : ButtonColor)      (** mouse up or leave, touch end, key up *)
| Fire (h : positive)            (** the browser runs the timer [h] *)
| ContextState (st : AudioState). (** the browser changes [context.state] *)

Definition step (s : Controls) (e : Event) : Controls :=
  match e with
  | Press c => handlePress c s
  | Release c => handleRelease c s
  | Fire h =>
    match intervals s !! h with
    | Some _ => playSound s
    | None => s
    end
  | ContextState st =>
    {| pressedState := pressedState s;
       audioContextRef := match audioContextRef s with
                          | Some _ => Some st
                          | None => None
                          end;
       soundIntervalRef := soundIntervalRef s; intervals := intervals s;
       nextHandle := nextHandle s; effects := effects s |}
  end.

Definition run (es : list Event) (s : Controls) : Controls :=
  fold_left step es s.

(** The state after the mount effect and the events [es]. *)
Definition after (st : AudioState) (es : list Event) : Controls :=
  run es (mount st initial).

(** The component between two renders: its state, and the [pressedState]
    of the last render, which the handlers of the buttons and of the ref
    ([useImperativeHandle] runs at every render) read in their guards. *)
Record Panel : Type :=
  { controls : Controls;
    shown : gmap ButtonColor bool }.

(** An event that reaches the handlers of the last render, or a render
    of the component. *)
Inductive PanelEvent : Type :=
| Handled (e : Event)
| Rendered.

Definition panelStep (p : Panel) (e : PanelEvent) : Panel :=
  match e with
  | Handled (Press c) =>
    {| controls := handlePressIn (shown p) c (controls p); shown := shown p |}
  | Handled (Release c) =>
    {| controls := handleReleaseIn (shown p) c (controls p); shown := shown p |}
  | Handled e => {| controls := step (controls p) e; shown := shown p |}
  | Rendered => {| controls := controls p; shown := pressedState (controls p) |}
  end.

(** The panel after the first render, the mount effect and the events
    [es]. *)
Definition panelAfter (st : AudioState) (es : list PanelEvent) : Panel :=
  fold_left panelStep es
            {| controls := mount st initial; shown := pressedState initial |}.

Definition pulses (s : Controls) : nat :=
  length (List.filter (fun e => bool_decide (e = Pulse)) (effects s)).

Definition is_SetInterval (e : Effect) : bool :=
  match e with SetInterval _ => true | _ => false end.

Definition timersStarted (s : Controls) : nat :=
  length (List.filter is_SetInterval (effects s)).

(** The live timers that the presses of button [c] set. *)
Definition timersOf (c : ButtonColor) (s : Controls) : list positive :=
  (List.filter (fun hc => bool_decide (hc.2 = c))
               (map_to_list (intervals s))).*1.

(** What holds of the component after the mount effect and any events:
    a button is pressed exactly when it holds a timer handle, the live
    timers are the handles held, each set by the button that holds it,
    the handles in use are below the next one, and the audio context
    exists. *)
Record Inv (s : Controls) : Prop :=
  { inv_pressed : forall c, pressed c s = true <-> is_Some (handle_of c s);
    inv_timers : forall h c, intervals s !! h = Some c <-> handle_of c s = Some h;
    inv_fresh : forall h c, intervals s !! h = Some c -> (h < nextHandle s)%positive;
    inv_audio : is_Some (audioContextRef s) }.

End GameControls.

(* ================================================================== *)
(** * The rest of [App]: the player URL, the two phases of an add, the
      reset flags in a loaded session                                   *)
(* ================================================================== *)

(** [embedUrl] of [App], for the [videoId] and the [isMuted] of a render. *)
Definition embedUrl (videoId : string) (isMuted : bool) : string :=
  "https://www.youtube.com/embed/" ++ videoId ++ "?autoplay=0&mute="
  ++ (if isMuted then "1" else "0") ++ "&rel=0&playsinline=1".

(** The part of [handleAddVideo] before its [await]: the id whose fetch
    it starts, [None] when it throws or selects a video that is there. *)
Definition addVideoRequest (url : string) (s : AppState) : option string :=
  match extractVideoId url with
  | None | Some EmptyString => None
  | Some newVideoId =>
    if existsb (fun v => String.eqb (id v) newVideoId) (videos s) then None
    else Some newVideoId
  end.

(** What the page offers in the state [s] once the seed videos are
    loaded: the carousel shows [favoriteVideos], the list of the modal
    shows videos of the collection, with a star each, the two reset
    buttons are disabled by [isFavoritesResettable] and
    [isUserVideosResettable], [Math.random()] is in [[0, 1)], and the
    effect that loads the seed videos has run. *)
Definition offered (initialVideoIds : list string) (e : AppEvent) (s : AppState)
  : Prop :=
  match e with
  | SeedLoaded _ => False
  | SelectVideo i => i ∈ map id (favoriteVideos s)
  | SelectFromModal i => isModalOpen s = true /\ i ∈ map id (videos s)
  | OpenModal => True
  | CloseModal => isModalOpen s = true
  | ToggleFavorite i => isModalOpen s = true /\ i ∈ map id (videos s)
  | AddVideo _ _ => isModalOpen s = true
  | ResetFavorites => isModalOpen s = true /\ isFavoritesResettable s = true
  | ResetUserVideos r =>
    isModalOpen s = true /\ isUserVideosResettable initialVideoIds s = true
    /\ unit_interval r
  | FeelingLucky _ rand => forall n, unit_interval (rand n)
  end.

(** The sessions in which the seed load completes before anything else
    happens. *)
Inductive loaded (initialVideoIds : list string) : Session -> Prop :=
| loaded_first r stored net :
    unit_interval r ->
    loaded initialVideoIds
      (rendered true (firstRender initialVideoIds r stored)
         (loadInitialVideos initialVideoIds net
            (store (firstRender initialVideoIds r stored))))
| loaded_step e ss ss' :
    loaded initialVideoIds ss -> offered initialVideoIds e (store ss) ->
    appStep initialVideoIds e ss = Some ss' ->
    loaded initialVideoIds ss'.

(* ================================================================== *)
(** * Notions of the resolver's texts                                   *)
(* ================================================================== *)

(** The code units of a string of ASCII characters. *)
Definition codes (s : string) : list N :=
  map Utf16.byte (list_ascii_of_string s).

(** The number of [/] in a text. *)
Definition slashes (us : list N) : nat :=
  length (List.filter (Regex.code "/") us).

Definition noSlash (us : list N) : bool :=
  forallb (fun u => negb (Regex.code "/" u)) us.

(** The first alternative after [youtube.com/]: [[^\/\n\s]+\/\S+\/]. *)
Definition path : Regex.regex :=
  Regex.Seq (Regex.Plus Regex.segment)
    (Regex.Seq (Regex.Lit "/")
       (Regex.Seq (Regex.Plus Regex.nonwhite) (Regex.Lit "/"))).

(* ================================================================== *)
(** * Persistence: [useLocalStorageState]                               *)
(* ================================================================== *)

Module LocalStorage.

(** [window.localStorage] as the hook meets it: the items, whether every
    access throws (storage blocked by the browser), and which writes are
    accepted (the quota). *)
Record Storage : Type :=
  { items : gmap string string;
    blocked : bool;
    accepts : string -> string -> bool }.

Definition getItem (localStorage : Storage) (key : string)
  : Outcome (option string) :=
  if blocked localStorage then Thrown "SecurityError"
  else Returned (items localStorage !! key).

Definition setItem (localStorage : Storage) (key value : string)
  : Outcome Storage :=
  if blocked localStorage then Thrown "SecurityError"
  else if accepts localStorage key value then
    Returned {| items := <[key := value]> (items localStorage);
                blocked := blocked localStorage;
                accepts := accepts localStorage |}
  else Thrown "QuotaExceededError".

Section Hook.
Context {T : Type}.

(** [JSON.parse] and [JSON.stringify] at the type of the state; a stored
    text is taken to parse to a value of that type or not at all. *)
Variable JSON_parse : string -> Outcome T.
Variable JSON_stringify : T -> string.

(** The initializer of the state; [window] is [None] where
    [typeof window] is ['undefined']. An item that is [null] or the empty
    string is falsy. *)
Definition initialValue (window : option Storage) (key : string)
           (defaultValue : T) : T :=
  match window with
  | None => defaultValue
  | Some localStorage =>
    match getItem localStorage key with
    | Returned (Some (String c item)) =>
      match JSON_parse (String c item) with
      | Returned value => value
      | Thrown _ => defaultValue
      end
    | Returned _ => defaultValue
    | Thrown _ => defaultValue
    end
  end.

(** The effect of the hook, which runs after the first render and after
    every render in which [key] or [state] changed. *)
Definition persist (window : option Storage) (key : string) (state : T)
  : option Storage :=
  match window with
  | None => None
  | Some localStorage =>
    match setItem localStorage key (JSON_stringify state) with
    | Returned localStorage' => Some localStorage'
    | Thrown _ => Some localStorage
    end
  end.

End Hook.
End LocalStorage.

(** ** The two persisted states of [App] *)

Inductive Theme : Type := light | dark.

(** The default of [theme]; [prefersDark] is what
    [matchMedia('(prefers-color-scheme: dark)').matches] gives. *)
Definition defaultTheme (window : option LocalStorage.Storage)
           (prefersDark : bool) : Theme :=
  match window with
  | Some _ => if prefersDark then dark else light
  | None => light
  end.

(** The updater of [toggleTheme]. *)
Definition toggleTheme (prev : Theme) : Theme :=
  match prev with
  | light => dark
  | dark => light
  end.

Section Persisted.
Variable parseTheme : string -> Outcome Theme.
Variable stringifyTheme : Theme -> string.
Variable parseIds : string -> Outcome (list string).
Variable stringifyIds : list string -> string.

(** [theme] and [favoriteIds] in the first render of [App]. *)
Definition persistedStates (window : option LocalStorage.Storage)
           (prefersDark : bool) : Theme * list string :=
  (LocalStorage.initialValue parseTheme window "theme"
     (defaultTheme window prefersDark),
   LocalStorage.initialValue parseIds window "favoriteVideoIds" []).

(** The effects of the two hooks after a render, in the order of the
    hooks. *)
Definition persistStates (window : option LocalStorage.Storage)
           (theme : Theme) (favoriteIds : list string)
  : option LocalStorage.Storage :=
  LocalStorage.persist stringifyIds
    (LocalStorage.persist stringifyTheme window "theme" theme)
    "favoriteVideoIds" favoriteIds.

End Persisted.

(* ================================================================== *)
(** * The keys and the pointer                                          *)
(* ================================================================== *)

Module Input.
Import GameControls.

(** What the two key handlers read of a [KeyboardEvent]; [tagName] is
    that of [event.target]. [key] is any string: the keys of a keyboard
    give the key values of the UI Events specification, an event that a
    script dispatches any text. *)
Record KeyboardEvent : Type :=
  { key : string;
    repeat : bool;
    tagName : string }.

(** The own properties of the object [keyMap]. *)
Definition keyMap : gmap string ButtonColor :=
  list_to_map [ ("w", red); ("W", red); ("a", green); ("A", green);
                ("d", yellow); ("D", yellow) ].

(** [keyMap] is an object literal: a key that is no own property is looked
    up in [Object.prototype]. These are its properties; each of them
    holds a function, [__proto__] the prototype itself. *)
Definition inherited : list string :=
  [ "constructor"; "hasOwnProperty"; "isPrototypeOf"; "propertyIsEnumerable";
    "toLocaleString"; "toString"; "valueOf"; "__proto__";
    "__defineGetter__"; "__defineSetter__";
    "__lookupGetter__"; "__lookupSetter__" ].

(** The value of [keyMap[key]]: a colour, an inherited property (an
    object, hence truthy, and no colour), or [undefined]. *)
Inductive Property : Type :=
| Colour (color : ButtonColor)
| Inherited (name : string)
| Undefined.

Definition keyMap_at (key : string) : Property :=
  match keyMap !! key with
  | Some color => Colour color
  | None => if bool_decide (key ∈ inherited) then Inherited key else Undefined
  end.

(** What a handler of the keys did. [gameControlsRef] is [None] while the
    ref is [null]. *)
Inductive KeyResult : Type :=
| Ignored (gameControlsRef : option Controls)
  (** it returned before [event.preventDefault()] *)
| Acted (gameControlsRef : option Controls)
  (** [preventDefault()], and the method of the ref was called with a
      colour: the ref after the call *)
| ActedInherited (name : string).
  (** [preventDefault()], and the method of the ref, when the ref holds
      one, was called with the inherited property [name]: [GameControls]
      then files a flag and a timer handle under a key that belongs to
      none of the three buttons, which [Controls] does not hold *)

(** The handlers of the effect that binds the keys. *)
Definition handleKeyDown (event : KeyboardEvent)
           (gameControlsRef : option Controls) : KeyResult :=
  if repeat event || String.eqb (tagName event) "INPUT"
  then Ignored gameControlsRef
  else
    match keyMap_at (key event) with
    | Colour color => Acted (handlePress color <$> gameControlsRef)
    | Inherited name => ActedInherited name
    | Undefined => Ignored gameControlsRef
    end.

Definition handleKeyUp (event : KeyboardEvent)
           (gameControlsRef : option Controls) : KeyResult :=
  match keyMap_at (key event) with
  | Colour color => Acted (handleRelease color <$> gameControlsRef)
  | Inherited name => ActedInherited name
  | Undefined => Ignored gameControlsRef
  end.

(** The events [ArcadeButton] listens to. *)
Inductive PointerEvent : Type :=
| MouseDown | MouseUp | MouseLeave | TouchStart | TouchEnd.

(** [ArcadeButton] with its [onPress] and [onRelease]; the result says
    whether [e.preventDefault()] was called. *)
Definition ArcadeButton (onPress onRelease : Controls -> Controls)
           (e : PointerEvent) (s : Controls) : bool * Controls :=
  match e with
  | MouseDown => (false, onPress s)
  | MouseUp => (false, onRelease s)
  | MouseLeave => (false, onRelease s)
  | TouchStart => (true, onPress s)
  | TouchEnd => (true, onRelease s)
  end.

(** The button of [color] as [GameControls] renders it. *)
Definition button (color : ButtonColor) (e : PointerEvent) (s : Controls)
  : bool * Controls :=
  ArcadeButton (handlePress color) (handleRelease color) e s.

Definition isDown (e : PointerEvent) : bool :=
  match e with
  | MouseDown | TouchStart => true
  | _ => false
  end.

End Input.

(* ================================================================== *)
(** * The modal: [VideoSelectionModal]                                  *)
(* ================================================================== *)

Module JsString.

(** [s.trimStart()] on code units. *)
Fixpoint trimStart (us : list N) : list N :=
  match us with
  | u :: us' => if Regex.white u then trimStart us' else us
  | [] => []
  end.

(** [s.trim()] *)
Definition trim (us : list N) : list N :=
  rev (trimStart (rev (trimStart us))).

Fixpoint startsWith (us qs : list N) : bool :=
  match qs, us with
  | [], _ => true
  | q :: qs', u :: us' => (u =? q)%N && startsWith us' qs'
  | _ :: _, [] => false
  end.

(** [s.includes(q)] for strings. *)
Fixpoint includes (us qs : list N) : bool :=
  startsWith us qs
  || match us with
     | _ :: us' => includes us' qs
     | [] => false
     end.

End JsString.

Module VideoSelectionModal.

Section Search.
(** [String.prototype.toLowerCase], the case mapping of Unicode. *)
Variable toLowerCase : string -> string.

Definition matches (searchTerm : string) (video : Video) : bool :=
  JsString.includes (Utf16.utf16 (toLowerCase (title video)))
                    (Utf16.utf16 (toLowerCase searchTerm)).

Definition filteredVideos (videos : list Video) (searchTerm : string)
  : list Video :=
  if negb (0 <? length (JsString.trim (Utf16.utf16 searchTerm))) then videos
  else List.filter (matches searchTerm) videos.
End Search.

Inductive ResetAction : Type := reset_favorites | reset_user_videos.

Module Confirm.
Record State : Type :=
  { isOpen : bool;
    action : option ResetAction;
    title : string;
    message : string }.
End Confirm.

Record ModalState : Type :=
  { searchTerm : string;
    urlInput : string;
    isAddingVideo : bool;
    inputError : option string;
    confirmModalState : Confirm.State }.

Definition setUrlInput (v : string) (m : ModalState) : ModalState :=
  {| searchTerm := searchTerm m; urlInput := v;
     isAddingVideo := isAddingVideo m; inputError := inputError m;
     confirmModalState := confirmModalState m |}.

Definition setIsAddingVideo (v : bool) (m : ModalState) : ModalState :=
  {| searchTerm := searchTerm m; urlInput := urlInput m;
     isAddingVideo := v; inputError := inputError m;
     confirmModalState := confirmModalState m |}.

Definition setInputError (v : option string) (m : ModalState) : ModalState :=
  {| searchTerm := searchTerm m; urlInput := urlInput m;
     isAddingVideo := isAddingVideo m; inputError := v;
     confirmModalState := confirmModalState m |}.

Definition setConfirmModalState (v : Confirm.State) (m : ModalState)
  : ModalState :=
  {| searchTerm := searchTerm m; urlInput := urlInput m;
     isAddingVideo := isAddingVideo m; inputError := inputError m;
     confirmModalState := v |}.

(** The state of the first render. *)
Definition closedConfirm : Confirm.State :=
  {| Confirm.isOpen := false; Confirm.action := None;
     Confirm.title := ""; Confirm.message := "" |}.

Definition initialModal : ModalState :=
  {| searchTerm := ""; urlInput := ""; isAddingVideo := false;
     inputError := None; confirmModalState := closedConfirm |}.

(** [handleAddVideo] of the modal, from the click to the end of the
    [finally] block; [onAddVideo] is the prop of that name. *)
Definition handleAddVideo (onAddVideo : string -> Action unit)
           (m : ModalState) (s : AppState) : ModalState * AppState :=
  let m1 := setInputError None (setIsAddingVideo true m) in
  let (outcome, s') := onAddVideo (urlInput m) s in
  let m2 := match outcome with
            | Returned _ => setUrlInput "" m1
            | Thrown message => setInputError (Some message) m1
            end in
  (setIsAddingVideo false m2, s').

Definition handleFavoritesResetClick (m : ModalState) : ModalState :=
  setConfirmModalState
    {| Confirm.isOpen := true;
       Confirm.action := Some reset_favorites;
       Confirm.title := "お気に入りのリセット";
       Confirm.message :=
         "お気に入りをすべてリセットしますか？この操作は元に戻せません。" |} m.

Definition handleUserVideosResetClick (m : ModalState) : ModalState :=
  setConfirmModalState
    {| Confirm.isOpen := true;
       Confirm.action := Some reset_user_videos;
       Confirm.title := "追加動画のリセット";
       Confirm.message :=
         "追加した動画をすべてリセットしますか？この操作は元に戻せません。" |} m.

Definition handleConfirmReset (onResetFavorites onResetUserVideos : AppState -> AppState)
           (m : ModalState) (s : AppState) : ModalState * AppState :=
  let s' := match Confirm.action (confirmModalState m) with
            | Some reset_favorites => onResetFavorites s
            | Some reset_user_videos => onResetUserVideos s
            | None => s
            end in
  (setConfirmModalState closedConfirm m, s').

Definition handleCancelReset (m : ModalState) : ModalState :=
  setConfirmModalState closedConfirm m.

End VideoSelectionModal.

(** The modal as [App] renders it: [onAddVideo], [onResetFavorites] and
    [onResetUserVideos] are the handlers of [App]. *)
Definition modalAddVideo (seen : string) (net : Network)
  : VideoSelectionModal.ModalState -> AppState
    -> VideoSelectionModal.ModalState * AppState :=
  VideoSelectionModal.handleAddVideo (handleAddVideo seen net).

Definition modalConfirmReset (initialVideoIds : list string) (r : Q)
  : VideoSelectionModal.ModalState -> AppState
    -> VideoSelectionModal.ModalState * AppState :=
  VideoSelectionModal.handleConfirmReset
    handleResetFavorites (handleResetUserVideos initialVideoIds r).

(* ================================================================== *)
(** * Facts about the runtime model                                     *)
(* ================================================================== *)

Lemma includes_true (xs : list string) (x : string) :
  includes xs x = true <-> x ∈ xs.
Proof.
  unfold includes. rewrite existsb_exists, list_elem_of_In. split.
  - intros (y & Hy & He). apply String.eqb_eq in He. by subst.
  - intros H. exists x. split; [done | apply String.eqb_refl].
Qed.

Lemma includes_false (xs : list string) (x : string) :
  includes xs x = false <-> x ∉ xs.
Proof.
  rewrite <- includes_true. destruct (includes xs x); intuition congruence.
Qed.

Lemma filter_elem_of {A : Type} (f : A -> bool) (l : list A) (x : A) :
  x ∈ List.filter f l <-> x ∈ l /\ f x = true.
Proof. rewrite !list_elem_of_In. apply filter_In. Qed.

(** ** The index of a draw *)

Module NumberFacts.
Import Number.
Local Open Scope Z_scope.

Lemma ulp_nonneg u : 0 <= ulp u.
Proof. unfold ulp. lia. Qed.

(** Rounding moves a number by half a unit of its last place at most. *)
Lemma round_near u :
  0 <= u -> - 2 ^ ulp u <= 2 * (round u - u) <= 2 ^ ulp u.
Proof.
  intros Hu. unfold round.
  pose proof (ulp_nonneg u) as He.
  assert (Hp : 0 < 2 ^ ulp u) by (apply Z.pow_pos_nonneg; lia).
  pose proof (Z.div_mod u (2 ^ ulp u) ltac:(lia)) as Hdm.
  pose proof (Z.mod_pos_bound u (2 ^ ulp u) Hp) as Hm.
  destruct (Z.compare_spec (2 * (u mod 2 ^ ulp u)) (2 ^ ulp u)) as [Hc | Hc | Hc].
  - destruct (Z.even _); nia.
  - nia.
  - nia.
Qed.

(** The last place of [u] is worth [u / 2^52] at most. *)
Lemma ulp_small u : 0 <= u -> 2 ^ ulp u <= 1 \/ 2 ^ ulp u * 2 ^ 52 <= u.
Proof.
  intros Hu. unfold ulp.
  destruct (Z.max_spec (Z.log2 u - 52) 0) as [[Hlt ->] | [Hge ->]]; [by left |].
  right. rewrite <- Z.pow_add_r by lia.
  replace (Z.log2 u - 52 + 52) with (Z.log2 u) by lia.
  apply Z.log2_spec. destruct (Z.eq_dec u 0) as [-> | ?]; [simpl in Hge; lia | lia].
Qed.


Lemma one_split : one = 2 ^ 1021 * 2 ^ 53.
Proof. unfold one. by rewrite <- Z.pow_add_r. Qed.

Lemma round_0 : round 0 = 0.
Proof. reflexivity. Qed.

(** A double below [1] is [1 - 2^-53] at most. *)
Lemma round_fixed_below_one u :
  0 <= u < one -> round u = u -> u <= one - 2 ^ 1021.
Proof.
  rewrite one_split. intros [H0 H1] Hr.
  assert (Ha : 0 < 2 ^ 1021) by (by apply Z.pow_pos_nonneg).
  destruct (Z.lt_ge_cases u (2 ^ 1021 * 2 ^ 52)) as [Hlt | Hge].
  - revert Hlt. generalize (2 ^ 1021) Ha. intros a Ha'.
    change (2 ^ 52) with 4503599627370496. change (2 ^ 53) with 9007199254740992.
    lia.
  - assert (Hl : Z.log2 u = 1073).
    { apply Z.log2_unique; [lia |]. change (1073 + 1) with (1021 + 53).
      change 1073 with (1021 + 52) at 1. rewrite !Z.pow_add_r by lia. lia. }
    unfold round, ulp in Hr. rewrite Hl in Hr.
    change (Z.max (1073 - 52) 0) with 1021 in Hr. cbv zeta in Hr.
    revert Hr. set (m' := match _ ?= _ with Lt => _ | _ => _ end).
    generalize m'. clear m' Hl Hge. revert H0 H1. generalize (2 ^ 1021) Ha.
    change (2 ^ 53) with 9007199254740992.
    intros a Ha' H0 H1 m' Hr.
    assert (m' < 9007199254740992) by nia. nia.
Qed.

(** The product of a double below [1] and a whole number [n], rounded,
    is below [n]. *)
Lemma round_product_below u n :
  0 <= u <= one - 2 ^ 1021 -> 0 < n -> 0 <= round (u * n) < n * one.
Proof.
  rewrite one_split. intros [H0 H1] Hn.
  assert (Ha : 0 < 2 ^ 1021) by (by apply Z.pow_pos_nonneg).
  assert (HP : 0 <= u * n) by nia.
  pose proof (round_near (u * n) HP) as Hnear.
  pose proof (ulp_small (u * n) HP) as Hulp.
  assert (He : 0 < 2 ^ ulp (u * n))
    by (apply Z.pow_pos_nonneg; [lia | apply ulp_nonneg]).
  revert H1 Hnear Hulp He. generalize (2 ^ ulp (u * n)) (round (u * n)).
  generalize (2 ^ 1021) Ha. intros a Ha' p x.
  change (2 ^ 52) with 4503599627370496. change (2 ^ 53) with 9007199254740992.
  intros H1 Hnear [Hs | Hs] Hp; nia.
Qed.





End NumberFacts.

Lemma unitsOf_number (r : Q) :
  number r -> Number.round (unitsOf r) = unitsOf r.
Proof.
  unfold number. intros H. unfold unitsOf at 2.
  rewrite <- H. by rewrite Qfloor_Z.
Qed.

Lemma unitsOf_unit (r : Q) :
  (0 <= r)%Q -> (r < 1)%Q -> (0 <= unitsOf r < Number.one)%Z.
Proof.
  intros H0 H1. unfold unitsOf.
  assert (Hone : (0 < inject_Z Number.one)%Q).
  { change 0%Q with (inject_Z 0). rewrite <- Zlt_Qlt.
    unfold Number.one. by apply Z.pow_pos_nonneg. }
  split.
  - change 0%Z with (Qfloor 0). apply Qfloor_resp_le.
    apply Qmult_le_0_compat; [done | by apply Qlt_le_weak].
  - rewrite Zlt_Qlt. eapply Qle_lt_trans; [apply Qfloor_le |].
    rewrite <- (Qmult_1_l (inject_Z Number.one)) at 2.
    by apply Qmult_lt_compat_r.
Qed.

Lemma randomIndex_lt (r : Q) (n : nat) :
  unit_interval r -> 0 < n -> randomIndex r n < n.
Proof.
  intros (H0 & H1 & Hnum) Hn. unfold randomIndex.
  pose proof (unitsOf_unit r H0 H1) as Hu.
  pose proof (NumberFacts.round_fixed_below_one _ Hu (unitsOf_number r Hnum)) as Hb.
  destruct (NumberFacts.round_product_below (unitsOf r) (Z.of_nat n)) as [Hp0 Hp1];
    [lia | lia |].
  assert (Hone : (0 < Number.one)%Z) by (by apply Z.pow_pos_nonneg).
  assert (Number.round (unitsOf r * Z.of_nat n) / Number.one < Z.of_nat n)%Z
    by (apply Z.div_lt_upper_bound; lia).
  assert (0 <= Number.round (unitsOf r * Z.of_nat n) / Number.one)%Z
    by (by apply Z.div_pos).
  lia.
Qed.

Lemma unit_intervalb_true (r : Q) : unit_intervalb r = true -> unit_interval r.
Proof.
  unfold unit_intervalb, unit_interval, number.
  rewrite !andb_true_iff, negb_true_iff. intros [[H0 H1] H2].
  apply Qle_bool_iff in H0. apply Qeq_bool_iff in H2.
  split_and!; [done | | done].
  apply Qnot_le_lt. intros H. apply Qle_bool_iff in H. congruence.
Qed.

(** The product is rounded before [Math.floor]: for this double and an
    array of 313 entries the exact product is below 157 by less than half
    a unit in the last place, and the index is 157. *)
Lemma randomIndex_rounded_product :
  let r := (2258994062291271 # 4503599627370496)%Q in
  unit_intervalb r = true
  /\ Qfloor (r * inject_Z 313) = 156%Z
  /\ randomIndex r 313 = 157.
Proof. vm_compute. done. Qed.




Lemma at_index_elem_of {A : Type} (d : A) (xs : list A) (i : nat) :
  i < length xs -> at_index d xs i ∈ xs.
Proof. intros H. apply list_elem_of_In. unfold at_index. by apply nth_In. Qed.

(** ** The favorite list *)

Lemma toggle_absent (i : string) (prev : list string) :
  i ∉ prev -> toggle i prev = prev ++ [i].
Proof. intros H. unfold toggle. apply includes_false in H. by rewrite H. Qed.

Lemma toggle_present (i : string) (prev : list string) :
  i ∈ prev ->
  toggle i prev = List.filter (fun favId => negb (String.eqb favId i)) prev.
Proof. intros H. unfold toggle. apply includes_true in H. by rewrite H. Qed.

Lemma elem_of_toggle (i j : string) (prev : list string) :
  j ∈ toggle i prev <-> (j = i /\ i ∉ prev) \/ (j <> i /\ j ∈ prev).
Proof.
  destruct (decide (i ∈ prev)) as [Hin | Hout].
  - rewrite toggle_present by done. rewrite filter_elem_of.
    rewrite negb_true_iff, String.eqb_neq. tauto.
  - rewrite toggle_absent by done. rewrite elem_of_app, list_elem_of_singleton.
    destruct (decide (j = i)); subst; tauto.
Qed.

Lemma NoDup_filter_bool {A : Type} (f : A -> bool) (l : list A) :
  NoDup l -> NoDup (List.filter f l).
Proof.
  induction 1 as [| x l Hx Hl IH]; simpl; [constructor |].
  destruct (f x); [| done]. constructor; [| done].
  rewrite filter_elem_of. tauto.
Qed.

Lemma NoDup_toggle (i : string) (prev : list string) :
  NoDup prev -> NoDup (toggle i prev).
Proof.
  intros H. destruct (decide (i ∈ prev)) as [Hin | Hout].
  - rewrite toggle_present by done. by apply NoDup_filter_bool.
  - rewrite toggle_absent by done. apply NoDup_app. split_and!; [done | | ].
    + intros x Hx ->%list_elem_of_singleton. done.
    + apply NoDup_singleton.
Qed.

Lemma toggleAll_snoc (calls : list string) (i : string) (s : AppState) :
  toggleAll (calls ++ [i]) s = handleToggleFavorite i (toggleAll calls s).
Proof. unfold toggleAll. by rewrite fold_left_app. Qed.

Lemma count_occ_snoc (l : list string) (i j : string) :
  count_occ string_dec (l ++ [i]) j =
  count_occ string_dec l j + (if decide (i = j) then 1 else 0).
Proof.
  rewrite count_occ_app. simpl.
  destruct (string_dec i j), (decide (i = j)); done.
Qed.

(** C1. After any sequence of [handleToggleFavorite] calls on a state with
    no favorite, no id is twice in [favoriteIds], and an id is in it exactly
    when the number of its toggles is odd. In any state, the toggle of an id
    that is absent appends it at the end, and the toggle of an id that is
    present filters it out, so that none of its occurrences is left. *)
Theorem toggleFavorite_parity (s0 : AppState) (calls : list string) :
  favoriteIds s0 = [] ->
  let favs := favoriteIds (toggleAll calls s0) in
  NoDup favs
  /\ (forall i, i ∈ favs <-> Nat.odd (count_occ string_dec calls i) = true)
  /\ (forall i s, i ∉ favoriteIds s ->
        favoriteIds (handleToggleFavorite i s) = favoriteIds s ++ [i])
  /\ (forall i s, i ∈ favoriteIds s ->
        favoriteIds (handleToggleFavorite i s)
        = List.filter (fun favId => negb (String.eqb favId i)) (favoriteIds s)
        /\ count_occ string_dec (favoriteIds (handleToggleFavorite i s)) i = 0).
Proof.
  intros Hempty favs. subst favs.
  assert (Hinv : NoDup (favoriteIds (toggleAll calls s0))
                 /\ forall i, i ∈ favoriteIds (toggleAll calls s0)
                              <-> Nat.odd (count_occ string_dec calls i) = true).
  { induction calls as [| x calls [IHn IHp]] using rev_ind.
    - simpl. rewrite Hempty. split; [constructor |].
      intros i. rewrite elem_of_nil. simpl. split; [tauto | discriminate].
    - rewrite toggleAll_snoc. simpl. split; [by apply NoDup_toggle |].
      intros i. rewrite elem_of_toggle, count_occ_snoc, !IHp.
      destruct (decide (x = i)) as [-> | Hne].
      + rewrite Nat.add_1_r, Nat.odd_succ, <- Nat.negb_odd.
        destruct (Nat.odd _); simpl; intuition congruence.
      + rewrite Nat.add_0_r. intuition congruence. }
  destruct Hinv as [Hn Hp]. split_and!; [done | done | |].
  - intros i s Hi. simpl. by apply toggle_absent.
  - intros i s Hi. simpl. rewrite toggle_present by done. split; [done |].
    apply count_occ_not_In. rewrite <- list_elem_of_In, filter_elem_of.
    rewrite negb_true_iff, String.eqb_neq. tauto.
Qed.

Lemma toggleFavorite_parity_witness :
  let s0 := {| videos := [defaultData "tsKd6HdXvso"]; isLoading := false;
               videoId := "tsKd6HdXvso"; isModalOpen := true;
               favoriteIds := [] |} in
  let calls := ["tsKd6HdXvso"; "RjGv7Sa4YQo"; "tsKd6HdXvso"; "4z31xQuGTp4"] in
  favoriteIds s0 = []
  /\ favoriteIds (toggleAll calls s0) = ["RjGv7Sa4YQo"; "4z31xQuGTp4"]
  /\ NoDup (favoriteIds (toggleAll calls s0))
  /\ ("tsKd6HdXvso" ∈ favoriteIds (toggleAll calls s0)
      <-> Nat.odd (count_occ string_dec calls "tsKd6HdXvso") = true).
Proof.
  intros s0 calls.
  destruct (toggleFavorite_parity s0 calls eq_refl) as (Hn & Hp & _).
  split_and!; [reflexivity | vm_compute; reflexivity | exact Hn | apply Hp].
Defined.

(** ** The favorites view *)

Lemma new_Map_snoc {V : Type} (entries : list (string * V)) (k : string) (v : V) :
  new_Map (entries ++ [(k, v)]) = <[k := v]> (new_Map entries).
Proof. unfold new_Map. by rewrite fold_left_app. Qed.

Lemma new_Map_Some {V : Type} (entries : list (string * V)) (k : string) (v : V) :
  new_Map entries !! k = Some v -> (k, v) ∈ entries.
Proof.
  induction entries as [| [k' v'] entries IH] using rev_ind.
  - unfold new_Map. simpl. by rewrite lookup_empty.
  - rewrite new_Map_snoc, lookup_insert, elem_of_app, list_elem_of_singleton.
    case_decide as Hk; [| tauto]. intros [= <-]. subst. by right.
Qed.

Lemma new_Map_None {V : Type} (entries : list (string * V)) (k : string) :
  new_Map entries !! k = None <-> k ∉ entries.*1.
Proof.
  induction entries as [| [k' v'] entries IH] using rev_ind.
  - unfold new_Map. simpl. rewrite lookup_empty, elem_of_nil. tauto.
  - rewrite new_Map_snoc, lookup_insert, fmap_app, elem_of_app. simpl.
    rewrite list_elem_of_singleton. case_decide as Hk.
    + subst. split; [discriminate | tauto].
    + rewrite IH. split; [| tauto]. intros H [H' | H']; [tauto | congruence].
Qed.

Lemma favoriteVideoMap_Some (vs : list Video) (i : string) (v : Video) :
  new_Map (map (fun v => (id v, v)) vs) !! i = Some v -> v ∈ vs /\ id v = i.
Proof.
  intros H%new_Map_Some. apply list_elem_of_fmap in H as (w & [= -> ->] & Hw).
  done.
Qed.

Lemma favoriteVideoMap_None (vs : list Video) (i : string) :
  new_Map (map (fun v => (id v, v)) vs) !! i = None <-> i ∉ map id vs.
Proof.
  rewrite new_Map_None.
  replace ((map (fun v => (id v, v)) vs).*1) with (map id vs); [done |].
  induction vs as [| v vs IH]; simpl; [done | by rewrite IH].
Qed.

Lemma favorite_lookup_ids (vs : list Video) (favs : list string) :
  let m := new_Map (map (fun v => (id v, v)) vs) in
  map id (defined (map (fun i => m !! i) favs))
  = List.filter (includes (map id vs)) favs.
Proof.
  intros m. induction favs as [| i l IH]; simpl; [done |].
  destruct (m !! i) as [v |] eqn:Hm.
  - apply favoriteVideoMap_Some in Hm as [Hv <-].
    assert (Hin : includes (map id vs) (id v) = true).
    { apply includes_true. by apply list_elem_of_fmap_2. }
    rewrite Hin. simpl. by rewrite IH.
  - apply favoriteVideoMap_None, includes_false in Hm. by rewrite Hm.
Qed.

Lemma favorite_lookup_elem_of (vs : list Video) (favs : list string) (v : Video) :
  let m := new_Map (map (fun v => (id v, v)) vs) in
  v ∈ defined (map (fun i => m !! i) favs) -> v ∈ vs /\ id v ∈ favs.
Proof.
  intros m. induction favs as [| i l IH]; simpl; intros Hv.
  - by apply elem_of_nil in Hv.
  - destruct (m !! i) as [w |] eqn:Hm.
    + apply favoriteVideoMap_Some in Hm as [Hw <-].
      apply elem_of_cons in Hv as [-> | Hv].
      * split; [done | left].
      * destruct (IH Hv). split; [done | by right].
    + destruct (IH Hv). split; [done | by right].
Qed.

Lemma favoriteVideos_ids (s : AppState) :
  map id (favoriteVideos s)
  = List.filter (includes (map id (videos s))) (favoriteIds s).
Proof. apply favorite_lookup_ids. Qed.

(** C2. [favoriteVideos] lists, in the order of [favoriteIds], one video of
    the collection for every favorite id that some video of the collection
    has, and nothing for the other ids: the ids of the result are the
    favorite ids filtered by presence in the collection, every video of
    the result is a video of the collection, and the function is total. *)
Theorem favoriteVideos_present (s : AppState) :
  map id (favoriteVideos s)
  = List.filter (includes (map id (videos s))) (favoriteIds s)
  /\ (forall v, v ∈ favoriteVideos s -> v ∈ videos s)
  /\ (forall v, v ∈ favoriteVideos s ->
        id v ∈ map id (videos s) /\ id v ∈ favoriteIds s)
  /\ (forall i, i ∈ favoriteIds s -> i ∉ map id (videos s) ->
        i ∉ map id (favoriteVideos s)).
Proof.
  pose proof (favorite_lookup_ids (videos s) (favoriteIds s)) as Hids.
  pose proof (favorite_lookup_elem_of (videos s) (favoriteIds s)) as Hmem.
  simpl in Hids, Hmem. unfold favoriteVideos. split_and!.
  - done.
  - intros v Hv. by apply Hmem.
  - intros v Hv. destruct (Hmem v Hv). split; [| done].
    by apply list_elem_of_fmap_2.
  - intros i Hi Habs. rewrite Hids, filter_elem_of.
    apply includes_false in Habs. rewrite Habs. intros [_ [=]].
Qed.

(** ** The resolver *)

Module RegexFacts.
Import Regex.

Lemma star_greedy_sound {T} p s (k : list N -> option T) x :
  star_greedy p s k = Some x ->
  exists w s', s = w ++ s' /\ forallb p w = true /\ k s' = Some x.
Proof.
  induction s as [| u s IH]; simpl; intros H.
  - by exists [], [].
  - destruct (p u) eqn:Hp; [| by exists [], (u :: s)].
    destruct (star_greedy p s k) as [y |] eqn:Hs.
    + injection H as ->. destruct (IH eq_refl) as (w & s' & -> & Hw & Hk).
      exists (u :: w), s'. simpl. by rewrite Hp, Hw.
    + by exists [], (u :: s).
Qed.

Lemma star_lazy_sound {T} p s (k : list N -> option T) x :
  star_lazy p s k = Some x ->
  exists w s', s = w ++ s' /\ forallb p w = true /\ k s' = Some x.
Proof.
  induction s as [| u s IH]; simpl; intros H.
  - destruct (k []) eqn:Hk; [injection H as -> | done]. by exists [], [].
  - destruct (k (u :: s)) eqn:Hk; [injection H as ->; by exists [], (u :: s) |].
    destruct (p u) eqn:Hp; [| done].
    destruct (IH H) as (w & s' & -> & Hw & Hk').
    exists (u :: w), s'. simpl. by rewrite Hp, Hw.
Qed.

(** Whatever the matcher answers is the answer of its continuation after
    a word of the pattern. *)
Lemma rmatch_sound {T} r : forall s c (k : cont) (x : T),
  rmatch r s c k = Some x ->
  exists w s' c', s = w ++ s' /\ derives r w c c' /\ k s' c' = Some x.
Proof.
  induction r as [| p | r1 IH1 r2 IH2 | r1 IH1 r2 IH2 | p | p | r IH];
    intros s c k x H; simpl in H.
  - exists [], s, c. split_and!; [done | constructor | done].
  - destruct s as [| u s]; [done |]. destruct (p u) eqn:Hp; [| done].
    exists [u], s, c. split_and!; [done | by constructor | done].
  - apply IH1 in H as (w1 & s1 & c1 & -> & H1 & H).
    apply IH2 in H as (w2 & s2 & c2 & -> & H2 & H).
    exists (w1 ++ w2), s2, c2. rewrite <- app_assoc.
    split_and!; [done | by econstructor | done].
  - destruct (rmatch r1 s c k) as [y |] eqn:Hl.
    + injection H as ->. apply IH1 in Hl as (w & s' & c' & -> & Hd & Hk).
      exists w, s', c'. split_and!; [done | by apply derives_Alt_l | done].
    + apply IH2 in H as (w & s' & c' & -> & Hd & Hk).
      exists w, s', c'. split_and!; [done | by apply derives_Alt_r | done].
  - destruct s as [| u s]; [done |]. destruct (p u) eqn:Hp; [| done].
    apply star_greedy_sound in H as (w & s' & -> & Hw & Hk).
    exists (u :: w), s', c. split_and!; [done | by constructor | done].
  - apply star_lazy_sound in H as (w & s' & -> & Hw & Hk).
    exists w, s', c. split_and!; [done | by constructor | done].
  - apply IH in H as (w & s' & c' & -> & Hd & Hk).
    exists w, s', (Some w). split_and!; [done | by econstructor |].
    rewrite length_app, Nat.add_sub in Hk.
    by rewrite firstn_app, Nat.sub_diag, firstn_all, firstn_O, app_nil_r in Hk.
Qed.

Lemma exec_sound r s cap :
  exec r s = Some cap ->
  exists pre w post, s = pre ++ w ++ post /\ derives r w None cap.
Proof.
  induction s as [| u s IH]; simpl.
  - destruct (rmatch r [] None _) as [c |] eqn:Hm; [| done].
    intros [= ->]. apply rmatch_sound in Hm as (w & s' & c' & Hs & Hd & [= ->]).
    by exists [], w, s'.
  - destruct (rmatch r (u :: s) None _) as [c |] eqn:Hm.
    + intros [= ->].
      apply rmatch_sound in Hm as (w & s' & c' & Hs & Hd & [= ->]).
      by exists [], w, s'.
    + intros (pre & w & post & -> & Hd)%IH. by exists (u :: pre), w, post.
Qed.

Lemma derives_Rep_Chr n p w c c' :
  derives (Rep n (Chr p)) w c c' ->
  length w = n /\ forallb p w = true /\ c' = c.
Proof.
  revert w c c'. induction n as [| n IH]; simpl; intros w c c' H.
  - by inversion H.
  - inversion H as [| | r1 r2 w1 w2 c0 c1 c2 H1 H2 | | | | |]; subst.
    inversion H1; subst. apply IH in H2 as (<- & Hw & ->). simpl.
    split_and!; [done | | done]. by apply andb_true_iff.
Qed.

(** Group 1 of a match of the pattern is eleven characters of the class
    [[a-zA-Z0-9_-]]. *)
Lemma youtube_capture w cap :
  derives youtube w None cap ->
  exists us, cap = Some us /\ length us = 11 /\ forallb idchar us = true.
Proof.
  unfold youtube. intros H.
  inversion H as [| | ? ? ? ? ? ? ? _ H1 | | | | |]; subst.
  inversion H1 as [| | ? ? ? ? ? ? ? _ H2 | | | | |]; subst.
  inversion H2 as [| | ? ? ? ? ? ? ? _ H3 | | | | |]; subst.
  inversion H3 as [| | | | | | | ? us ? ? H4]; subst.
  apply (derives_Rep_Chr 11 idchar) in H4 as (Hl & Hf & _). eauto.
Qed.

End RegexFacts.

Lemma of_ascii_units_length (us : list N) :
  String.length (Utf16.of_ascii_units us) = length us.
Proof.
  unfold Utf16.of_ascii_units. induction us as [| u us IH]; simpl; [done |].
  by rewrite IH.
Qed.

(** What [extractVideoId] returns is eleven characters long. *)
Lemma extractVideoId_length (url i : string) :
  extractVideoId url = Some i -> String.length i = 11.
Proof.
  unfold extractVideoId.
  destruct (Regex.exec _ _) as [[us |] |] eqn:He; [| done | done].
  intros [= <-]. apply RegexFacts.exec_sound in He as (pre & w & post & _ & Hd).
  apply RegexFacts.youtube_capture in Hd as (us' & [= <-] & Hl & _).
  by rewrite of_ascii_units_length.
Qed.

Lemma extractVideoId_nonempty (url i : string) :
  extractVideoId url = Some i -> exists c i', i = String c i'.
Proof.
  intros H%extractVideoId_length. destruct i as [| c i']; [done |]. eauto.
Qed.

(** ** The metadata fetcher *)

Lemma fetchOne_id (net : Network) (i : string) (v : Video) :
  fetchOne net i = Returned v -> id v = i.
Proof.
  unfold fetchOne. destruct (net i) as [m | | [] t u]; intros [= <-]; done.
Qed.

Lemma Promise_all_Returned {A : Type} (ps : list (Outcome A)) (l : list A) :
  Promise_all ps = Returned l <-> ps = map Returned l.
Proof.
  revert l. induction ps as [| [a | m] ps IH]; intros l; simpl.
  - destruct l; simpl; split; intros H; congruence.
  - destruct (Promise_all ps) as [l' |] eqn:Hp.
    + split.
      * intros [= <-]. simpl. f_equal. by apply IH.
      * destruct l as [| b l]; simpl; intros [= -> H]. apply IH in H.
        congruence.
    + split; [done |]. destruct l as [| b l]; simpl; intros [= -> H].
      apply IH in H. congruence.
  - split; [done |]. destruct l; simpl; congruence.
Qed.

Lemma Promise_all_Thrown {A : Type} (ps : list (Outcome A)) (m : string) :
  Promise_all ps = Thrown m -> Thrown m ∈ ps.
Proof.
  induction ps as [| [a | m'] ps IH]; simpl; [done | |].
  - destruct (Promise_all ps); [done |]. intros [= ->]. right. by apply IH.
  - intros [= ->]. left.
Qed.

Lemma fetchVideoDetails_rejected (net : Network) (ids : list string) :
  existsb (rejects net) ids = true ->
  fetchVideoDetails net ids = map defaultData ids.
Proof.
  intros (i & Hi & Hr)%existsb_exists. unfold fetchVideoDetails.
  destruct (Promise_all _) as [vs | m] eqn:Hp; [| done].
  apply Promise_all_Returned in Hp. exfalso.
  apply list_elem_of_In, list_elem_of_lookup in Hi as [n Hn].
  apply (f_equal (fun l => l !! n)) in Hp.
  rewrite !list_lookup_fmap, Hn in Hp. simpl in Hp.
  unfold rejects in Hr. unfold fetchOne in Hp.
  destruct (net i); [| done | done]. by destruct (vs !! n).
Qed.

Lemma fetchVideoDetails_settled (net : Network) (ids : list string) :
  existsb (rejects net) ids = false ->
  map Returned (fetchVideoDetails net ids) = map (fetchOne net) ids.
Proof.
  intros Hr. unfold fetchVideoDetails.
  destruct (Promise_all _) as [vs | m] eqn:Hp.
  - by apply Promise_all_Returned in Hp.
  - apply Promise_all_Thrown, list_elem_of_fmap in Hp as (i & Hi & Hin).
    exfalso. assert (existsb (rejects net) ids = true); [| congruence].
    apply existsb_exists. exists i. split; [by apply list_elem_of_In |].
    unfold rejects. unfold fetchOne in Hi.
    destruct (net i) as [| | []]; done.
Qed.

Lemma fetchVideoDetails_ids (net : Network) (ids : list string) :
  map id (fetchVideoDetails net ids) = ids.
Proof.
  destruct (existsb (rejects net) ids) eqn:Hr.
  - rewrite fetchVideoDetails_rejected by done.
    rewrite map_map. simpl. apply map_id.
  - apply fetchVideoDetails_settled in Hr.
    revert Hr. generalize (fetchVideoDetails net ids).
    induction ids as [| i ids IH]; intros [| v vs]; simpl; try done.
    intros [= Hv Hvs]. symmetry in Hv. apply fetchOne_id in Hv.
    f_equal; [done | by apply IH].
Qed.

Lemma fetchVideoDetails_single (net : Network) (i : string) :
  exists v, fetchVideoDetails net [i] = [v] /\ id v = i.
Proof.
  pose proof (fetchVideoDetails_ids net [i]) as H.
  destruct (fetchVideoDetails net [i]) as [| v [| w l]]; try done.
  injection H as H. by exists v.
Qed.

(** C6, as it is stated, fails: one rejected lookup replaces every entry
    by the fallback, also the entry of an id whose lookup succeeded. *)
Lemma fetchVideoDetails_rejection_spoils_all :
  let net : Network := fun i =>
    if String.eqb i "RjGv7Sa4YQo" then Rejected "Failed to fetch"
    else Payload false (Some "Signalize!") (Some "https://i.ytimg.com/vi/tsKd6HdXvso/hqdefault.jpg") in
  fetchOne net "tsKd6HdXvso"
  = Returned {| id := "tsKd6HdXvso"; title := "Signalize!";
                thumbnailUrl := "https://i.ytimg.com/vi/tsKd6HdXvso/hqdefault.jpg" |}
  /\ fetchVideoDetails net ["tsKd6HdXvso"; "RjGv7Sa4YQo"]
     = [ {| id := "tsKd6HdXvso"; title := "動画 (ID: tsKd6HdXvso)";
            thumbnailUrl := "https://i.ytimg.com/vi/tsKd6HdXvso/mqdefault.jpg" |};
         {| id := "RjGv7Sa4YQo"; title := "動画 (ID: RjGv7Sa4YQo)";
            thumbnailUrl := "https://i.ytimg.com/vi/RjGv7Sa4YQo/mqdefault.jpg" |} ]
  /\ fetchVideoDetails net ["tsKd6HdXvso"; "RjGv7Sa4YQo"] !! 0
     <> Some {| id := "tsKd6HdXvso"; title := "Signalize!";
                thumbnailUrl := "https://i.ytimg.com/vi/tsKd6HdXvso/hqdefault.jpg" |}.
Proof. split_and!; [reflexivity | reflexivity | discriminate]. Qed.

(** C6, amended. [fetchVideoDetails] returns one video per id, in the
    order of the ids and with those ids, and never throws. When no lookup
    is rejected, each id gets its own entry: the fallback for a response
    that is not ok or carries an error, the fetched metadata otherwise.
    When some lookup is rejected, every entry is the fallback. *)
Theorem fetchVideoDetails_fallback (net : Network) (ids : list string) :
  length (fetchVideoDetails net ids) = length ids
  /\ map id (fetchVideoDetails net ids) = ids
  /\ (existsb (rejects net) ids = true ->
        fetchVideoDetails net ids = map defaultData ids)
  /\ (existsb (rejects net) ids = false ->
        forall n i, ids !! n = Some i ->
          match net i with
          | Rejected _ => False
          | NotOk | Payload true _ _ =>
            fetchVideoDetails net ids !! n = Some (defaultData i)
          | Payload false t u =>
            fetchVideoDetails net ids !! n = Some (fetched i t u)
          end).
Proof.
  split_and!.
  - rewrite <- (fetchVideoDetails_ids net ids) at 2. by rewrite length_map.
  - apply fetchVideoDetails_ids.
  - apply fetchVideoDetails_rejected.
  - intros Hr n i Hn. apply fetchVideoDetails_settled in Hr.
    apply (f_equal (fun l => l !! n)) in Hr.
    rewrite !list_lookup_fmap, Hn in Hr. simpl in Hr. unfold fetchOne in Hr.
    destruct (fetchVideoDetails net ids !! n) as [v |]; [| done].
    simpl in Hr. destruct (net i) as [m | | [] t u]; try done;
      by injection Hr as ->.
Qed.

(** ** Adding a video *)

Lemma has_id_true (vs : list Video) (i : string) :
  existsb (fun v => String.eqb (id v) i) vs = true <-> i ∈ map id vs.
Proof.
  rewrite existsb_exists, list_elem_of_fmap. split.
  - intros (v & Hv & He). apply String.eqb_eq in He.
    exists v. by rewrite <- list_elem_of_In in Hv.
  - intros (v & -> & Hv). exists v. rewrite <- list_elem_of_In.
    split; [done | apply String.eqb_refl].
Qed.

Lemma has_id_false (vs : list Video) (i : string) :
  existsb (fun v => String.eqb (id v) i) vs = false <-> i ∉ map id vs.
Proof.
  rewrite <- has_id_true. destruct (existsb _ vs); intuition congruence.
Qed.

Lemma handleAddVideo_unresolved
      (seen : string) (net : Network) (url : string) (s : AppState) :
  extractVideoId url = None ->
  handleAddVideo seen net url s = (Thrown "無効なYouTube URLです。", s).
Proof. intros H. unfold handleAddVideo. by rewrite H. Qed.

Lemma handleAddVideo_present
      (seen : string) (net : Network) (url i : string) (s : AppState) :
  extractVideoId url = Some i -> i ∈ map id (videos s) ->
  handleAddVideo seen net url s = (Returned tt, selectVideoFromModal seen i s).
Proof.
  intros He Hi. unfold handleAddVideo. rewrite He.
  destruct (extractVideoId_nonempty _ _ He) as (c & i' & ->).
  apply has_id_true in Hi. by rewrite Hi.
Qed.

Lemma handleAddVideo_absent
      (seen : string) (net : Network) (url i : string) (s : AppState) :
  extractVideoId url = Some i -> i ∉ map id (videos s) ->
  exists v, fetchVideoDetails net [i] = [v] /\ id v = i
            /\ handleAddVideo seen net url s
               = (Returned tt,
                  selectVideoFromModal seen i
                    (setVideos (fun prevVideos => v :: prevVideos) s)).
Proof.
  intros He Hi. destruct (fetchVideoDetails_single net i) as (v & Hf & Hv).
  exists v. split_and!; [done | done |].
  unfold handleAddVideo. rewrite He.
  destruct (extractVideoId_nonempty _ _ He) as (c & i' & ->).
  apply has_id_false in Hi. rewrite Hi.
  unfold addVideoSettle, try_catch. by rewrite Hf.
Qed.

(** A selection through the closure of a render changes [videoId] only:
    to [i] when the render saw another [videoId], not at all when it saw
    [i]. *)
Lemma selectNewVideo_spec (seen i : string) (s : AppState) :
  videos (selectNewVideo seen i s) = videos s
  /\ favoriteIds (selectNewVideo seen i s) = favoriteIds s
  /\ (seen <> i -> videoId (selectNewVideo seen i s) = i)
  /\ (seen = i -> videoId (selectNewVideo seen i s) = videoId s).
Proof.
  unfold selectNewVideo.
  destruct (String.eqb_spec seen i); simpl; split_and!; done.
Qed.

Lemma videoId_selectNew (x : string) (s : AppState) :
  videoId (handleSelectNewVideo x s) = x
  /\ videos (handleSelectNewVideo x s) = videos s.
Proof.
  unfold handleSelectNewVideo, selectNewVideo.
  destruct (String.eqb_spec (videoId s) x); simpl; done.
Qed.

Lemma videos_select (seen i : string) (s : AppState) :
  videos (selectVideoFromModal seen i s) = videos s.
Proof. unfold selectVideoFromModal. simpl. apply selectNewVideo_spec. Qed.

Lemma videoId_select (seen i : string) (s : AppState) :
  (seen <> i -> videoId (selectVideoFromModal seen i s) = i)
  /\ (seen = i -> videoId (selectVideoFromModal seen i s) = videoId s).
Proof.
  unfold selectVideoFromModal. simpl.
  split; intros H; by apply selectNewVideo_spec.
Qed.

Lemma favoriteIds_select (seen i : string) (s : AppState) :
  favoriteIds (selectVideoFromModal seen i s) = favoriteIds s.
Proof. unfold selectVideoFromModal. simpl. apply selectNewVideo_spec. Qed.

(** Two calls of [handleAddVideo] that do not overlap any other change of
    the collection, one after the other, with a text that resolves to [i],
    on a collection without duplicate ids, whatever renders [seen1] and
    [seen2] the memoized handler comes from. Both calls return. The first
    one, when [i] is in the collection, does what the selection handler
    does and inserts nothing; when it is not, it prepends the one fetched
    video of [i] and then does what the selection handler does. The second
    one only does what the selection handler does. The collection then
    holds exactly one entry of [i] and no duplicate. The selection handler
    sets [videoId] to [i] unless its render saw [i] as [videoId]; it does
    so in particular when its render is the one of the current state. *)
Theorem addVideo_twice
        (seen1 seen2 : string) (net1 net2 : Network) (url i : string)
        (s : AppState) :
  extractVideoId url = Some i ->
  NoDup (map id (videos s)) ->
  let r1 := handleAddVideo seen1 net1 url s in
  let r2 := handleAddVideo seen2 net2 url r1.2 in
  r1.1 = Returned tt /\ r2.1 = Returned tt
  /\ (i ∈ map id (videos s) -> r1.2 = selectVideoFromModal seen1 i s)
  /\ (i ∉ map id (videos s) ->
        exists v, fetchVideoDetails net1 [i] = [v] /\ id v = i
                  /\ r1.2 = selectVideoFromModal seen1 i
                              (setVideos (fun prevVideos => v :: prevVideos) s)
                  /\ videos r1.2 = v :: videos s)
  /\ (seen1 <> i -> videoId r1.2 = i)
  /\ (seen1 = videoId s -> videoId r1.2 = i)
  /\ r2.2 = selectVideoFromModal seen2 i r1.2
  /\ videos r2.2 = videos r1.2
  /\ (seen2 <> i -> videoId r2.2 = i)
  /\ (seen2 = videoId r1.2 -> videoId r2.2 = i)
  /\ count_occ string_dec (map id (videos r2.2)) i = 1
  /\ NoDup (map id (videos r2.2)).
Proof.
  intros He Hnd r1 r2.
  assert (Hsel : forall seen s0,
             (seen <> i -> videoId (selectVideoFromModal seen i s0) = i)
             /\ (seen = videoId s0 ->
                 videoId (selectVideoFromModal seen i s0) = i)).
  { intros seen s0. destruct (videoId_select seen i s0) as [Hne Heq].
    split; [done |]. intros ->.
    destruct (decide (videoId s0 = i)) as [Hi | Hi]; [| by apply Hne].
    by rewrite Heq. }
  assert (H1 : r1.1 = Returned tt
               /\ i ∈ map id (videos r1.2) /\ NoDup (map id (videos r1.2))
               /\ (i ∈ map id (videos s) -> r1.2 = selectVideoFromModal seen1 i s)
               /\ (i ∉ map id (videos s) ->
                   exists v, fetchVideoDetails net1 [i] = [v] /\ id v = i
                     /\ r1.2 = selectVideoFromModal seen1 i
                                 (setVideos (fun prevVideos => v :: prevVideos) s)
                     /\ videos r1.2 = v :: videos s)
               /\ (seen1 <> i -> videoId r1.2 = i)
               /\ (seen1 = videoId s -> videoId r1.2 = i)).
  { subst r1. destruct (decide (i ∈ map id (videos s))) as [Hin | Hout].
    - rewrite (handleAddVideo_present _ _ _ _ _ He Hin). cbn [fst snd].
      rewrite videos_select. split_and!; try done; apply Hsel.
    - destruct (handleAddVideo_absent seen1 net1 _ _ _ He Hout)
        as (v & Hf & Hv & ->).
      cbn [fst snd]. rewrite videos_select. simpl.
      split_and!; [done | | | done | | |].
      + rewrite Hv. left.
      + rewrite Hv. by constructor.
      + intros _. by exists v.
      + apply Hsel.
      + apply (Hsel seen1 (setVideos _ s)). }
  destruct H1 as (Ho1 & Hin1 & Hnd1 & Hp & Ha & Hs1 & Hs1').
  assert (H2 : handleAddVideo seen2 net2 url r1.2
               = (Returned tt, selectVideoFromModal seen2 i r1.2))
    by by apply handleAddVideo_present.
  subst r2. rewrite H2. cbn [fst snd]. rewrite videos_select.
  split_and!; try done; try apply Hsel.
  apply NoDup_count_occ'; [by apply NoDup_ListNoDup | by apply list_elem_of_In].
Qed.

Lemma addVideo_twice_witness :
  let s := {| videos := [defaultData "tsKd6HdXvso"]; isLoading := false;
              videoId := "tsKd6HdXvso"; isModalOpen := true;
              favoriteIds := [] |} in
  let url := "https://youtu.be/abcdefghijk" in
  let r1 := handleAddVideo "tsKd6HdXvso" (fun _ => NotOk) url s in
  let r2 := handleAddVideo "abcdefghijk" (fun _ => NotOk) url r1.2 in
  extractVideoId url = Some "abcdefghijk"
  /\ NoDup (map id (videos s))
  /\ map id (videos r2.2) = ["abcdefghijk"; "tsKd6HdXvso"]
  /\ videoId r2.2 = "abcdefghijk"
  /\ count_occ string_dec (map id (videos r2.2)) "abcdefghijk" = 1.
Proof.
  intros s url r1 r2.
  assert (He : extractVideoId url = Some "abcdefghijk")
    by (vm_compute; reflexivity).
  assert (Hnd : NoDup (map id (videos s))) by apply NoDup_singleton.
  split_and!;
    [exact He | exact Hnd | vm_compute; reflexivity | vm_compute; reflexivity |].
  pose proof (addVideo_twice "tsKd6HdXvso" "abcdefghijk"
                (fun _ => NotOk) (fun _ => NotOk) url _ s He Hnd) as H.
  cbv zeta in H.
  destruct H as (_ & _ & _ & _ & _ & _ & _ & _ & _ & _ & Hc & _).
  exact Hc.
Defined.

(** C7. A call of [handleAddVideo] with a text that does not resolve throws
    the error of an invalid URL and leaves the whole state as it was; and
    whenever a call throws, the state is the one before the call and the
    text did not resolve. *)
Theorem addVideo_failure_atomic
        (seen : string) (net : Network) (url : string) (s : AppState) :
  (extractVideoId url = None ->
     handleAddVideo seen net url s = (Thrown "無効なYouTube URLです。", s))
  /\ (forall m s', handleAddVideo seen net url s = (Thrown m, s') ->
        s' = s /\ extractVideoId url = None /\ m = "無効なYouTube URLです。").
Proof.
  split; [apply handleAddVideo_unresolved |].
  intros m s' H. destruct (extractVideoId url) as [i |] eqn:He.
  - exfalso. destruct (decide (i ∈ map id (videos s))) as [Hin | Hout].
    + by rewrite (handleAddVideo_present _ _ _ _ _ He Hin) in H.
    + destruct (handleAddVideo_absent seen net _ _ _ He Hout)
        as (v & _ & _ & Hr).
      by rewrite Hr in H.
  - rewrite (handleAddVideo_unresolved _ _ _ _ He) in H.
    injection H as <- <-. done.
Qed.

(** ** Resetting the user videos *)

Section Reset.
Variable initialVideoIds : list string.

Lemma isSeed_true (v : Video) : isSeed initialVideoIds v = true <-> id v ∈ initialVideoIds.
Proof.
  unfold isSeed. rewrite bool_decide_eq_true. apply elem_of_list_to_set.
Qed.

Lemma videos_reset (r : Q) (s : AppState) :
  videos (handleResetUserVideos initialVideoIds r s)
  = List.filter (isSeed initialVideoIds) (videos s).
Proof.
  unfold handleResetUserVideos.
  destruct (negb _); [destruct (0 <? _) |]; reflexivity.
Qed.

Lemma favoriteIds_reset (r : Q) (s : AppState) :
  favoriteIds (handleResetUserVideos initialVideoIds r s) = favoriteIds s.
Proof.
  unfold handleResetUserVideos.
  destruct (negb _); [destruct (0 <? _) |]; reflexivity.
Qed.

Lemma videoId_reset_kept (r : Q) (s : AppState) :
  videoId s ∈ initialVideoIds ->
  videoId (handleResetUserVideos initialVideoIds r s) = videoId s.
Proof.
  intros H. unfold handleResetUserVideos.
  apply includes_true in H. by rewrite H.
Qed.

Lemma videoId_reset_repaired (r : Q) (s : AppState) :
  videoId s ∉ initialVideoIds ->
  videoId (handleResetUserVideos initialVideoIds r s)
  = if 0 <? length initialVideoIds
    then at_index "" initialVideoIds (randomIndex r (length initialVideoIds))
    else "".
Proof.
  intros H. unfold handleResetUserVideos.
  apply includes_false in H. rewrite H. simpl. by destruct (0 <? _).
Qed.

Lemma videoId_reset (r : Q) (s : AppState) :
  unit_interval r ->
  let s' := handleResetUserVideos initialVideoIds r s in
  (initialVideoIds = [] /\ videoId s' = "")
  \/ (initialVideoIds <> [] /\ videoId s' ∈ initialVideoIds).
Proof.
  intros Hr s'. subst s'.
  destruct (decide (videoId s ∈ initialVideoIds)) as [Hin | Hout].
  - right. rewrite videoId_reset_kept by done. split; [| done].
    intros ->. by apply elem_of_nil in Hin.
  - rewrite videoId_reset_repaired by done.
    destruct initialVideoIds as [| i0 l] eqn:Hl; [by left |].
    right. split; [done |]. change (0 <? length (i0 :: l)) with true.
    cbv iota. apply at_index_elem_of, randomIndex_lt; [done | simpl; lia].
Qed.

Lemma filter_filter_bool {A : Type} (f : A -> bool) (l : list A) :
  List.filter f (List.filter f l) = List.filter f l.
Proof.
  induction l as [| x l IH]; simpl; [done |].
  destruct (f x) eqn:Hx; simpl; [| done]. by rewrite Hx, IH.
Qed.

End Reset.

(** C3. After [handleResetUserVideos], for a value [r] of [Math.random()]
    (a double in [[0, 1)]): [videoId] is one of the seed ids, or the empty
    string when there is no seed id; a selection that was not a seed id is
    replaced by the seed id at the index [Math.floor(r * length)], the
    product being rounded to a double before its whole part is taken; and
    [videoId] is not the id of a video the filter removed. *)
Theorem resetUserVideos_selection
        (initialVideoIds : list string) (r : Q) (s : AppState) :
  unit_interval r ->
  let s' := handleResetUserVideos initialVideoIds r s in
  (initialVideoIds <> [] -> videoId s' ∈ initialVideoIds)
  /\ (initialVideoIds = [] -> videoId s' = "")
  /\ (videoId s ∉ initialVideoIds -> initialVideoIds <> [] ->
        videoId s'
        = at_index "" initialVideoIds (randomIndex r (length initialVideoIds))
        /\ videoId s' <> videoId s)
  /\ (forall v, v ∈ videos s -> v ∉ videos s' -> id v <> "" ->
        videoId s' <> id v).
Proof.
  intros Hr s'. pose proof (videoId_reset initialVideoIds r s Hr) as Hsel.
  simpl in Hsel. fold s' in Hsel. split_and!.
  - intros Hne. by destruct Hsel as [[? _] | [_ ?]].
  - intros He. destruct Hsel as [[_ ?] | [? _]]; done.
  - intros Hout Hne. subst s'. rewrite videoId_reset_repaired in * by done.
    destruct initialVideoIds as [| i0 l]; [done |].
    change (0 <? length (i0 :: l)) with true in *. cbv iota in *.
    split; [done |]. intros Heq. destruct Hsel as [[? _] | [_ Hin]]; [done |].
    rewrite Heq in Hin. done.
  - intros v Hv Hgone Hid Heq. subst s'. rewrite videos_reset in Hgone.
    rewrite filter_elem_of, isSeed_true in Hgone.
    destruct Hsel as [[_ He] | [_ Hin]]; [congruence |].
    rewrite Heq in Hin. tauto.
Qed.

(** The example of the specification: seed ids A, B, C, the collection
    A, B, C, D and the selection D. *)
Lemma resetUserVideos_selection_witness :
  let seeds := ["A"; "B"; "C"] in
  let s := {| videos := [defaultData "A"; defaultData "B"; defaultData "C";
                         defaultData "D"];
              isLoading := false; videoId := "D"; isModalOpen := true;
              favoriteIds := ["D"] |} in
  let s' := handleResetUserVideos seeds (1 # 2)%Q s in
  unit_interval (1 # 2)%Q
  /\ map id (videos s') = ["A"; "B"; "C"]
  /\ videoId s' = "B"
  /\ videoId s' ∈ seeds.
Proof.
  intros seeds s s'.
  assert (Hr : unit_interval (1 # 2)%Q).
  { apply unit_intervalb_true. vm_compute. reflexivity. }
  destruct (resetUserVideos_selection seeds (1 # 2)%Q s Hr) as (Hin & _).
  split_and!; [exact Hr | vm_compute; reflexivity | vm_compute; reflexivity |].
  apply Hin. discriminate.
Defined.

(** C4. Running [handleResetUserVideos] a second time changes nothing: the
    collection is the one after the first run whatever the draws are, and
    when the first draw is in [[0, 1)] the whole state is (so the second
    run picks no new selection). *)
Theorem resetUserVideos_idempotent
        (initialVideoIds : list string) (r1 r2 : Q) (s : AppState) :
  let s1 := handleResetUserVideos initialVideoIds r1 s in
  let s2 := handleResetUserVideos initialVideoIds r2 s1 in
  videos s2 = videos s1
  /\ (unit_interval r1 -> s2 = s1).
Proof.
  intros s1 s2. split.
  - subst s2 s1. rewrite !videos_reset. apply filter_filter_bool.
  - intros Hr. pose proof (videoId_reset initialVideoIds r1 s Hr) as Hsel.
    simpl in Hsel. fold s1 in Hsel.
    assert (Hv : List.filter (isSeed initialVideoIds) (videos s1) = videos s1).
    { subst s1. rewrite videos_reset. apply filter_filter_bool. }
    subst s2. unfold handleResetUserVideos at 1. fold (isSeed initialVideoIds).
    destruct Hsel as [[He Hid] | [Hne Hin]].
    + rewrite He in *. simpl. unfold setVideoId, setVideos. simpl.
      rewrite Hv, <- Hid. by destruct s1.
    + apply includes_true in Hin. rewrite Hin. simpl.
      unfold setVideos. rewrite Hv. by destruct s1.
Qed.

(** C10. [handleResetUserVideos] does not touch [favoriteIds]. The
    favorites view after it shows the favorite ids that are in the
    collection and are seed ids; a favorite id of a removed video is still
    in [favoriteIds], is not in the view, and is in the view again once a
    text that resolves to it is added. *)
Theorem resetUserVideos_keeps_favorites
        (initialVideoIds : list string) (r : Q) (s : AppState) :
  let s' := handleResetUserVideos initialVideoIds r s in
  favoriteIds s' = favoriteIds s
  /\ map id (favoriteVideos s')
     = List.filter (fun i => includes (map id (videos s)) i
                             && includes initialVideoIds i) (favoriteIds s)
  /\ (forall i, i ∈ favoriteIds s -> i ∉ initialVideoIds ->
        i ∈ favoriteIds s' /\ i ∉ map id (favoriteVideos s'))
  /\ (forall seen net url i, extractVideoId url = Some i -> i ∈ favoriteIds s ->
        let s'' := (handleAddVideo seen net url s').2 in
        favoriteIds s'' = favoriteIds s /\ i ∈ map id (favoriteVideos s'')).
Proof.
  intros s'.
  assert (Hfav : favoriteIds s' = favoriteIds s) by apply favoriteIds_reset.
  assert (Hview : map id (favoriteVideos s')
                  = List.filter (fun i => includes (map id (videos s)) i
                                          && includes initialVideoIds i)
                                (favoriteIds s)).
  { rewrite favoriteVideos_ids, Hfav.
    apply filter_ext. intros i. subst s'. rewrite videos_reset.
    apply eq_true_iff_eq. rewrite andb_true_iff, !includes_true.
    rewrite !list_elem_of_fmap. split.
    - intros (v & -> & Hv). apply filter_elem_of in Hv as [Hv Hs].
      apply isSeed_true in Hs. split; [by exists v | done].
    - intros [(v & -> & Hv) Hs]. exists v. split; [done |].
      apply filter_elem_of. split; [done | by apply isSeed_true]. }
  split_and!; [done | done | |].
  - intros i Hi Hout. rewrite Hfav, Hview. split; [done |].
    rewrite filter_elem_of. apply includes_false in Hout. rewrite Hout.
    rewrite andb_false_r. intros [_ [=]].
  - intros seen net url i He Hi s''.
    assert (Hs'' : favoriteIds s'' = favoriteIds s /\ i ∈ map id (videos s'')).
    { subst s''. destruct (decide (i ∈ map id (videos s'))) as [Hin | Hout].
      - rewrite (handleAddVideo_present _ _ _ _ _ He Hin). cbn [fst snd].
        by rewrite favoriteIds_select, videos_select.
      - destruct (handleAddVideo_absent seen net _ _ _ He Hout)
          as (v & _ & Hv & ->).
        cbn [fst snd]. rewrite favoriteIds_select, videos_select. simpl.
        split; [done |]. rewrite Hv. left. }
    destruct Hs'' as [Hf Hin]. split; [done |].
    rewrite favoriteVideos_ids, filter_elem_of, Hf. split; [done | by apply includes_true].
Qed.

(** ** The collection holds no id twice *)

Lemma from_Set_acc_spec (seen xs : list string) :
  NoDup (from_Set_acc seen xs)
  /\ forall x, x ∈ from_Set_acc seen xs <-> x ∈ xs /\ x ∉ seen.
Proof.
  revert seen. induction xs as [| y xs IH]; intros seen; simpl.
  - split; [constructor |]. intros x. rewrite elem_of_nil. tauto.
  - destruct (includes seen y) eqn:Hy.
    + apply includes_true in Hy. destruct (IH seen) as [Hnd Hel].
      split; [done |]. intros x. rewrite Hel, elem_of_cons.
      split; [tauto |]. intros [[-> | Hx] Hs]; tauto.
    + apply includes_false in Hy. destruct (IH (y :: seen)) as [Hnd Hel].
      split.
      * constructor; [| done]. rewrite Hel, elem_of_cons. tauto.
      * intros x. rewrite !elem_of_cons, Hel, elem_of_cons.
        destruct (decide (x = y)) as [-> | Hne]; tauto.
Qed.

Lemma Array_from_Set_NoDup (xs : list string) : NoDup (Array_from_Set xs).
Proof. apply from_Set_acc_spec. Qed.


Lemma NoDup_fmap_filter_bool {A B : Type} (f : A -> B) (p : A -> bool) l :
  NoDup (f <$> l) -> NoDup (f <$> List.filter p l).
Proof.
  induction l as [| x l IH]; csimpl; [done |].
  intros [Hx Hl]%NoDup_cons. destruct (p x); [| by apply IH].
  csimpl. apply NoDup_cons. split; [| by apply IH].
  rewrite list_elem_of_fmap in *. intros (y & Heq & Hy).
  apply Hx. exists y. split; [done |]. by apply filter_elem_of in Hy as [].
Qed.

Lemma NoDup_ids_addVideo
      (seen : string) (net : Network) (url : string) (s : AppState) :
  NoDup (map id (videos s)) ->
  NoDup (map id (videos (handleAddVideo seen net url s).2)).
Proof.
  intros Hnd. destruct (extractVideoId url) as [i |] eqn:He.
  - destruct (decide (i ∈ map id (videos s))) as [Hin | Hout].
    + rewrite (handleAddVideo_present _ _ _ _ _ He Hin). cbn [snd].
      by rewrite videos_select.
    + destruct (handleAddVideo_absent seen net _ _ _ He Hout)
        as (v & _ & Hv & ->).
      cbn [snd]. rewrite videos_select. simpl. rewrite Hv. by constructor.
  - by rewrite (handleAddVideo_unresolved _ _ _ _ He).
Qed.

Lemma handleFeelingLucky_videos fuel rand (s s' : AppState) :
  handleFeelingLucky fuel rand s = Some s' -> videos s' = videos s.
Proof.
  unfold handleFeelingLucky. destruct (_ <=? 1); [by intros [= <-] |].
  destruct (luckyLoop fuel rand 0 s) as [x |]; [| done]. intros [= <-].
  apply videoId_selectNew.
Qed.

Lemma seedVideoIds_NoDup : NoDup seedVideoIds.
Proof. apply Array_from_Set_NoDup. Qed.

(** ** The examples of the specification *)

Example extractVideoId_watch :
  extractVideoId "https://www.youtube.com/watch?v=tsKd6HdXvso&t=42"
  = Some "tsKd6HdXvso".
Proof. vm_compute. reflexivity. Qed.

Example extractVideoId_embed :
  extractVideoId "www.youtube.com/embed/tsKd6HdXvso" = Some "tsKd6HdXvso".
Proof. vm_compute. reflexivity. Qed.

Example seedVideoIds_length :
  length seedLiteral = 314 /\ length seedVideoIds = 313.
Proof. vm_compute. split; reflexivity. Qed.

Example addVideo_not_a_url :
  let s := initialState seedVideoIds (1 # 2)%Q ["tsKd6HdXvso"] in
  handleAddVideo (videoId s) (fun _ => NotOk) "not a url" s
  = (Thrown "無効なYouTube URLです。", s).
Proof. vm_compute. reflexivity. Qed.

(** Two presses of the red button, with a render between them. *)
Example press_red_twice :
  GameControls.effects
    (GameControls.after GameControls.running
       [GameControls.Press GameControls.red; GameControls.Press GameControls.red])
  = [GameControls.Pulse; GameControls.SetInterval 1%positive].
Proof. vm_compute. reflexivity. Qed.

Example release_red_twice :
  let s := GameControls.after GameControls.running
             [GameControls.Press GameControls.red;
              GameControls.Release GameControls.red] in
  GameControls.handleRelease GameControls.red s = s
  /\ GameControls.effects s
     = [GameControls.Pulse; GameControls.SetInterval 1%positive;
        GameControls.ClearInterval 1%positive]
  /\ GameControls.intervals s = ∅.
Proof. vm_compute. split_and!; reflexivity. Qed.

(** ** The control panel *)

Module ControlFacts.
Import GameControls.

Lemma handlePressIn_shown shown c s :
  default false (shown !! c) = true -> handlePressIn shown c s = s.
Proof. intros H. unfold handlePressIn. by rewrite H. Qed.

Lemma handleReleaseIn_hidden shown c s :
  default false (shown !! c) = false -> handleReleaseIn shown c s = s.
Proof. intros H. unfold handleReleaseIn. by rewrite H. Qed.

(** What a press does when its guard lets it pass. *)
Lemma handlePressIn_acts shown c s :
  default false (shown !! c) = false ->
  handlePressIn shown c s
  = {| pressedState := <[c := true]> (pressedState s);
       audioContextRef := audioContextRef s;
       soundIntervalRef := <[c := Some (nextHandle s)]> (soundIntervalRef s);
       intervals := <[nextHandle s := c]>
                      (match handle_of c s with
                       | Some h => delete h (intervals s)
                       | None => intervals s
                       end);
       nextHandle := Pos.succ (nextHandle s);
       effects := effects (playSound
                             (emit (match handle_of c s with
                                    | Some h => [ClearInterval h]
                                    | None => []
                                    end) s))
                  ++ [SetInterval (nextHandle s)] |}.
Proof.
  intros Hp. unfold handlePressIn. rewrite Hp.
  destruct s as [ps a r iv n ef]. unfold handle_of, playSound in *.
  simpl in *. destruct (r !! c) as [[h |] |];
    destruct a as [[] |]; simpl; rewrite ?app_nil_r; reflexivity.
Qed.

(** What a release does when its guard lets it pass. *)
Lemma handleReleaseIn_acts shown c s :
  default false (shown !! c) = true ->
  handleReleaseIn shown c s
  = match handle_of c s with
    | Some h =>
      {| pressedState := <[c := false]> (pressedState s);
         audioContextRef := audioContextRef s;
         soundIntervalRef := <[c := None]> (soundIntervalRef s);
         intervals := delete h (intervals s);
         nextHandle := nextHandle s;
         effects := effects s ++ [ClearInterval h] |}
    | None => setPressedState (fun prevState => <[c := false]> prevState) s
    end.
Proof.
  intros Hp. unfold handleReleaseIn. rewrite Hp.
  destruct s as [ps a r iv n ef]. unfold handle_of in *. simpl in *.
  by destruct (r !! c) as [[h' |] |].
Qed.

Lemma handlePress_pressed c s : pressed c s = true -> handlePress c s = s.
Proof. apply handlePressIn_shown. Qed.

Lemma handleRelease_released c s : pressed c s = false -> handleRelease c s = s.
Proof. apply handleReleaseIn_hidden. Qed.

Lemma handlePress_released c s :
  pressed c s = false -> handle_of c s = None ->
  handlePress c s
  = {| pressedState := <[c := true]> (pressedState s);
       audioContextRef := audioContextRef s;
       soundIntervalRef := <[c := Some (nextHandle s)]> (soundIntervalRef s);
       intervals := <[nextHandle s := c]> (intervals s);
       nextHandle := Pos.succ (nextHandle s);
       effects := effects (playSound s) ++ [SetInterval (nextHandle s)] |}.
Proof.
  intros Hp Hh. unfold handlePress. rewrite handlePressIn_acts by done.
  rewrite Hh. f_equal. f_equal. unfold emit. simpl. rewrite app_nil_r.
  by destruct s.
Qed.

Lemma handleRelease_pressed c s h :
  pressed c s = true -> handle_of c s = Some h ->
  handleRelease c s
  = {| pressedState := <[c := false]> (pressedState s);
       audioContextRef := audioContextRef s;
       soundIntervalRef := <[c := None]> (soundIntervalRef s);
       intervals := delete h (intervals s);
       nextHandle := nextHandle s;
       effects := effects s ++ [ClearInterval h] |}.
Proof.
  intros Hp Hh. unfold handleRelease. rewrite handleReleaseIn_acts by done.
  by rewrite Hh.
Qed.

Lemma playSound_frame s :
  pressedState (playSound s) = pressedState s
  /\ audioContextRef (playSound s) = audioContextRef s
  /\ soundIntervalRef (playSound s) = soundIntervalRef s
  /\ intervals (playSound s) = intervals s
  /\ nextHandle (playSound s) = nextHandle s.
Proof.
  destruct s as [ps a r iv n ef]. unfold playSound. simpl.
  by destruct a as [[] |].
Qed.

Lemma Inv_frame s s' :
  pressedState s' = pressedState s -> is_Some (audioContextRef s') ->
  soundIntervalRef s' = soundIntervalRef s -> intervals s' = intervals s ->
  nextHandle s' = nextHandle s -> Inv s -> Inv s'.
Proof.
  intros Hp Ha Hr Hi Hn [I1 I2 I3 I4].
  split; unfold pressed, handle_of in *; rewrite ?Hp, ?Hr, ?Hi, ?Hn; done.
Qed.

Lemma Inv_mount st : Inv (mount st initial).
Proof.
  split; simpl.
  - intros c. unfold pressed, handle_of. simpl. rewrite lookup_empty.
    split; [by destruct c | by intros [? [=]]].
  - intros h c. unfold handle_of. simpl. by rewrite !lookup_empty.
  - intros h c. by rewrite lookup_empty.
  - by eexists.
Qed.

Lemma Inv_press c s : Inv s -> Inv (handlePress c s).
Proof.
  intros HI. destruct (pressed c s) eqn:Hp;
    [by rewrite handlePress_pressed |].
  pose proof HI as [I1 I2 I3 I4].
  assert (Hh : handle_of c s = None).
  { destruct (handle_of c s) eqn:Hh; [| done].
    assert (pressed c s = true) by (apply I1; by eexists). congruence. }
  rewrite handlePress_released by done.
  split; unfold pressed, handle_of in *; simpl.
  - intros b. destruct (decide (b = c)) as [-> | Hne].
    + rewrite !lookup_insert_eq. simpl. split; [by eexists | done].
    + rewrite !lookup_insert_ne by done. apply I1.
  - intros h b. destruct (decide (h = nextHandle s)) as [-> | Hh'].
    + rewrite lookup_insert_eq. destruct (decide (b = c)) as [-> | Hne].
      * by rewrite lookup_insert_eq.
      * rewrite lookup_insert_ne by done. split; [congruence |].
        intros Hb%I2%I3. lia.
    + rewrite lookup_insert_ne by done. rewrite I2.
      destruct (decide (b = c)) as [-> | Hne].
      * rewrite lookup_insert_eq, Hh. split; [done | congruence].
      * by rewrite lookup_insert_ne.
  - intros h b. destruct (decide (h = nextHandle s)) as [-> | Hh'].
    + lia.
    + rewrite lookup_insert_ne by done. intros ?%I3. lia.
  - done.
Qed.

Lemma Inv_release c s : Inv s -> Inv (handleRelease c s).
Proof.
  intros HI. destruct (pressed c s) eqn:Hp;
    [| by rewrite handleRelease_released].
  pose proof HI as [I1 I2 I3 I4].
  destruct (proj1 (I1 c) Hp) as [h Hh].
  rewrite (handleRelease_pressed c s h) by done.
  split; unfold pressed, handle_of in *; simpl.
  - intros b. destruct (decide (b = c)) as [-> | Hne].
    + rewrite !lookup_insert_eq. simpl. split; [done | by intros [? [=]]].
    + rewrite !lookup_insert_ne by done. apply I1.
  - intros h' b. destruct (decide (h' = h)) as [-> | Hh'].
    + rewrite lookup_delete_eq. split; [done |].
      destruct (decide (b = c)) as [-> | Hne].
      * by rewrite lookup_insert_eq.
      * rewrite lookup_insert_ne by done. intros Hb%I2.
        apply I2 in Hh. congruence.
    + rewrite lookup_delete_ne by done. rewrite I2.
      destruct (decide (b = c)) as [-> | Hne].
      * rewrite lookup_insert_eq, Hh. split; [congruence | done].
      * by rewrite lookup_insert_ne.
  - intros h' b. destruct (decide (h' = h)) as [-> | Hh'].
    + by rewrite lookup_delete_eq.
    + rewrite lookup_delete_ne by done. apply I3.
  - done.
Qed.

Lemma Inv_step e s : Inv s -> Inv (step s e).
Proof.
  intros HI. destruct e as [c | c | h | st]; simpl.
  - by apply Inv_press.
  - by apply Inv_release.
  - destruct (intervals s !! h); [| done].
    destruct (playSound_frame s) as (Hp & Ha & Hr & Hi & Hn).
    apply (Inv_frame s); try done. rewrite Ha. apply HI.
  - apply (Inv_frame s); try done. simpl.
    destruct (inv_audio _ HI) as [a ->]. by eexists.
Qed.

Lemma Inv_after st es : Inv (after st es).
Proof.
  unfold after, run. induction es as [| e es IH] using rev_ind.
  - apply Inv_mount.
  - rewrite fold_left_app. simpl. by apply Inv_step.
Qed.

Lemma timersOf_elem_of c s h :
  h ∈ timersOf c s <-> intervals s !! h = Some c.
Proof.
  unfold timersOf. rewrite list_elem_of_fmap. split.
  - intros ([h' c'] & -> & H). apply filter_elem_of in H as [H Hc].
    apply bool_decide_eq_true in Hc. simpl in *. subst.
    by apply elem_of_map_to_list.
  - intros H. exists (h, c). split; [done |]. apply filter_elem_of.
    split; [by apply elem_of_map_to_list | by apply bool_decide_eq_true].
Qed.

Lemma NoDup_timersOf c s : NoDup (timersOf c s).
Proof. apply NoDup_fmap_filter_bool, NoDup_fst_map_to_list. Qed.

Lemma timersOf_handle c s :
  Inv s ->
  timersOf c s = match handle_of c s with Some h => [h] | None => [] end.
Proof.
  intros [_ I2 _ _]. pose proof (NoDup_timersOf c s) as Hnd.
  assert (Hel : forall h, h ∈ timersOf c s <-> handle_of c s = Some h).
  { intros h. by rewrite timersOf_elem_of. }
  destruct (handle_of c s) as [h |].
  - destruct (timersOf c s) as [| h1 [| h2 l]].
    + exfalso. eapply not_elem_of_nil, Hel. done.
    + f_equal. assert (Some h = Some h1) by (apply Hel; left). congruence.
    + exfalso. assert (Some h = Some h1) by (apply Hel; left).
      assert (Some h = Some h2) by (apply Hel; right; left).
      apply NoDup_cons in Hnd as [Hnd _]. apply Hnd.
      replace h1 with h2 by congruence. left.
  - destruct (timersOf c s) as [| h1 l]; [done |].
    exfalso. assert (None = Some h1) by (apply Hel; left). done.
Qed.

Lemma filter_length_app {A : Type} (f : A -> bool) (l1 l2 : list A) :
  length (List.filter f (l1 ++ l2))
  = length (List.filter f l1) + length (List.filter f l2).
Proof. by rewrite List.filter_app, length_app. Qed.

Lemma playSound_pulses s :
  is_Some (audioContextRef s) -> pulses (playSound s) = pulses s + 1.
Proof.
  intros [a Ha]. unfold playSound, pulses. rewrite Ha.
  destruct a; simpl; by rewrite filter_length_app.
Qed.

Lemma playSound_timersStarted s :
  timersStarted (playSound s) = timersStarted s.
Proof.
  unfold playSound, timersStarted.
  destruct (audioContextRef s) as [[] |]; simpl;
    rewrite ?filter_length_app; simpl; lia.
Qed.

(** ** Handlers of any render *)

Lemma Inv_pressIn shown c s : Inv s -> Inv (handlePressIn shown c s).
Proof.
  intros HI. destruct (default false (shown !! c)) eqn:Hp;
    [by rewrite handlePressIn_shown |].
  pose proof HI as [I1 I2 I3 I4].
  rewrite handlePressIn_acts by done.
  split; unfold pressed; simpl.
  - intros b. unfold handle_of. simpl.
    destruct (decide (b = c)) as [-> | Hne].
    + rewrite !lookup_insert_eq. simpl. split; [by eexists | done].
    + rewrite !lookup_insert_ne by done. apply I1.
  - intros h b.
    assert (Hb : handle_of b
                   {| pressedState := <[c:=true]> (pressedState s);
                      audioContextRef := audioContextRef s;
                      soundIntervalRef :=
                        <[c:=Some (nextHandle s)]> (soundIntervalRef s);
                      intervals := <[nextHandle s:=c]>
                          match handle_of c s with
                          | Some h0 => delete h0 (intervals s)
                          | None => intervals s
                          end;
                      nextHandle := Pos.succ (nextHandle s);
                      effects := effects (playSound
                             (emit (match handle_of c s with
                                    | Some h => [ClearInterval h]
                                    | None => []
                                    end) s))
                        ++ [SetInterval (nextHandle s)] |}
                 = if decide (b = c) then Some (nextHandle s) else handle_of b s).
    { unfold handle_of. simpl. destruct (decide (b = c)) as [-> | Hne].
      - by rewrite lookup_insert_eq.
      - by rewrite lookup_insert_ne. }
    rewrite Hb. clear Hb.
    destruct (decide (h = nextHandle s)) as [-> | Hh'].
    + rewrite lookup_insert_eq. destruct (decide (b = c)) as [-> | Hne].
      * done.
      * split; [congruence |]. intros Hb%I2%I3. lia.
    + rewrite lookup_insert_ne by done.
      destruct (decide (b = c)) as [-> | Hne].
      * split; [| congruence]. intros Hin. exfalso.
        destruct (handle_of c s) as [h0 |] eqn:Hh.
        -- destruct (decide (h = h0)) as [-> | Hd].
           ++ by rewrite lookup_delete_eq in Hin.
           ++ rewrite lookup_delete_ne in Hin by done.
              apply I2 in Hin. congruence.
        -- apply I2 in Hin. congruence.
      * rewrite <- I2. destruct (handle_of c s) as [h0 |] eqn:Hh; [| done].
        destruct (decide (h = h0)) as [-> | Hd].
        -- rewrite lookup_delete_eq. split; [done |].
           intros Hb. apply I2 in Hh. congruence.
        -- by rewrite lookup_delete_ne.
  - intros h b. destruct (decide (h = nextHandle s)) as [-> | Hh'].
    + lia.
    + rewrite lookup_insert_ne by done. intros Hin.
      assert (intervals s !! h = Some b).
      { destruct (handle_of c s) as [h0 |]; [| done].
        by apply lookup_delete_Some in Hin as [_ ?]. }
      assert (h < nextHandle s)%positive by by eapply I3. lia.
  - done.
Qed.

Lemma Inv_releaseIn shown c s : Inv s -> Inv (handleReleaseIn shown c s).
Proof.
  intros HI. destruct (default false (shown !! c)) eqn:Hp;
    [| by rewrite handleReleaseIn_hidden].
  pose proof HI as [I1 I2 I3 I4].
  rewrite handleReleaseIn_acts by done.
  destruct (handle_of c s) as [h |] eqn:Hh.
  - split; unfold pressed, handle_of in *; simpl.
    + intros b. destruct (decide (b = c)) as [-> | Hne].
      * rewrite !lookup_insert_eq. simpl. split; [done | by intros [? [=]]].
      * rewrite !lookup_insert_ne by done. apply I1.
    + intros h' b. destruct (decide (h' = h)) as [-> | Hh'].
      * rewrite lookup_delete_eq. split; [done |].
        destruct (decide (b = c)) as [-> | Hne].
        -- by rewrite lookup_insert_eq.
        -- rewrite lookup_insert_ne by done. intros Hb%I2.
           apply I2 in Hh. congruence.
      * rewrite lookup_delete_ne by done. rewrite I2.
        destruct (decide (b = c)) as [-> | Hne].
        -- rewrite lookup_insert_eq, Hh. split; [congruence | done].
        -- by rewrite lookup_insert_ne.
    + intros h' b. destruct (decide (h' = h)) as [-> | Hh'].
      * by rewrite lookup_delete_eq.
      * rewrite lookup_delete_ne by done. apply I3.
    + done.
  - assert (Hpc : pressed c s = false).
    { destruct (pressed c s) eqn:Hpc; [| done].
      apply I1 in Hpc as [h Hh']. congruence. }
    split; unfold pressed, handle_of in *; simpl; [| done | done | done].
    intros b. destruct (decide (b = c)) as [-> | Hne].
    + rewrite lookup_insert_eq. simpl. rewrite <- I1. by rewrite Hpc.
    + rewrite lookup_insert_ne by done. apply I1.
Qed.

Lemma Inv_panelStep e p : Inv (controls p) -> Inv (controls (panelStep p e)).
Proof.
  intros HI. destruct e as [[c | c | h | st] |]; cbn [panelStep controls].
  - by apply Inv_pressIn.
  - by apply Inv_releaseIn.
  - by apply (Inv_step (Fire h)).
  - by apply (Inv_step (ContextState st)).
  - done.
Qed.

Lemma Inv_panelAfter st es : Inv (controls (panelAfter st es)).
Proof.
  unfold panelAfter. induction es as [| e es IH] using rev_ind.
  - apply Inv_mount.
  - rewrite fold_left_app. simpl. by apply Inv_panelStep.
Qed.

(** When React renders after every event, the panel is the component of
    [after], shown as it is. *)
Lemma panelAfter_rendered st es :
  panelAfter st (flat_map (fun e => [Handled e; Rendered]) es)
  = {| controls := after st es; shown := pressedState (after st es) |}.
Proof.
  unfold panelAfter, after, run. induction es as [| e es IH] using rev_ind.
  - reflexivity.
  - rewrite flat_map_app, !fold_left_app, IH. simpl.
    by destruct e.
Qed.

Lemma pressIn_counts shown c s :
  Inv s -> default false (shown !! c) = false ->
  let s' := handlePressIn shown c s in
  pressed c s' = true
  /\ handle_of c s' = Some (nextHandle s)
  /\ nextHandle s' = Pos.succ (nextHandle s)
  /\ pulses s' = pulses s + 1
  /\ timersStarted s' = timersStarted s + 1
  /\ (forall h, handle_of c s = Some h -> ClearInterval h ∈ effects s').
Proof.
  intros HI Hp s'. subst s'. rewrite handlePressIn_acts by done.
  set (cl := match handle_of c s with
             | Some h => [ClearInterval h]
             | None => []
             end).
  assert (Ha : is_Some (audioContextRef (emit cl s))) by apply HI.
  split_and!.
  - unfold pressed. simpl. by rewrite lookup_insert_eq.
  - unfold handle_of. simpl. by rewrite lookup_insert_eq.
  - done.
  - unfold pulses at 1. simpl. rewrite filter_length_app. simpl.
    pose proof (playSound_pulses _ Ha) as Hs. unfold pulses in *.
    rewrite Hs. simpl. rewrite filter_length_app.
    assert (length (List.filter (fun e => bool_decide (e = Pulse)) cl) = 0)
      by (subst cl; by destruct (handle_of c s)).
    lia.
  - unfold timersStarted at 1. simpl. rewrite filter_length_app. simpl.
    pose proof (playSound_timersStarted (emit cl s)) as Hs.
    unfold timersStarted in *. rewrite Hs. simpl. rewrite filter_length_app.
    assert (length (List.filter is_SetInterval cl) = 0)
      by (subst cl; by destruct (handle_of c s)).
    lia.
  - intros h Hh. simpl. apply elem_of_app. left.
    assert (Hin : ClearInterval h ∈ effects (emit cl s)).
    { simpl. apply elem_of_app. right. subst cl. rewrite Hh. left. }
    revert Hin. generalize (emit cl s). intros s0 Hin. unfold playSound.
    destruct (audioContextRef s0) as [[] |]; simpl; [| | done];
      apply elem_of_app; by left.
Qed.

End ControlFacts.



(** ** Picking a different video *)

Section Lucky.
Variable s : AppState.

Lemma luckyLoop_unfold fuel rand n :
  luckyLoop (S fuel) rand n s
  = if String.eqb (pickedId s (rand n)) (videoId s)
    then luckyLoop fuel rand (S n) s
    else Some (pickedId s (rand n)).
Proof. reflexivity. Qed.


Lemma luckyLoop_Some rand : forall fuel n x,
  luckyLoop fuel rand n s = Some x ->
  x <> videoId s /\ exists j, x = pickedId s (rand j).
Proof.
  induction fuel as [| fuel IH]; intros n x; [done |].
  rewrite luckyLoop_unfold.
  destruct (String.eqb_spec (pickedId s (rand n)) (videoId s)) as [He | Hne].
  - apply IH.
  - intros [= <-]. split; [done | by exists n].
Qed.

Lemma luckyLoop_None rand : forall fuel n,
  luckyLoop fuel rand n s = None
  <-> forall j, j < fuel -> pickedId s (rand (n + j)) = videoId s.
Proof.
  induction fuel as [| fuel IH]; intros n.
  - split; [intros _ j Hj; lia | done].
  - rewrite luckyLoop_unfold.
    destruct (String.eqb_spec (pickedId s (rand n)) (videoId s)) as [He | Hne].
    + rewrite IH. split.
      * intros H [| j] Hj; [by rewrite Nat.add_0_r |].
        replace (n + S j) with (S n + j) by lia. apply H. lia.
      * intros H j Hj. replace (S n + j) with (n + S j) by lia.
        apply H. lia.
    + split; [done |]. intros H. exfalso. apply Hne.
      rewrite <- (Nat.add_0_r n). apply H. lia.
Qed.

Lemma pickedId_elem_of r :
  unit_interval r -> 0 < (length (videos s)) -> pickedId s r ∈ map id (videos s).
Proof.
  intros Hr Hl. unfold pickedId. apply list_elem_of_fmap_2.
  by apply at_index_elem_of, randomIndex_lt.
Qed.

















End Lucky.




(* ================================================================== *)
(** * Further properties of the resolver, the store and the panel       *)
(* ================================================================== *)

Lemma idchar_byte (u : N) : Regex.idchar u = true -> (u < 256)%N.
Proof.
  unfold Regex.idchar, Regex.between, Regex.code. simpl.
  rewrite !orb_true_iff, !andb_true_iff, !N.leb_le, !N.eqb_eq. lia.
Qed.

Lemma of_ascii_units_codes (us : list N) :
  forallb Regex.idchar us = true ->
  map N_of_ascii (list_ascii_of_string (Utf16.of_ascii_units us)) = us.
Proof.
  unfold Utf16.of_ascii_units. rewrite list_ascii_of_string_of_list_ascii.
  induction us as [| u us IH]; simpl; [done |].
  intros [Hu Hus]%andb_true_iff. rewrite IH by done.
  by rewrite N_ascii_embedding by by apply idchar_byte.
Qed.

(** What [extractVideoId] returns is an identifier of eleven characters,
    each a letter, a digit, [-] or [_]. *)
Theorem extractVideoId_identifier (url i : string) :
  extractVideoId url = Some i ->
  String.length i = 11
  /\ forallb Regex.idchar (map N_of_ascii (list_ascii_of_string i)) = true.
Proof.
  intros H. split; [by apply extractVideoId_length in H |].
  unfold extractVideoId in H.
  destruct (Regex.exec _ _) as [[us |] |] eqn:He; [| done | done].
  injection H as <-.
  apply RegexFacts.exec_sound in He as (pre & w & post & _ & Hd).
  apply RegexFacts.youtube_capture in Hd as (us' & [= <-] & _ & Hc).
  by rewrite of_ascii_units_codes.
Qed.

Lemma extractVideoId_identifier_witness :
  extractVideoId "https://www.youtube.com/watch?v=uPVjCDbc-Ow" = Some "uPVjCDbc-Ow"
  /\ String.length "uPVjCDbc-Ow" = 11.
Proof.
  assert (He : extractVideoId "https://www.youtube.com/watch?v=uPVjCDbc-Ow"
               = Some "uPVjCDbc-Ow") by (vm_compute; reflexivity).
  split; [exact He |].
  exact (proj1 (extractVideoId_identifier _ _ He)).
Defined.

(** The examples of the specification for the resolver: the short link
    resolves to its identifier, and a text that is no URL does not
    resolve. *)
Theorem extractVideoId_examples :
  extractVideoId "https://youtu.be/abcdefghijk" = Some "abcdefghijk"
  /\ extractVideoId "not a url" = None.
Proof. split; vm_compute; reflexivity. Qed.

(** Once the seed videos are loaded the collection holds one video per
    seed id, in the order of the seed ids, and the loading flag is off. *)
Theorem loadInitialVideos_seed_order
        (initialVideoIds : list string) (net : Network) (s : AppState) :
  let s' := loadInitialVideos initialVideoIds net s in
  map id (videos s') = initialVideoIds
  /\ isLoading s' = false
  /\ videoId s' = videoId s
  /\ favoriteIds s' = favoriteIds s.
Proof.
  intros s'. subst s'. unfold loadInitialVideos. simpl.
  by rewrite fetchVideoDetails_ids.
Qed.

(** In every state of a session whose seed ids are distinct, no two
    videos of the collection have the same id. Each event of the session
    is one step: a call of [handleAddVideo] runs from its click to the
    completion of its fetch before the next event. *)
Theorem session_ids_distinct (initialVideoIds : list string) (ss : Session) :
  NoDup initialVideoIds -> reachable initialVideoIds ss ->
  NoDup (map id (videos (store ss))).
Proof.
  intros Hseed Hr. induction Hr as [r stored | e ss ss' Hr IH Hstep].
  - constructor.
  - destruct e; simpl in Hstep;
      try (injection Hstep as <-; cbn [store rendered]).
    + simpl. by rewrite fetchVideoDetails_ids.
    + by destruct (videoId_selectNew i (store ss)) as [_ ->].
    + unfold handleSelectVideoFromModal. by rewrite videos_select.
    + done.
    + done.
    + done.
    + by apply NoDup_ids_addVideo.
    + done.
    + rewrite videos_reset. by apply NoDup_fmap_filter_bool.
    + destruct (handleFeelingLucky fuel rand (store ss)) as [s' |] eqn:Hl;
        [| done].
      injection Hstep as <-. cbn [store rendered].
      by rewrite (handleFeelingLucky_videos _ _ _ _ Hl).
Qed.

Lemma session_ids_distinct_witness :
  let seeds := ["tsKd6HdXvso"; "RjGv7Sa4YQo"] in
  let net : Network := fun _ => NotOk in
  let url := "https://youtu.be/abcdefghijk" in
  let ss0 := firstRender seeds (1 # 2)%Q [] in
  let ss1 := rendered true ss0 (loadInitialVideos seeds net (store ss0)) in
  let ss2 := rendered true ss1
               (handleAddVideo (memoVideoId ss1) net url (store ss1)).2 in
  NoDup seeds
  /\ reachable seeds ss2
  /\ map id (videos (store ss2)) = ["abcdefghijk"; "tsKd6HdXvso"; "RjGv7Sa4YQo"]
  /\ NoDup (map id (videos (store ss2))).
Proof.
  intros seeds net url ss0 ss1 ss2.
  assert (Hseeds : NoDup seeds).
  { apply NoDup_ListNoDup. repeat constructor; simpl; intuition discriminate. }
  assert (Hreach : reachable seeds ss2).
  { apply (reachable_step seeds (AddVideo net url) ss1);
      [| vm_compute; reflexivity].
    apply (reachable_step seeds (SeedLoaded net) ss0); [| reflexivity].
    apply reachable_initial. }
  split_and!; [exact Hseeds | exact Hreach | vm_compute; reflexivity |].
  exact (session_ids_distinct seeds ss2 Hseeds Hreach).
Defined.

(** What a call of [handleAddVideo] that resolves to [i] does to the
    selection: it selects [i] when the render the memoized handler comes
    from saw another [videoId], and leaves the selection as it is when
    that render saw [i], whatever is selected by now. *)
Theorem addVideo_selection
        (seen : string) (net : Network) (url i : string) (s : AppState) :
  extractVideoId url = Some i ->
  let s' := (handleAddVideo seen net url s).2 in
  (seen <> i -> videoId s' = i)
  /\ (seen = i -> videoId s' = videoId s).
Proof.
  intros He s'. subst s'.
  destruct (decide (i ∈ map id (videos s))) as [Hin | Hout].
  - rewrite (handleAddVideo_present _ _ _ _ _ He Hin). cbn [snd].
    apply videoId_select.
  - destruct (handleAddVideo_absent seen net _ _ _ He Hout)
      as (v & _ & _ & ->).
    cbn [snd]. apply (videoId_select seen i (setVideos _ s)).
Qed.

(** A session in which the handler is stale: the seed videos are loaded
    with the first seed id selected, the second one is then selected from
    the list, and the URL of the first one is added. *)
Lemma addVideo_selection_witness :
  let seeds := ["tsKd6HdXvso"; "RjGv7Sa4YQo"] in
  let net : Network := fun _ => NotOk in
  let url := "https://youtu.be/tsKd6HdXvso" in
  let ss0 := firstRender seeds (0 # 1)%Q [] in
  let ss1 := rendered true ss0 (loadInitialVideos seeds net (store ss0)) in
  let ss2 := rendered false ss1
               (handleSelectVideoFromModal "RjGv7Sa4YQo" (store ss1)) in
  let s3 := (handleAddVideo (memoVideoId ss2) net url (store ss2)).2 in
  extractVideoId url = Some "tsKd6HdXvso"
  /\ appStep seeds (SelectFromModal "RjGv7Sa4YQo") ss1 = Some ss2
  /\ memoVideoId ss2 = "tsKd6HdXvso"
  /\ videoId (store ss2) = "RjGv7Sa4YQo"
  /\ videoId s3 = "RjGv7Sa4YQo".
Proof.
  intros seeds net url ss0 ss1 ss2 s3.
  assert (He : extractVideoId url = Some "tsKd6HdXvso")
    by (vm_compute; reflexivity).
  split_and!; [exact He | reflexivity | reflexivity | reflexivity |].
  exact (proj2 (addVideo_selection (memoVideoId ss2) net url _ (store ss2) He)
               eq_refl).
Defined.

(** A release of a released button changes nothing: after the events of
    any session of the panel, a second release gives the state of the
    first, the button is not pressed and has no live timer. *)
Theorem release_twice_noop
        (st : GameControls.AudioState) (es : list GameControls.Event)
        (c : GameControls.ButtonColor) :
  let s := GameControls.handleRelease c (GameControls.after st es) in
  GameControls.handleRelease c s = s
  /\ GameControls.pressed c s = false
  /\ GameControls.timersOf c s = []
  /\ GameControls.handle_of c s = None.
Proof.
  intros s.
  assert (HI : GameControls.Inv s)
    by apply ControlFacts.Inv_release, ControlFacts.Inv_after.
  assert (Hp : GameControls.pressed c s = false).
  { subst s. destruct (GameControls.pressed c (GameControls.after st es)) eqn:Hp.
    - pose proof (ControlFacts.Inv_after st es) as HI0.
      destruct (proj1 (GameControls.inv_pressed _ HI0 c) Hp) as [h Hh].
      rewrite (ControlFacts.handleRelease_pressed c _ h) by done.
      unfold GameControls.pressed. simpl. by rewrite lookup_insert_eq.
    - by rewrite ControlFacts.handleRelease_released. }
  assert (Hh : GameControls.handle_of c s = None).
  { destruct (GameControls.handle_of c s) eqn:Hh; [| done].
    assert (GameControls.pressed c s = true)
      by (apply (GameControls.inv_pressed _ HI); by eexists).
    congruence. }
  split_and!; [by apply ControlFacts.handleRelease_released | done | | done].
  rewrite ControlFacts.timersOf_handle by done. by rewrite Hh.
Qed.

(* ================================================================== *)
(** * The resolver on the texts it is made for                         *)
(* ================================================================== *)

Module ResolverFacts.
Import Regex.

Lemma list_ascii_of_string_app (a b : string) :
  list_ascii_of_string (a ++ b)%string
  = list_ascii_of_string a ++ list_ascii_of_string b.
Proof. induction a as [| c a IH]; simpl; [done | by rewrite IH]. Qed.

Lemma decode_ascii_app (a b : list N) :
  Forall (fun u => (u < 128)%N) a ->
  Utf16.decode (a ++ b) = a ++ Utf16.decode b.
Proof.
  induction 1 as [| u a Hu _ IH]; [done |].
  simpl. apply N.ltb_lt in Hu. by rewrite Hu, IH.
Qed.

Lemma utf16_ascii_app (a b : string) :
  Forall (fun u => (u < 128)%N) (codes a) ->
  Utf16.utf16 (a ++ b)%string = codes a ++ Utf16.utf16 b.
Proof.
  intros H. unfold Utf16.utf16. rewrite list_ascii_of_string_app, map_app.
  by apply decode_ascii_app.
Qed.

Lemma utf16_ascii (a : string) :
  Forall (fun u => (u < 128)%N) (codes a) -> Utf16.utf16 a = codes a.
Proof.
  intros H. unfold Utf16.utf16. fold (codes a).
  rewrite <- (app_nil_r (codes a)) at 1.
  rewrite decode_ascii_app by done. apply app_nil_r.
Qed.

Lemma idchar_ascii (u : N) : idchar u = true -> (u < 128)%N.
Proof.
  unfold idchar, between, code. simpl.
  rewrite !orb_true_iff, !andb_true_iff, !N.leb_le, !N.eqb_eq. lia.
Qed.

Lemma idchar_not_slash (u : N) : idchar u = true -> code "/" u = false.
Proof.
  unfold idchar, between, code. simpl.
  rewrite !orb_true_iff, !andb_true_iff, !N.leb_le, !N.eqb_eq, N.eqb_neq. lia.
Qed.

Section Run.
Context {T : Type}.
Implicit Types (k : cont (T := T)) (s : list N) (c : option (list N)).

Lemma rmatch_Seq r1 r2 s c k :
  rmatch (Seq r1 r2) s c k = rmatch r1 s c (fun s' c' => rmatch r2 s' c' k).
Proof. reflexivity. Qed.

Lemma rmatch_Eps s c k : rmatch Eps s c k = k s c.
Proof. reflexivity. Qed.

Lemma rmatch_LazyStar p s c k :
  rmatch (LazyStar p) s c k = star_lazy p s (fun s'' => k s'' c).
Proof. reflexivity. Qed.

Lemma rmatch_Alt_Some r1 r2 s c k x :
  rmatch r1 s c k = Some x -> rmatch (Alt r1 r2) s c k = Some x.
Proof. simpl. by intros ->. Qed.

Lemma rmatch_Alt_None r1 r2 s c k :
  rmatch r1 s c k = None -> rmatch (Alt r1 r2) s c k = rmatch r2 s c k.
Proof. simpl. by intros ->. Qed.

Lemma rmatch_Lit p s c k : rmatch (Lit p) (codes p ++ s) c k = k s c.
Proof.
  revert c k. induction p as [| a p IH]; intros c k; [done |].
  simpl. unfold code at 1, Utf16.byte. rewrite N.eqb_refl. apply IH.
Qed.

Lemma rmatch_Chr p u s c k : p u = true -> rmatch (Chr p) (u :: s) c k = k s c.
Proof. simpl. by intros ->. Qed.

Lemma rmatch_Rep_Chr p : forall n w s c k,
  length w = n -> forallb p w = true ->
  rmatch (Rep n (Chr p)) (w ++ s) c k = k s c.
Proof.
  induction n as [| n IH]; intros [| u w] s c k Hl Hp; try done.
  simpl in *. apply andb_true_iff in Hp as [-> Hp]. apply IH; [lia | done].
Qed.

Lemma rmatch_Group_Rep p n w s c k :
  length w = n -> forallb p w = true ->
  rmatch (Group (Rep n (Chr p))) (w ++ s) c k = k s (Some w).
Proof.
  intros Hl Hp. simpl. rewrite rmatch_Rep_Chr by done.
  rewrite length_app, Nat.add_sub.
  by rewrite firstn_app, Nat.sub_diag, firstn_all, app_nil_r.
Qed.

(** The matcher fails where the pattern has no word to start with. *)
Lemma rmatch_no_word r s c k :
  (forall w s' c', s = w ++ s' -> ~ derives r w c c') -> rmatch r s c k = None.
Proof.
  intros H. destruct (rmatch r s c k) as [x |] eqn:Hm; [| done].
  apply RegexFacts.rmatch_sound in Hm as (w & s' & c' & Hs & Hd & _).
  by destruct (H w s' c' Hs).
Qed.

Lemma star_greedy_none p (q : N -> bool) s (kk : list N -> option T) :
  Forall (fun u => q u = false) s ->
  (forall s', match s' with u :: _ => q u = false | [] => True end ->
              kk s' = None) ->
  star_greedy p s kk = None.
Proof.
  intros Hs Hk. induction Hs as [| u s Hu Hs IH]; simpl; [by apply Hk |].
  rewrite IH. destruct (p u); by apply Hk.
Qed.

Lemma star_greedy_more p pre s (kk : list N -> option T) x :
  forallb p pre = true -> star_greedy p s kk = Some x ->
  star_greedy p (pre ++ s) kk = Some x.
Proof.
  intros Hp Hs. induction pre as [| u pre IH]; simpl in *; [done |].
  apply andb_true_iff in Hp as [-> Hp]. by rewrite IH.
Qed.

Lemma star_greedy_stop p u s (kk : list N -> option T) :
  p u = false -> star_greedy p (u :: s) kk = kk (u :: s).
Proof. simpl. by intros ->. Qed.

Lemma star_greedy_back p u s (kk : list N -> option T) :
  p u = true -> star_greedy p s kk = None ->
  star_greedy p (u :: s) kk = kk (u :: s).
Proof. simpl. by intros -> ->. Qed.

Lemma rmatch_Plus p u s c k :
  p u = true ->
  rmatch (Plus p) (u :: s) c k = star_greedy p s (fun s'' => k s'' c).
Proof. simpl. by intros ->. Qed.

Lemma star_lazy_here p s (kk : list N -> option T) x :
  kk s = Some x -> star_lazy p s kk = Some x.
Proof. destruct s; simpl; by intros ->. Qed.

Lemma star_lazy_next p u s (kk : list N -> option T) :
  kk (u :: s) = None -> p u = true -> star_lazy p (u :: s) kk = star_lazy p s kk.
Proof. simpl. by intros -> ->. Qed.

End Run.

Lemma exec_here r s cap :
  rmatch r s None (fun _ cap => Some cap) = Some cap -> exec r s = Some cap.
Proof. destruct s; simpl; by intros ->. Qed.

(** ** The path alternative [[^\/\n\s]+\/\S+\/] needs two slashes *)

Lemma slashes_app us vs : slashes (us ++ vs) = slashes us + slashes vs.
Proof. unfold slashes. by rewrite List.filter_app, length_app. Qed.

Lemma noSlash_slashes us : noSlash us = true -> slashes us = 0.
Proof.
  unfold noSlash, slashes. induction us as [| u us IH]; simpl; [done |].
  intros [Hu Hus]%andb_true_iff. apply negb_true_iff in Hu. rewrite Hu. auto.
Qed.

Lemma idchars_noSlash w : forallb idchar w = true -> noSlash w = true.
Proof.
  unfold noSlash. rewrite !forallb_forall.
  intros H u Hu. by rewrite idchar_not_slash by by apply H.
Qed.

Lemma derives_Lit_slash w c c' : derives (Lit "/") w c c' -> slashes w = 1.
Proof.
  simpl. intros H.
  inversion H as [| | ? ? ? ? ? ? ? H1 H2 | | | | |]; subst.
  inversion H1 as [| ? u ? Hu | | | | | |]; subst. inversion H2; subst.
  unfold slashes. simpl. by rewrite Hu.
Qed.

Lemma derives_path w c c' : derives path w c c' -> 2 <= slashes w.
Proof.
  unfold path. intros H.
  inversion H as [| | ? ? ? ? ? ? ? _ H1 | | | | |]; subst.
  inversion H1 as [| | ? ? ? ? ? ? ? H2 H3 | | | | |]; subst.
  inversion H3 as [| | ? ? ? ? ? ? ? _ H4 | | | | |]; subst.
  apply derives_Lit_slash in H2, H4. rewrite !slashes_app. lia.
Qed.

Lemma rmatch_path_None {T} s c (k : cont (T := T)) :
  slashes s <= 1 -> rmatch path s c k = None.
Proof.
  intros Hs. apply rmatch_no_word. intros w s' c' -> Hd%derives_path.
  rewrite slashes_app in Hs. lia.
Qed.

Lemma exec_short_link w r :
  length w = 11 -> forallb idchar w = true ->
  exec youtube (codes "https://youtu.be/" ++ w ++ r) = Some (Some w).
Proof.
  intros Hl Hp. apply exec_here.
  change (codes "https://youtu.be/" ++ w ++ r)
    with (codes "http" ++ codes "s" ++ codes "://" ++ codes "youtu.be/" ++ w ++ r).
  unfold youtube, Opt.
  rewrite rmatch_Seq. apply rmatch_Alt_Some.
  rewrite rmatch_Seq, rmatch_Lit, rmatch_Seq. apply rmatch_Alt_Some.
  rewrite !rmatch_Lit.
  rewrite rmatch_Seq, rmatch_Alt_None, rmatch_Eps by reflexivity.
  rewrite rmatch_Seq, rmatch_Alt_None by reflexivity.
  by rewrite rmatch_Lit, rmatch_Group_Rep.
Qed.

Lemma exec_watch w r :
  length w = 11 -> forallb idchar w = true -> noSlash r = true ->
  exec youtube (codes "https://www.youtube.com/watch?v=" ++ w ++ r) = Some (Some w).
Proof.
  intros Hl Hp Hr. apply exec_here.
  change (codes "https://www.youtube.com/watch?v=" ++ w ++ r)
    with (codes "http" ++ codes "s" ++ codes "://" ++ codes "www."
          ++ codes "youtube.com/" ++ codes "watch?v=" ++ w ++ r).
  unfold youtube, Opt.
  rewrite rmatch_Seq. apply rmatch_Alt_Some.
  rewrite rmatch_Seq, rmatch_Lit, rmatch_Seq. apply rmatch_Alt_Some.
  rewrite !rmatch_Lit.
  rewrite rmatch_Seq. apply rmatch_Alt_Some. rewrite rmatch_Lit.
  rewrite rmatch_Seq. apply rmatch_Alt_Some.
  rewrite rmatch_Seq, rmatch_Lit.
  rewrite rmatch_Alt_None.
  2:{ apply rmatch_path_None. rewrite !slashes_app.
      rewrite (noSlash_slashes w), (noSlash_slashes r) by by auto using idchars_noSlash.
      vm_compute. lia. }
  rewrite rmatch_Alt_None by reflexivity.
  rewrite rmatch_Seq, rmatch_LazyStar.
  change (codes "watch?v=" ++ w ++ r)
    with (119 :: 97 :: 116 :: 99 :: 104 :: 63 :: codes "v=" ++ w ++ r)%N.
  do 5 (rewrite star_lazy_next by reflexivity).
  apply star_lazy_here.
  rewrite rmatch_Seq, rmatch_Chr by reflexivity.
  by rewrite rmatch_Lit, rmatch_Group_Rep.
Qed.

Lemma exec_embed w r :
  length w = 11 -> forallb idchar w = true -> noSlash r = true ->
  exec youtube (codes "https://www.youtube.com/embed/" ++ w ++ r) = Some (Some w).
Proof.
  intros Hl Hp Hr. apply exec_here.
  change (codes "https://www.youtube.com/embed/" ++ w ++ r)
    with (codes "http" ++ codes "s" ++ codes "://" ++ codes "www."
          ++ codes "youtube.com/" ++ codes "e" ++ codes "mbed" ++ codes "/" ++ w ++ r).
  unfold youtube, Opt.
  rewrite rmatch_Seq. apply rmatch_Alt_Some.
  rewrite rmatch_Seq, rmatch_Lit, rmatch_Seq. apply rmatch_Alt_Some.
  rewrite !rmatch_Lit.
  rewrite rmatch_Seq. apply rmatch_Alt_Some. rewrite rmatch_Lit.
  rewrite rmatch_Seq. apply rmatch_Alt_Some.
  rewrite rmatch_Seq, rmatch_Lit.
  rewrite rmatch_Alt_None.
  2:{ apply rmatch_path_None. rewrite !slashes_app.
      rewrite (noSlash_slashes w), (noSlash_slashes r) by by auto using idchars_noSlash.
      vm_compute. lia. }
  apply rmatch_Alt_Some.
  rewrite rmatch_Seq, rmatch_Alt_None by reflexivity.
  rewrite rmatch_Seq, rmatch_Lit. apply rmatch_Alt_Some.
  by rewrite !rmatch_Lit, rmatch_Group_Rep.
Qed.


Lemma idchar_segment (u : N) : idchar u = true -> segment u = true.
Proof.
  unfold idchar, segment, white, between, code. simpl.
  rewrite negb_true_iff. intros H. apply not_true_is_false. revert H.
  rewrite !orb_true_iff, !andb_true_iff, !N.leb_le, !N.eqb_eq. lia.
Qed.

Lemma idchar_nonwhite (u : N) : idchar u = true -> nonwhite u = true.
Proof.
  unfold idchar, nonwhite, white, between, code. simpl.
  rewrite negb_true_iff. intros H. apply not_true_is_false. revert H.
  rewrite !orb_true_iff, !andb_true_iff, !N.leb_le, !N.eqb_eq. lia.
Qed.

Lemma forallb_impl_bool (p q : N -> bool) w :
  (forall u, p u = true -> q u = true) -> forallb p w = true ->
  forallb q w = true.
Proof. rewrite !forallb_forall. auto. Qed.

(** A second identifier after a further path segment is the one the
    pattern finds: the path alternative comes first. *)
Lemma exec_watch_path wi wj :
  forallb idchar wi = true -> length wj = 11 -> forallb idchar wj = true ->
  exec youtube (codes "https://www.youtube.com/watch?v=" ++ wi
                ++ codes "/x/" ++ wj) = Some (Some wj).
Proof.
  intros Hi Hl Hj. apply exec_here.
  change (codes "https://www.youtube.com/watch?v=" ++ wi ++ codes "/x/" ++ wj)
    with (codes "http" ++ codes "s" ++ codes "://" ++ codes "www."
          ++ codes "youtube.com/"
          ++ 119%N :: (codes "atch?v=" ++ wi) ++ 47%N :: 120%N :: 47%N :: wj).
  unfold youtube, Opt.
  rewrite rmatch_Seq. apply rmatch_Alt_Some.
  rewrite rmatch_Seq, rmatch_Lit, rmatch_Seq. apply rmatch_Alt_Some.
  rewrite !rmatch_Lit.
  rewrite rmatch_Seq. apply rmatch_Alt_Some. rewrite rmatch_Lit.
  rewrite rmatch_Seq. apply rmatch_Alt_Some.
  rewrite rmatch_Seq, rmatch_Lit. apply rmatch_Alt_Some.
  rewrite rmatch_Seq, rmatch_Plus by reflexivity.
  apply star_greedy_more.
  { rewrite forallb_app. apply andb_true_iff. split; [reflexivity |].
    by apply (forallb_impl_bool idchar), Hi; apply idchar_segment. }
  rewrite star_greedy_stop by reflexivity.
  rewrite rmatch_Seq, (rmatch_Lit "/" (120%N :: 47%N :: wj)).
  rewrite rmatch_Seq, rmatch_Plus by reflexivity.
  rewrite star_greedy_back; [| reflexivity |].
  - rewrite (rmatch_Lit "/" wj). rewrite <- (app_nil_r wj) at 1.
    by rewrite rmatch_Group_Rep.
  - apply (star_greedy_none nonwhite (code "/")).
    + apply Forall_forall. intros u Hu. apply idchar_not_slash.
      rewrite forallb_forall in Hj. by apply Hj, list_elem_of_In.
    + intros [| u s'] Hu; [done |]. simpl. by rewrite Hu.
Qed.

Lemma derives_Lit p : forall w c c', derives (Lit p) w c c' -> w = codes p /\ c' = c.
Proof.
  induction p as [| a p IH]; simpl; intros w c c' H.
  - by inversion H.
  - inversion H as [| | ? ? ? ? ? ? ? H1 H2 | | | | |]; subst.
    inversion H1 as [| ? u ? Hu | | | | | |]; subst.
    apply IH in H2 as [-> ->]. apply N.eqb_eq in Hu as ->. done.
Qed.

(** A word of the pattern holds one of the two hosts, and ends in the
    value of group 1. *)
Lemma youtube_word w cap :
  derives youtube w None cap ->
  exists w0 mid us host,
    w = w0 ++ codes host ++ mid ++ us /\ cap = Some us
    /\ (host = "youtube.com/" \/ host = "youtu.be/" /\ mid = []).
Proof.
  unfold youtube. intros H.
  inversion H as [| | ? ? a1 a2 ? ? ? _ H1 | | | | |]; subst.
  inversion H1 as [| | ? ? b1 b2 ? ? ? _ H2 | | | | |]; subst.
  inversion H2 as [| | ? ? d1 d2 ? ? ? H3 H4 | | | | |]; subst.
  inversion H4 as [| | | | | | | ? us ? ? _]; subst.
  inversion H3 as [| | | ? ? ? ? ? Hl | ? ? ? ? ? Hr | | |]; subst.
  - inversion Hl as [| | ? ? e1 e2 ? ? ? Hy _ | | | | |]; subst.
    apply (derives_Lit "youtube.com/") in Hy as [-> _].
    exists (a1 ++ b1), e2, d2, "youtube.com/".
    split_and!; [by rewrite <- !app_assoc | done | by left].
  - apply (derives_Lit "youtu.be/") in Hr as [-> _].
    exists (a1 ++ b1), [], d2, "youtu.be/".
    split_and!; [by rewrite <- !app_assoc | done | by right].
Qed.

End ResolverFacts.

Lemma of_ascii_units_of_codes (i : string) :
  Utf16.of_ascii_units (codes i) = i.
Proof.
  unfold Utf16.of_ascii_units, codes, Utf16.byte. rewrite map_map.
  rewrite <- (string_of_list_ascii_of_string i) at 2. f_equal.
  induction (list_ascii_of_string i) as [| a l IH]; simpl; [done |].
  by rewrite ascii_N_embedding, IH.
Qed.

Lemma codes_length (i : string) : length (codes i) = String.length i.
Proof.
  unfold codes. rewrite length_map.
  induction i as [| a i IH]; simpl; [done | by rewrite IH].
Qed.

Lemma codes_ascii (p : string) :
  forallb (fun u => (u <? 128)%N) (codes p) = true ->
  Forall (fun u => (u < 128)%N) (codes p).
Proof.
  rewrite forallb_forall, Forall_forall. intros H u Hu.
  apply N.ltb_lt, H. by apply list_elem_of_In.
Qed.

Lemma idchars_ascii (us : list N) :
  forallb Regex.idchar us = true -> Forall (fun u => (u < 128)%N) us.
Proof.
  rewrite forallb_forall, Forall_forall. intros H u Hu.
  apply ResolverFacts.idchar_ascii, H. by apply list_elem_of_In.
Qed.

(** The texts the resolver is made for resolve to their identifier: for
    an identifier [i] of eleven characters of [[a-zA-Z0-9_-]], the short
    link followed by any text, the watch URL and the embed URL followed
    by any text without [/], and the player URL that [App] builds. *)
Theorem extractVideoId_round_trip (i : string) :
  String.length i = 11 ->
  forallb Regex.idchar (map N_of_ascii (list_ascii_of_string i)) = true ->
  (forall rest, extractVideoId ("https://youtu.be/" ++ i ++ rest)%string = Some i)
  /\ (forall rest, noSlash (Utf16.utf16 rest) = true ->
      extractVideoId ("https://www.youtube.com/watch?v=" ++ i ++ rest)%string
      = Some i
      /\ extractVideoId ("https://www.youtube.com/embed/" ++ i ++ rest)%string
         = Some i)
  /\ (forall isMuted, extractVideoId (embedUrl i isMuted) = Some i).
Proof.
  intros Hl Hp. fold (codes i) in Hp.
  assert (Hlen : length (codes i) = 11).
  { by rewrite codes_length. }
  assert (Hascii := idchars_ascii _ Hp).
  assert (Hdec : forall p rest,
             Forall (fun u => (u < 128)%N) (codes p) ->
             Utf16.utf16 (p ++ i ++ rest)%string
             = codes p ++ codes i ++ Utf16.utf16 rest).
  { intros p rest Hq. by rewrite !ResolverFacts.utf16_ascii_app. }
  assert (Hembed : forall rest, noSlash (Utf16.utf16 rest) = true ->
             extractVideoId ("https://www.youtube.com/embed/" ++ i ++ rest)%string
             = Some i).
  { intros rest Hr. unfold extractVideoId.
    rewrite Hdec by by apply codes_ascii.
    rewrite ResolverFacts.exec_embed by done. by rewrite of_ascii_units_of_codes. }
  split_and!.
  - intros rest. unfold extractVideoId.
    rewrite Hdec.
    + rewrite ResolverFacts.exec_short_link by done.
      by rewrite of_ascii_units_of_codes.
    + by apply codes_ascii.
  - intros rest Hr. split; [| by apply Hembed].
    unfold extractVideoId. rewrite Hdec.
    + rewrite ResolverFacts.exec_watch by done.
      by rewrite of_ascii_units_of_codes.
    + by apply codes_ascii.
  - intros isMuted. apply Hembed. by destruct isMuted.
Qed.

Lemma extractVideoId_round_trip_witness :
  String.length "uPVjCDbc-Ow" = 11
  /\ extractVideoId "https://youtu.be/uPVjCDbc-Ow?t=42" = Some "uPVjCDbc-Ow"
  /\ extractVideoId (embedUrl "uPVjCDbc-Ow" true) = Some "uPVjCDbc-Ow".
Proof.
  destruct (extractVideoId_round_trip "uPVjCDbc-Ow" eq_refl eq_refl)
    as (H1 & _ & H3).
  split_and!; [reflexivity | exact (H1 "?t=42") | exact (H3 true)].
Defined.

(** The identifier [extractVideoId] returns stands in the text, after the
    host: somewhere after [youtube.com/], or right after [youtu.be/]. A
    text that names neither host does not resolve. *)
Theorem extractVideoId_occurs (url i : string) :
  extractVideoId url = Some i ->
  exists pre mid post host,
    Utf16.utf16 url = pre ++ codes host ++ mid ++ codes i ++ post
    /\ (host = "youtube.com/" \/ host = "youtu.be/" /\ mid = []).
Proof.
  unfold extractVideoId. intros H.
  destruct (Regex.exec _ _) as [[us |] |] eqn:He; [| done | done].
  injection H as <-.
  apply RegexFacts.exec_sound in He as (pre & w & post & -> & Hd).
  pose proof (RegexFacts.youtube_capture _ _ Hd) as (us' & [= <-] & _ & Hc).
  apply ResolverFacts.youtube_word in Hd
    as (w0 & mid & us' & host & -> & [= <-] & Hhost).
  exists (pre ++ w0), mid, post, host. split; [| done].
  change (codes (Utf16.of_ascii_units us))
    with (map N_of_ascii (list_ascii_of_string (Utf16.of_ascii_units us))).
  rewrite of_ascii_units_codes by done. by rewrite <- !app_assoc.
Qed.

Lemma extractVideoId_occurs_witness :
  extractVideoId "see https://youtu.be/uPVjCDbc-Ow now" = Some "uPVjCDbc-Ow"
  /\ exists pre mid post host,
      Utf16.utf16 "see https://youtu.be/uPVjCDbc-Ow now"
      = pre ++ codes host ++ mid ++ codes "uPVjCDbc-Ow" ++ post
      /\ (host = "youtube.com/" \/ host = "youtu.be/" /\ mid = []).
Proof.
  assert (He : extractVideoId "see https://youtu.be/uPVjCDbc-Ow now"
               = Some "uPVjCDbc-Ow") by (vm_compute; reflexivity).
  split; [exact He |].
  exact (extractVideoId_occurs _ _ He).
Defined.

(** Text after the identifier can take its place. The pattern tries the
    path alternative [[^\/\n\s]+\/\S+\/] first: in a watch URL that goes on
    with a path segment and eleven more identifier characters, these and
    not the value of [v] are what [extractVideoId] returns. *)
Theorem extractVideoId_path_precedence (i j : string) :
  forallb Regex.idchar (codes i) = true ->
  String.length j = 11 -> forallb Regex.idchar (codes j) = true ->
  extractVideoId ("https://www.youtube.com/watch?v=" ++ i ++ "/x/" ++ j)%string
  = Some j.
Proof.
  intros Hi Hl Hj. unfold extractVideoId.
  assert (Hdec : Utf16.utf16
                   ("https://www.youtube.com/watch?v=" ++ i ++ "/x/" ++ j)%string
                 = codes "https://www.youtube.com/watch?v=" ++ codes i
                   ++ codes "/x/" ++ codes j).
  { rewrite (ResolverFacts.utf16_ascii_app "https://www.youtube.com/watch?v=")
      by by apply codes_ascii.
    rewrite (ResolverFacts.utf16_ascii_app i) by by apply idchars_ascii.
    rewrite (ResolverFacts.utf16_ascii_app "/x/") by by apply codes_ascii.
    by rewrite ResolverFacts.utf16_ascii by by apply idchars_ascii. }
  rewrite Hdec, ResolverFacts.exec_watch_path; [| done | | done].
  - by rewrite of_ascii_units_of_codes.
  - by rewrite codes_length.
Qed.

Lemma extractVideoId_path_precedence_witness :
  String.length "RjGv7Sa4YQo" = 11
  /\ extractVideoId "https://www.youtube.com/watch?v=uPVjCDbc-Ow/x/RjGv7Sa4YQo"
     = Some "RjGv7Sa4YQo".
Proof.
  split; [reflexivity |].
  exact (extractVideoId_path_precedence "uPVjCDbc-Ow" "RjGv7Sa4YQo"
           eq_refl eq_refl eq_refl).
Defined.

(* ================================================================== *)
(** * What the fetcher returns                                          *)
(* ================================================================== *)

Lemma or_else_nonempty (x : option string) (d : string) :
  d <> "" -> or_else x d <> "".
Proof. by destruct x as [[| c s] |]. Qed.

Lemma fetchOne_nonblank (net : Network) (i : string) (v : Video) :
  fetchOne net i = Returned v -> title v <> "" /\ thumbnailUrl v <> "".
Proof.
  unfold fetchOne. destruct (net i) as [m | | [] t u]; intros [= <-]; simpl;
    try done.
  split; by apply or_else_nonempty.
Qed.

(** No video that [fetchVideoDetails] returns has an empty title or an
    empty thumbnail address, whatever the service answers: a title or an
    address that is missing or empty is replaced by the default built
    from the id. *)
Theorem fetchVideoDetails_never_blank (net : Network) (ids : list string) :
  Forall (fun v => title v <> "" /\ thumbnailUrl v <> "")
         (fetchVideoDetails net ids).
Proof.
  unfold fetchVideoDetails.
  destruct (Promise_all _) as [vs | m] eqn:Hp.
  - apply Promise_all_Returned in Hp. revert vs Hp.
    induction ids as [| i ids IH]; intros [| v vs]; simpl; try done.
    intros [= Hv Hvs]. constructor; [by eapply fetchOne_nonblank | by apply IH].
  - apply Forall_forall. intros v (i & -> & _)%list_elem_of_fmap. done.
Qed.

(* ================================================================== *)
(** * Sessions in which the seed videos are loaded first                *)
(* ================================================================== *)

Lemma initialVideoId_seed (initialVideoIds : list string) (r : Q) :
  initialVideoId initialVideoIds r = ""
  \/ initialVideoId initialVideoIds r ∈ initialVideoIds.
Proof.
  unfold initialVideoId, at_index. destruct (_ =? 0); [by left |].
  destruct (nth_in_or_default (randomIndex r (length initialVideoIds))
                              initialVideoIds "") as [H | ->]; [| by left].
  right. by apply list_elem_of_In.
Qed.

Lemma isLoading_select (seen i : string) (s : AppState) :
  isLoading (selectVideoFromModal seen i s) = isLoading s.
Proof. unfold selectVideoFromModal, selectNewVideo. by destruct (negb _). Qed.

Lemma videoId_select_cases (seen i : string) (s : AppState) :
  videoId (selectVideoFromModal seen i s) = i
  \/ videoId (selectVideoFromModal seen i s) = videoId s.
Proof.
  destruct (decide (seen = i)) as [He | Hne];
    [right | left]; by apply videoId_select.
Qed.

Lemma isLoading_reset (initialVideoIds : list string) (r : Q) (s : AppState) :
  isLoading (handleResetUserVideos initialVideoIds r s) = isLoading s.
Proof.
  unfold handleResetUserVideos.
  destruct (negb _); [destruct (0 <? _) |]; reflexivity.
Qed.

Lemma seed_kept_by_reset (initialVideoIds : list string) (vs : list Video) i :
  i ∈ initialVideoIds -> i ∈ map id vs ->
  i ∈ map id (List.filter (isSeed initialVideoIds) vs).
Proof.
  intros Hi (v & -> & Hv)%list_elem_of_fmap. apply list_elem_of_fmap_2.
  apply filter_elem_of. split; [done | by apply isSeed_true].
Qed.

(** Once the seed videos are loaded, the selection is a video of the
    collection: in every state of a session in which the seed load
    completes first and the user does what the page offers, [videoId] is
    the id of a video of the collection, every seed id is in the
    collection, and the loading flag is off. *)
Theorem loaded_session_selection (initialVideoIds : list string) (ss : Session) :
  initialVideoIds <> [] -> loaded initialVideoIds ss ->
  videoId (store ss) ∈ map id (videos (store ss))
  /\ (forall i, i ∈ initialVideoIds -> i ∈ map id (videos (store ss)))
  /\ isLoading (store ss) = false.
Proof.
  intros Hne Hl.
  induction Hl as [r stored net Hr | e ss ss' Hl (IHv & IHs & IHl) Hoff Hstep].
  - cbn [store rendered loadInitialVideos videos videoId isLoading
         setIsLoading setVideos firstRender initialState].
    rewrite fetchVideoDetails_ids. split_and!; [| done | done].
    unfold initialVideoId.
    destruct initialVideoIds as [| i0 l] eqn:Hl; [done |].
    change (length (i0 :: l) =? 0) with false. cbv iota.
    apply at_index_elem_of, randomIndex_lt; [done | simpl; lia].
  - destruct e; simpl in Hoff, Hstep;
      try (injection Hstep as <-; cbn [store rendered]).
    + done.
    + destruct (videoId_selectNew i (store ss)) as [-> ->].
      split_and!; [| done |].
      * rewrite favoriteVideos_ids in Hoff.
        apply filter_elem_of in Hoff as [_ Hin]. by apply includes_true.
      * unfold handleSelectNewVideo, selectNewVideo. by destruct (negb _).
    + destruct Hoff as [_ Hin]. unfold handleSelectVideoFromModal.
      rewrite videos_select, isLoading_select. split_and!; [| done | done].
      by destruct (videoId_select_cases (videoId (store ss)) i (store ss))
        as [-> | ->].
    + done.
    + done.
    + done.
    + destruct (extractVideoId url) as [i |] eqn:He.
      * destruct (decide (i ∈ map id (videos (store ss)))) as [Hin | Hout].
        -- rewrite (handleAddVideo_present _ _ _ _ _ He Hin). cbn [snd].
           rewrite videos_select, isLoading_select.
           split_and!; [| done | done].
           by destruct (videoId_select_cases (memoVideoId ss) i (store ss))
             as [-> | ->].
        -- destruct (handleAddVideo_absent (memoVideoId ss) net _ _ _ He Hout)
             as (v & _ & Hv & ->).
           cbn [snd]. rewrite videos_select, isLoading_select.
           set (s1 := setVideos (fun prevVideos => v :: prevVideos) (store ss)).
           change (videos s1) with (v :: videos (store ss)).
           change (isLoading s1) with (isLoading (store ss)).
           rewrite fmap_cons, Hv. split_and!; [| by right; apply IHs | done].
           destruct (videoId_select_cases (memoVideoId ss) i s1) as [-> | ->];
             [left | by right].
      * by rewrite (handleAddVideo_unresolved _ _ _ _ He).
    + done.
    + destruct Hoff as (_ & _ & Hr).
      rewrite videos_reset, isLoading_reset.
      assert (Hsel : videoId (handleResetUserVideos initialVideoIds r (store ss))
                     ∈ initialVideoIds).
      { by destruct (videoId_reset initialVideoIds r (store ss) Hr)
          as [[? _] | [_ ?]]. }
      split_and!; [| | done].
      * apply seed_kept_by_reset; [done | by apply IHs].
      * intros i Hi. apply seed_kept_by_reset; [done | by apply IHs].
    + unfold handleFeelingLucky in Hstep.
      destruct (length (videos (store ss)) <=? 1) eqn:Hlen.
      * by injection Hstep as <-.
      * destruct (luckyLoop fuel rand 0 (store ss)) as [x |] eqn:Hx; [| done].
        injection Hstep as <-. cbn [store rendered].
        destruct (videoId_selectNew x (store ss)) as [-> ->].
        split_and!; [| done |].
        -- apply luckyLoop_Some in Hx as (_ & j & ->).
           apply pickedId_elem_of; [done |]. apply Nat.leb_gt in Hlen. lia.
        -- unfold handleSelectNewVideo, selectNewVideo. by destruct (negb _).
Qed.

Lemma loaded_session_selection_witness :
  let seeds := ["tsKd6HdXvso"; "RjGv7Sa4YQo"] in
  let net : Network := fun _ => NotOk in
  let ss0 := firstRender seeds (1 # 2)%Q [] in
  let ss1 := rendered true ss0 (loadInitialVideos seeds net (store ss0)) in
  let ss2 := rendered false ss1 (setIsModalOpen true (store ss1)) in
  let ss3 := rendered true ss2
               (handleAddVideo (memoVideoId ss2) net
                  "https://youtu.be/abcdefghijk" (store ss2)).2 in
  seeds <> [] /\ loaded seeds ss3
  /\ videoId (store ss3) = "abcdefghijk"
  /\ videoId (store ss3) ∈ map id (videos (store ss3)).
Proof.
  intros seeds net ss0 ss1 ss2 ss3.
  assert (Hne : seeds <> []) by done.
  assert (Hl : loaded seeds ss3).
  { apply (loaded_step seeds (AddVideo net "https://youtu.be/abcdefghijk") ss2);
      [| reflexivity | vm_compute; reflexivity].
    apply (loaded_step seeds OpenModal ss1); [| exact I | reflexivity].
    apply loaded_first. apply unit_intervalb_true. vm_compute. reflexivity. }
  split_and!; [exact Hne | exact Hl | vm_compute; reflexivity |].
  exact (proj1 (loaded_session_selection seeds ss3 Hne Hl)).
Defined.

(* ================================================================== *)
(** * An add that meets the seed load                                   *)
(* ================================================================== *)

Lemma addVideoRequest_Some (url i : string) (s : AppState) :
  addVideoRequest url s = Some i <->
  extractVideoId url = Some i /\ i ∉ map id (videos s).
Proof.
  unfold addVideoRequest. rewrite <- has_id_false.
  destruct (extractVideoId url) as [[| c j] |] eqn:He.
  - by destruct (extractVideoId_nonempty _ _ He) as (? & ? & ?).
  - destruct (existsb _ (videos s)) eqn:Hex.
    + split; [done |]. intros [[= <-] H]. congruence.
    + split; [by intros [= <-] | by intros [[= <-] _]].
  - split; [done | by intros []].
Qed.

Lemma handleAddVideo_settle
      (seen : string) (net : Network) (url i : string) (s : AppState) :
  addVideoRequest url s = Some i ->
  handleAddVideo seen net url s = addVideoSettle seen net i s.
Proof.
  intros [He Hi]%addVideoRequest_Some. unfold handleAddVideo. rewrite He.
  destruct (extractVideoId_nonempty _ _ He) as (c & j & ->).
  apply has_id_false in Hi. by rewrite Hi.
Qed.

Lemma addVideoSettle_videos (seen : string) (net : Network) (i : string)
      (s : AppState) :
  exists v, id v = i
            /\ addVideoSettle seen net i s
               = (Returned tt,
                  selectVideoFromModal seen i
                    (setVideos (fun prevVideos => v :: prevVideos) s)).
Proof.
  destruct (fetchVideoDetails_single net i) as (v & Hf & Hv).
  exists v. split; [done |]. unfold addVideoSettle, try_catch. by rewrite Hf.
Qed.

(** An add whose fetch completes after the seed load. [handleAddVideo]
    tests the collection before its [await] and prepends after it without
    testing again: when it has started the fetch of a seed id [i] and the
    seed videos are installed before that fetch completes, the collection
    ends with one more entry of [i] than the seed ids have, two at least. *)
Theorem addVideo_overlapping_seed_load
        (initialVideoIds : list string) (net net' : Network)
        (seen url i : string) (s : AppState) :
  addVideoRequest url s = Some i -> i ∈ initialVideoIds ->
  let s1 := loadInitialVideos initialVideoIds net s in
  let s2 := (addVideoSettle seen net' i s1).2 in
  handleAddVideo seen net' url s = addVideoSettle seen net' i s
  /\ map id (videos s2) = i :: initialVideoIds
  /\ ~ NoDup (map id (videos s2)).
Proof.
  intros Hreq Hi s1 s2. split; [by apply handleAddVideo_settle |].
  assert (Hids : map id (videos s2) = i :: initialVideoIds).
  { subst s2. destruct (addVideoSettle_videos seen net' i s1) as (v & Hv & ->).
    cbn [snd]. rewrite videos_select. subst s1. simpl.
    by rewrite Hv, fetchVideoDetails_ids. }
  split; [done |]. rewrite Hids. by intros [? _]%NoDup_cons.
Qed.

Lemma addVideo_overlapping_seed_load_witness :
  let seeds := ["tsKd6HdXvso"; "RjGv7Sa4YQo"] in
  let net : Network := fun _ => NotOk in
  let url := "https://youtu.be/tsKd6HdXvso" in
  let s0 := initialState seeds (0 # 1)%Q [] in
  let s1 := loadInitialVideos seeds net s0 in
  let s2 := (addVideoSettle (videoId s0) net "tsKd6HdXvso" s1).2 in
  addVideoRequest url s0 = Some "tsKd6HdXvso"
  /\ "tsKd6HdXvso" ∈ seeds
  /\ map id (videos s2) = ["tsKd6HdXvso"; "tsKd6HdXvso"; "RjGv7Sa4YQo"]
  /\ ~ NoDup (map id (videos s2)).
Proof.
  intros seeds net url s0 s1 s2.
  assert (Hreq : addVideoRequest url s0 = Some "tsKd6HdXvso")
    by (vm_compute; reflexivity).
  assert (Hin : "tsKd6HdXvso" ∈ seeds) by left.
  split_and!; [exact Hreq | exact Hin | vm_compute; reflexivity |].
  exact (proj2 (proj2 (addVideo_overlapping_seed_load
                         seeds net net (videoId s0) url _ s0 Hreq Hin))).
Defined.

(** A call of [handleAddVideo] that starts in the first render, for a
    seed id that occurs [k] times among the seed ids, and whose fetch
    completes after the seed videos are installed, followed by a second
    call with the same text. *)
Lemma addVideo_during_seed_load
      (seeds : list string) (r : Q) (stored : list string)
      (net0 net1 net2 : Network) (seen2 url i : string) :
  extractVideoId url = Some i -> i ∈ seeds ->
  let ss0 := firstRender seeds r stored in
  let seen1 := memoVideoId ss0 in
  let s1 := loadInitialVideos seeds net0 (store ss0) in
  let r1 := addVideoSettle seen1 net1 i s1 in
  let r2 := handleAddVideo seen2 net2 url r1.2 in
  addVideoRequest url (store ss0) = Some i
  /\ handleAddVideo seen1 net1 url (store ss0)
     = addVideoSettle seen1 net1 i (store ss0)
  /\ r1.1 = Returned tt
  /\ r2.1 = Returned tt
  /\ map id (videos r1.2) = i :: seeds
  /\ videos r2.2 = videos r1.2
  /\ count_occ string_dec (map id (videos r2.2)) i
     = S (count_occ string_dec seeds i).
Proof.
  intros He Hin ss0 seen1 s1 r1 r2.
  assert (Hreq : addVideoRequest url (store ss0) = Some i).
  { apply addVideoRequest_Some. split; [done |]. apply not_elem_of_nil. }
  destruct (addVideoSettle_videos seen1 net1 i s1) as (v & Hv & Hr1).
  assert (Hids : map id (videos r1.2) = i :: seeds).
  { subst r1. rewrite Hr1. cbn [snd]. rewrite videos_select. subst s1.
    unfold loadInitialVideos. cbn [videos setVideos setIsLoading map].
    by rewrite Hv, fetchVideoDetails_ids. }
  assert (Hr2 : r2 = (Returned tt, selectVideoFromModal seen2 i r1.2)).
  { subst r2. apply handleAddVideo_present; [done |]. rewrite Hids. left. }
  assert (Hvs : videos r2.2 = videos r1.2)
    by (rewrite Hr2; cbn [snd]; apply videos_select).
  split_and!.
  - done.
  - by apply handleAddVideo_settle.
  - subst r1. by rewrite Hr1.
  - by rewrite Hr2.
  - done.
  - done.
  - rewrite Hvs, Hids. cbn [count_occ]. by destruct (string_dec i i).
Qed.

(** C5 fails on the program when a call overlaps the seed load:
    [handleAddVideo] tests the collection before its [await] and prepends
    after it without testing again. In the first render, while the seed
    videos are loading, a call with the short link of the first seed id
    starts the fetch of that id; the seed videos are installed; the fetch
    completes and its video is prepended; a second call with the same
    text finds the id and only selects. Both calls return and the
    collection holds two entries of the id, whatever the draw of the first
    render, the stored favorites, the answers of the network and the
    render the second handler comes from. *)
Theorem addVideo_twice_during_seed_load
        (r : Q) (stored : list string) (net0 net1 net2 : Network)
        (seen2 : string) :
  let url := "https://youtu.be/tsKd6HdXvso" in
  let i := "tsKd6HdXvso" in
  let ss0 := firstRender seedVideoIds r stored in
  let seen1 := memoVideoId ss0 in
  let s1 := loadInitialVideos seedVideoIds net0 (store ss0) in
  let r1 := addVideoSettle seen1 net1 i s1 in
  let r2 := handleAddVideo seen2 net2 url r1.2 in
  i ∈ seedVideoIds
  /\ addVideoRequest url (store ss0) = Some i
  /\ handleAddVideo seen1 net1 url (store ss0)
     = addVideoSettle seen1 net1 i (store ss0)
  /\ r1.1 = Returned tt
  /\ r2.1 = Returned tt
  /\ map id (videos r1.2) = i :: seedVideoIds
  /\ videos r2.2 = videos r1.2
  /\ count_occ string_dec (map id (videos r2.2)) i = 2
  /\ ~ NoDup (map id (videos r2.2)).
Proof.
  intros url i ss0 seen1 s1 r1 r2.
  assert (Hin : i ∈ seedVideoIds)
    by (apply (bool_decide_unpack _); vm_compute; reflexivity).
  assert (Hc : count_occ string_dec seedVideoIds i = 1)
    by (vm_compute; reflexivity).
  assert (He : extractVideoId url = Some i) by (vm_compute; reflexivity).
  destruct (addVideo_during_seed_load seedVideoIds r stored net0 net1 net2
              seen2 url i He Hin)
    as (Hreq & Hcall & Hr1 & Hr2 & Hids & Hvs & Hcount).
  rewrite Hc in Hcount.
  split_and!; try done.
  fold ss0 seen1 s1 r1 r2 in Hvs, Hids. rewrite Hvs, Hids.
  by intros [Hn _]%NoDup_cons.
Qed.

(** An add that completes before the seed load. [loadInitialVideos]
    replaces the collection by the seed videos: a video that is added in
    the first render, with an id that is no seed id, is selected and is
    the collection; after the seed load it is still selected and is not
    in the collection any more. *)
Theorem addVideo_before_seed_load
        (initialVideoIds : list string) (r : Q) (stored : list string)
        (net net' : Network) (url i : string) :
  extractVideoId url = Some i -> i ∉ initialVideoIds ->
  let ss0 := firstRender initialVideoIds r stored in
  let s1 := (handleAddVideo (memoVideoId ss0) net url (store ss0)).2 in
  let s2 := loadInitialVideos initialVideoIds net' s1 in
  (videoId s1 = i /\ map id (videos s1) = [i])
  /\ videoId s2 = i
  /\ map id (videos s2) = initialVideoIds
  /\ videoId s2 ∉ map id (videos s2).
Proof.
  intros He Hi ss0 s1 s2.
  assert (Hseen : memoVideoId ss0 <> i).
  { change (memoVideoId ss0) with (initialVideoId initialVideoIds r).
    destruct (initialVideoId_seed initialVideoIds r) as [H0 | Hin].
    - rewrite H0. destruct (extractVideoId_nonempty _ _ He) as (c & j & ->). done.
    - by intros <-. }
  assert (H1 : videoId s1 = i /\ map id (videos s1) = [i]).
  { subst s1.
    destruct (handleAddVideo_absent (memoVideoId ss0) net url i (store ss0) He)
      as (v & _ & Hv & ->); [by intros ?%elem_of_nil |].
    cbn [snd]. rewrite videos_select. split.
    - by apply (videoId_select (memoVideoId ss0) i).
    - simpl. rewrite Hv. reflexivity. }
  assert (H2 : videoId s2 = i) by apply H1.
  assert (H3 : map id (videos s2) = initialVideoIds).
  { subst s2. simpl. apply fetchVideoDetails_ids. }
  split_and!; [apply H1 | apply H1 | done | done | by rewrite H2, H3].
Qed.

Lemma addVideo_before_seed_load_witness :
  let seeds := ["tsKd6HdXvso"; "RjGv7Sa4YQo"] in
  let net : Network := fun _ => NotOk in
  let url := "https://youtu.be/abcdefghijk" in
  let ss0 := firstRender seeds (0 # 1)%Q [] in
  let s1 := (handleAddVideo (memoVideoId ss0) net url (store ss0)).2 in
  let s2 := loadInitialVideos seeds net s1 in
  extractVideoId url = Some "abcdefghijk"
  /\ ("abcdefghijk" ∉ seeds)
  /\ videoId s2 = "abcdefghijk"
  /\ map id (videos s2) = seeds.
Proof.
  intros seeds net url ss0 s1 s2.
  assert (He : extractVideoId url = Some "abcdefghijk")
    by (vm_compute; reflexivity).
  assert (Hout : "abcdefghijk" ∉ seeds).
  { intros H. repeat (apply elem_of_cons in H as [H | H]; [discriminate H |]).
    by apply elem_of_nil in H. }
  destruct (addVideo_before_seed_load seeds (0 # 1)%Q [] net net url _ He Hout)
    as (_ & H2 & H3 & _).
  split_and!; [exact He | exact Hout | exact H2 | exact H3].
Defined.

(* ================================================================== *)
(** * The reset flag of the user videos                                 *)
(* ================================================================== *)

Lemma NoDup_subset_length (l k : list string) :
  NoDup l -> (forall x, x ∈ l -> x ∈ k) -> length l <= length k.
Proof. intros Hl Hs. by apply submseteq_length, NoDup_submseteq. Qed.

(** In a state in which the seed videos are loaded and no id stands twice
    (the seed ids are distinct, the ids of the collection are distinct,
    every seed id is in the collection), [isUserVideosResettable] says
    that some video of the collection is not a seed video. *)
Theorem isUserVideosResettable_iff (initialVideoIds : list string) (s : AppState) :
  NoDup initialVideoIds -> NoDup (map id (videos s)) ->
  (forall i, i ∈ initialVideoIds -> i ∈ map id (videos s)) ->
  isUserVideosResettable initialVideoIds s = true
  <-> exists v, v ∈ videos s /\ id v ∉ initialVideoIds.
Proof.
  intros Hseeds Hids Hsub. unfold isUserVideosResettable.
  rewrite Nat.ltb_lt, <- (length_map id (videos s)). split.
  - intros Hlt.
    destruct (decide (Forall (fun v => id v ∈ initialVideoIds) (videos s)))
      as [Hall | Hex].
    + exfalso. assert (length (map id (videos s)) <= length initialVideoIds);
        [| lia].
      apply NoDup_subset_length; [done |].
      intros x (v & -> & Hv)%list_elem_of_fmap.
      by apply (proj1 (Forall_forall _ _) Hall).
    + apply not_Forall_Exists in Hex; [| intros v; apply _].
      apply Exists_exists in Hex as (v & Hv & Hout). by exists v.
  - intros (v & Hv & Hout).
    assert (length (id v :: initialVideoIds) <= length (map id (videos s)));
      [| simpl in *; lia].
    apply NoDup_subset_length; [by apply NoDup_cons |].
    intros x [-> | Hx]%elem_of_cons; [by apply list_elem_of_fmap_2 | by apply Hsub].
Qed.

Lemma isUserVideosResettable_iff_witness :
  let seeds := ["tsKd6HdXvso"; "RjGv7Sa4YQo"] in
  let net : Network := fun _ => NotOk in
  let s1 := loadInitialVideos seeds net (initialState seeds (0 # 1)%Q []) in
  let s2 := (handleAddVideo (videoId s1) net "https://youtu.be/abcdefghijk" s1).2 in
  NoDup seeds /\ NoDup (map id (videos s2))
  /\ isUserVideosResettable seeds s1 = false
  /\ isUserVideosResettable seeds s2 = true
  /\ exists v, v ∈ videos s2 /\ id v ∉ seeds.
Proof.
  intros seeds net s1 s2.
  assert (Hseeds : NoDup seeds).
  { apply NoDup_ListNoDup. repeat constructor; simpl; intuition discriminate. }
  assert (Hids : NoDup (map id (videos s2))).
  { apply NoDup_ListNoDup. vm_compute.
    repeat constructor; simpl; intuition discriminate. }
  assert (Hsub : forall i, i ∈ seeds -> i ∈ map id (videos s2)).
  { intros i Hi. vm_compute. by right. }
  split_and!; [exact Hseeds | exact Hids | reflexivity | vm_compute; reflexivity |].
  exact (proj1 (isUserVideosResettable_iff seeds s2 Hseeds Hids Hsub) eq_refl).
Defined.

(* ================================================================== *)
(** * A lucky pick needs another id                                     *)
(* ================================================================== *)

(** [handleFeelingLucky] ends only on a draw of another id: on a
    collection of two or more videos that all carry the selected id,
    which the button does not exclude, the loop is still running after
    any number of draws. *)
Theorem feelingLucky_needs_another_id (rand : nat -> Q) (s : AppState) :
  1 < length (videos s) ->
  (forall v, v ∈ videos s -> id v = videoId s) ->
  (forall n, unit_interval (rand n)) ->
  forall fuel, handleFeelingLucky fuel rand s = None.
Proof.
  intros Hlen Hsame Hrand fuel. unfold handleFeelingLucky.
  apply Nat.leb_gt in Hlen as Hb. rewrite Hb.
  assert (Hn : luckyLoop fuel rand 0 s = None); [| by rewrite Hn].
  apply luckyLoop_None. intros j _.
  assert (Hin : pickedId s (rand (0 + j)) ∈ map id (videos s))
    by (apply pickedId_elem_of; [done | lia]).
  apply list_elem_of_fmap in Hin as (v & -> & Hv). by apply Hsame.
Qed.

Lemma feelingLucky_needs_another_id_witness :
  let v := {| id := "tsKd6HdXvso"; title := "t"; thumbnailUrl := "u" |} in
  let s := {| videos := [v; v]; isLoading := false; videoId := "tsKd6HdXvso";
              isModalOpen := false; favoriteIds := [] |} in
  let rand : nat -> Q := fun n => (1 # 2)%Q in
  1 < length (videos s)
  /\ handleFeelingLucky 1000 rand s = None.
Proof.
  intros v s rand. split; [simpl; lia |].
  apply (feelingLucky_needs_another_id rand s).
  - simpl. lia.
  - intros w Hw. repeat (apply elem_of_cons in Hw as [-> | Hw]; [reflexivity |]).
    by apply elem_of_nil in Hw.
  - intros n. apply unit_intervalb_true. vm_compute. reflexivity.
Defined.

(* ================================================================== *)
(** * The modal                                                         *)
(* ================================================================== *)

Module ModalFacts.
Import VideoSelectionModal.

Lemma trimStart_nil (us : list N) :
  JsString.trimStart us = [] <-> forallb Regex.white us = true.
Proof.
  induction us as [| u us IH]; simpl; [done |].
  destruct (Regex.white u); simpl; [done |]. split; done.
Qed.

Lemma trimStart_white (us : list N) :
  forallb Regex.white (JsString.trimStart us) = true ->
  JsString.trimStart us = [].
Proof.
  induction us as [| u us IH]; simpl; [done |].
  destruct (Regex.white u) eqn:Hu; [done |]. simpl. by rewrite Hu.
Qed.

Lemma forallb_rev {A : Type} (f : A -> bool) (l : list A) :
  forallb f (rev l) = forallb f l.
Proof.
  induction l as [| x l IH]; simpl; [done |].
  rewrite forallb_app, IH. simpl. rewrite andb_true_r. apply andb_comm.
Qed.

(** [s.trim()] is empty exactly for a text of white space. *)
Lemma trim_nil (us : list N) :
  JsString.trim us = [] <-> forallb Regex.white us = true.
Proof.
  unfold JsString.trim. split.
  - intros H. apply (f_equal (@rev N)) in H. rewrite rev_involutive in H.
    simpl in H. apply trimStart_nil in H. rewrite forallb_rev in H.
    apply trimStart_white in H. by apply trimStart_nil.
  - intros H. apply trimStart_nil in H. by rewrite H.
Qed.

Lemma startsWith_spec (us qs : list N) :
  JsString.startsWith us qs = true <-> exists b, us = qs ++ b.
Proof.
  revert us. induction qs as [| q qs IH]; intros us.
  - destruct us; simpl; (split; [eauto | done]).
  - destruct us as [| u us]; simpl; [split; [done | by intros [b ?]] |].
    rewrite andb_true_iff, N.eqb_eq, IH. split.
    + intros [-> [b ->]]. by exists b.
    + intros [b [= -> ->]]. split; [done | by exists b].
Qed.

(** [s.includes(q)]: [q] stands somewhere in [s]. *)
Lemma includes_spec (us qs : list N) :
  JsString.includes us qs = true <-> exists a b, us = a ++ qs ++ b.
Proof.
  induction us as [| u us IH]; cbn [JsString.includes].
  - rewrite orb_false_r, startsWith_spec. split.
    + intros [b Hb]. by exists [], b.
    + intros (a & b & H). destruct a as [| x a]; [by exists b | done].
  - rewrite orb_true_iff, startsWith_spec, IH. split.
    + intros [[b Hb] | (a & b & ->)]; [by exists [], b | by exists (u :: a), b].
    + intros ([| x a] & b & H); [left; by exists b |].
      injection H as -> ->. right. by exists a, b.
Qed.

Lemma sublist_filter_bool {A : Type} (f : A -> bool) (l : list A) :
  sublist (List.filter f l) l.
Proof.
  induction l as [| x l IH]; simpl; [constructor |].
  destruct (f x); by constructor.
Qed.

End ModalFacts.

(** The search of the modal shows videos of the collection, in the order
    of the collection: all of them for a term that is empty or white
    space only, and for another term those whose title, in lower case,
    holds the term in lower case, white space of the term included. *)
Theorem filteredVideos_shows (toLowerCase : string -> string)
        (videos : list Video) (searchTerm : string) :
  let shown := VideoSelectionModal.filteredVideos toLowerCase videos searchTerm in
  sublist shown videos
  /\ (forallb Regex.white (Utf16.utf16 searchTerm) = true -> shown = videos)
  /\ (forallb Regex.white (Utf16.utf16 searchTerm) = false ->
      forall v, v ∈ shown <->
        v ∈ videos
        /\ exists a b, Utf16.utf16 (toLowerCase (title v))
                       = a ++ Utf16.utf16 (toLowerCase searchTerm) ++ b).
Proof.
  intros shown. subst shown. unfold VideoSelectionModal.filteredVideos.
  destruct (forallb Regex.white (Utf16.utf16 searchTerm)) eqn:Hw.
  - apply ModalFacts.trim_nil in Hw. rewrite Hw. simpl. done.
  - destruct (JsString.trim (Utf16.utf16 searchTerm)) as [| u us] eqn:Ht.
    { apply ModalFacts.trim_nil in Ht. congruence. }
    simpl. split_and!; [apply ModalFacts.sublist_filter_bool | done |].
    intros _ v. rewrite filter_elem_of.
    unfold VideoSelectionModal.matches. by rewrite ModalFacts.includes_spec.
Qed.

(** What the add button of the modal comes to, from the click to the end
    of the call: the button is enabled again and the search term and the
    dialog are as before; a text that does not resolve leaves the typed
    text and the store as they are and shows the invalid-URL message;
    a text that resolves to [i] clears the text and any message, [i] is
    in the collection and the modal is closed. No other message is ever
    shown. *)
Theorem modalAddVideo_outcome
        (seen : string) (net : Network)
        (m : VideoSelectionModal.ModalState) (s : AppState) :
  let r := modalAddVideo seen net m s in
  VideoSelectionModal.isAddingVideo r.1 = false
  /\ VideoSelectionModal.searchTerm r.1 = VideoSelectionModal.searchTerm m
  /\ VideoSelectionModal.confirmModalState r.1
     = VideoSelectionModal.confirmModalState m
  /\ match extractVideoId (VideoSelectionModal.urlInput m) with
     | None =>
       VideoSelectionModal.inputError r.1 = Some "無効なYouTube URLです。"
       /\ VideoSelectionModal.urlInput r.1 = VideoSelectionModal.urlInput m
       /\ r.2 = s
     | Some i =>
       VideoSelectionModal.inputError r.1 = None
       /\ VideoSelectionModal.urlInput r.1 = ""
       /\ i ∈ map id (videos r.2)
       /\ isModalOpen r.2 = false
     end.
Proof.
  intros r. subst r. unfold modalAddVideo, VideoSelectionModal.handleAddVideo.
  destruct (extractVideoId (VideoSelectionModal.urlInput m)) as [i |] eqn:He.
  - destruct (decide (i ∈ map id (videos s))) as [Hin | Hout].
    + rewrite (handleAddVideo_present _ _ _ _ _ He Hin).
      cbn -[selectVideoFromModal].
      split_and!; try done. by rewrite (videos_select seen i s).
    + destruct (handleAddVideo_absent seen net _ _ _ He Hout)
        as (v & _ & Hv & ->).
      cbn -[selectVideoFromModal setVideos]. split_and!; try done.
      rewrite (videos_select seen i (setVideos _ s)). simpl. rewrite Hv. left.
  - rewrite (handleAddVideo_unresolved _ _ _ _ He). simpl. done.
Qed.

Lemma length_filter_seed (initialVideoIds : list string) (vs : list Video) :
  NoDup (map id vs) ->
  length (List.filter (isSeed initialVideoIds) vs) <= length initialVideoIds.
Proof.
  intros Hnd. rewrite <- (length_map id (List.filter _ vs)).
  apply submseteq_length, NoDup_submseteq.
  - by apply NoDup_fmap_filter_bool.
  - intros x (v & -> & Hv)%list_elem_of_fmap.
    apply filter_elem_of in Hv as [_ Hv]. by apply isSeed_true.
Qed.

(** The reset dialog of the modal, with the handlers of [App] behind it.
    A reset runs on confirm only, and it is the reset of the button that
    opened the dialog: after it the dialog is closed and the button of
    that reset has nothing left to reset (no favorite; on a collection
    without duplicate ids, no more videos than seed ids). A confirm after
    a cancel, or a second confirm, leaves the store as it is. *)
Theorem modalConfirmReset_runs_once
        (initialVideoIds : list string) (r : Q)
        (m : VideoSelectionModal.ModalState) (s : AppState) :
  NoDup (map id (videos s)) ->
  let confirm := modalConfirmReset initialVideoIds r in
  let mF := VideoSelectionModal.handleFavoritesResetClick m in
  let mU := VideoSelectionModal.handleUserVideosResetClick m in
  ((confirm mF s).2 = handleResetFavorites s
   /\ isFavoritesResettable (confirm mF s).2 = false
   /\ favoriteVideos (confirm mF s).2 = []
   /\ videos (confirm mF s).2 = videos s)
  /\ ((confirm mU s).2 = handleResetUserVideos initialVideoIds r s
      /\ isUserVideosResettable initialVideoIds (confirm mU s).2 = false
      /\ favoriteIds (confirm mU s).2 = favoriteIds s)
  /\ (forall m', m' = mF \/ m' = mU ->
        VideoSelectionModal.confirmModalState (confirm m' s).1
        = VideoSelectionModal.closedConfirm
        /\ (confirm (VideoSelectionModal.handleCancelReset m') s).2 = s
        /\ (confirm (confirm m' s).1 (confirm m' s).2).2 = (confirm m' s).2).
Proof.
  intros Hnd confirm mF mU.
  assert (HF : (confirm mF s).2 = handleResetFavorites s) by reflexivity.
  assert (HU : (confirm mU s).2 = handleResetUserVideos initialVideoIds r s)
    by reflexivity.
  rewrite HF, HU. split_and!; try reflexivity.
  - unfold isUserVideosResettable. rewrite videos_reset.
    apply Nat.ltb_ge. by apply length_filter_seed.
  - apply favoriteIds_reset.
  - intros m' [-> | ->]; split_and!; reflexivity.
Qed.

Lemma modalConfirmReset_runs_once_witness :
  let seeds := ["tsKd6HdXvso"; "RjGv7Sa4YQo"] in
  let net : Network := fun _ => NotOk in
  let s1 := loadInitialVideos seeds net (initialState seeds (0 # 1)%Q []) in
  let s2 := (handleAddVideo (videoId s1) net "https://youtu.be/abcdefghijk" s1).2 in
  let m := VideoSelectionModal.handleUserVideosResetClick
             VideoSelectionModal.initialModal in
  NoDup (map id (videos s2))
  /\ isUserVideosResettable seeds s2 = true
  /\ map id (videos (modalConfirmReset seeds (0 # 1)%Q m s2).2) = seeds
  /\ isUserVideosResettable seeds (modalConfirmReset seeds (0 # 1)%Q m s2).2
     = false.
Proof.
  intros seeds net s1 s2 m.
  assert (Hids : NoDup (map id (videos s2))).
  { apply NoDup_ListNoDup. vm_compute.
    repeat constructor; simpl; intuition discriminate. }
  split_and!; [exact Hids | vm_compute; reflexivity | vm_compute; reflexivity |].
  exact (proj1 (proj2 (proj1 (proj2
    (modalConfirmReset_runs_once seeds (0 # 1)%Q
       VideoSelectionModal.initialModal s2 Hids))))).
Defined.

(* ================================================================== *)
(** * Persistence                                                       *)
(* ================================================================== *)

Module StorageFacts.
Import LocalStorage.

Section Hook.
Context {T : Type}.
Variable JSON_parse : string -> Outcome T.
Variable JSON_stringify : T -> string.

Lemma persist_written (localStorage : Storage) (key : string) (state : T) :
  blocked localStorage = false ->
  accepts localStorage key (JSON_stringify state) = true ->
  persist JSON_stringify (Some localStorage) key state
  = Some {| items := <[key := JSON_stringify state]> (items localStorage);
            blocked := false;
            accepts := accepts localStorage |}.
Proof. intros Hb Ha. unfold persist, setItem. by rewrite Hb, Ha. Qed.

Lemma initialValue_stored (localStorage : Storage) (key item : string)
      (defaultValue value : T) :
  blocked localStorage = false -> items localStorage !! key = Some item ->
  item <> "" -> JSON_parse item = Returned value ->
  initialValue JSON_parse (Some localStorage) key defaultValue = value.
Proof.
  intros Hb Hi Hne Hp. unfold initialValue, getItem. rewrite Hb, Hi.
  destruct item as [| c item]; [done |]. by rewrite Hp.
Qed.

End Hook.

(** Reading a key that a write of another key, of any type, left alone. *)
Lemma initialValue_other {T U : Type} (JSON_parse : string -> Outcome T)
      (JSON_stringify : U -> string) (window : option Storage)
      (key key' : string) (state : U) (defaultValue : T) :
  key' <> key ->
  initialValue JSON_parse (persist JSON_stringify window key state) key'
               defaultValue
  = initialValue JSON_parse window key' defaultValue.
Proof.
  intros Hne. destruct window as [localStorage |]; [| done].
  unfold persist, setItem.
  destruct (blocked localStorage) eqn:Hb; [done |].
  destruct (accepts localStorage key (JSON_stringify state)); [| done].
  unfold initialValue, getItem. simpl. rewrite Hb.
  by rewrite lookup_insert_ne.
Qed.

End StorageFacts.

(** What [useLocalStorageState] writes it reads back: after the effect
    has stored a state under a key, in a storage that takes the write, a
    component that mounts with that key starts from that state, whatever
    its default, provided the text of the state is not empty and parses
    to the state; the write changes what is read under no other key. *)
Theorem useLocalStorageState_round_trip
        {T : Type} (JSON_parse : string -> Outcome T)
        (JSON_stringify : T -> string)
        (localStorage : LocalStorage.Storage) (key : string) (state : T) :
  LocalStorage.blocked localStorage = false ->
  LocalStorage.accepts localStorage key (JSON_stringify state) = true ->
  JSON_stringify state <> "" ->
  JSON_parse (JSON_stringify state) = Returned state ->
  let window' :=
    LocalStorage.persist JSON_stringify (Some localStorage) key state in
  (forall defaultValue,
      LocalStorage.initialValue JSON_parse window' key defaultValue = state)
  /\ (forall key' defaultValue, key' <> key ->
      LocalStorage.initialValue JSON_parse window' key' defaultValue
      = LocalStorage.initialValue JSON_parse (Some localStorage) key'
                                  defaultValue).
Proof.
  intros Hb Ha Hne Hp window'. split.
  - intros defaultValue. subst window'.
    rewrite StorageFacts.persist_written by done.
    eapply StorageFacts.initialValue_stored; [done | | done | done].
    simpl. apply lookup_insert_eq.
  - intros key' defaultValue Hk. by apply StorageFacts.initialValue_other.
Qed.

Lemma useLocalStorageState_round_trip_witness :
  let parse : string -> Outcome Theme :=
    fun item => if String.eqb item "dark" then Returned dark
                else if String.eqb item "light" then Returned light
                else Thrown "SyntaxError" in
  let stringify : Theme -> string :=
    fun theme => match theme with dark => "dark" | light => "light" end in
  let localStorage :=
    {| LocalStorage.items := ∅; LocalStorage.blocked := false;
       LocalStorage.accepts := fun _ _ => true |} in
  LocalStorage.initialValue parse (Some localStorage) "theme" light = light
  /\ LocalStorage.initialValue parse
       (LocalStorage.persist stringify (Some localStorage) "theme" dark)
       "theme" light = dark.
Proof.
  intros parse stringify localStorage. split; [reflexivity |].
  exact (proj1 (useLocalStorageState_round_trip parse stringify localStorage
                  "theme" dark eq_refl eq_refl ltac:(discriminate) eq_refl)
               light).
Defined.

(** A reload keeps the theme and the favorites: after the effects of the
    two hooks of [App] have stored [theme] and [favoriteIds], in a storage
    that takes both writes, the first render of a new page starts from
    that theme and those favorites, whatever the colour scheme of the
    system; without a window it starts from the light theme and no
    favorites. *)
Theorem persisted_states_survive_reload
        (parseTheme : string -> Outcome Theme) (stringifyTheme : Theme -> string)
        (parseIds : string -> Outcome (list string))
        (stringifyIds : list string -> string)
        (localStorage : LocalStorage.Storage)
        (theme : Theme) (favoriteIds : list string) :
  LocalStorage.blocked localStorage = false ->
  (forall key value, LocalStorage.accepts localStorage key value = true) ->
  stringifyTheme theme <> "" -> stringifyIds favoriteIds <> "" ->
  parseTheme (stringifyTheme theme) = Returned theme ->
  parseIds (stringifyIds favoriteIds) = Returned favoriteIds ->
  let window' :=
    persistStates stringifyTheme stringifyIds (Some localStorage)
                  theme favoriteIds in
  (forall prefersDark,
      persistedStates parseTheme parseIds window' prefersDark
      = (theme, favoriteIds))
  /\ (forall prefersDark,
      persistedStates parseTheme parseIds None prefersDark = (light, [])).
Proof.
  intros Hb Ha HneT HneI HpT HpI window'. split; [| reflexivity].
  intros prefersDark. subst window'. unfold persistedStates, persistStates.
  f_equal.
  - rewrite StorageFacts.initialValue_other by done.
    rewrite StorageFacts.persist_written by done.
    apply (StorageFacts.initialValue_stored _ _ _ (stringifyTheme theme));
      [done | apply lookup_insert_eq | done | done].
  - rewrite (StorageFacts.persist_written stringifyTheme) by done.
    rewrite StorageFacts.persist_written by (simpl; auto).
    apply (StorageFacts.initialValue_stored _ _ _ (stringifyIds favoriteIds));
      [done | apply lookup_insert_eq | done | done].
Qed.

Lemma persisted_states_survive_reload_witness :
  let parseTheme : string -> Outcome Theme :=
    fun item => if String.eqb item "d" then Returned dark
                else if String.eqb item "l" then Returned light
                else Thrown "SyntaxError" in
  let stringifyTheme : Theme -> string :=
    fun theme => match theme with dark => "d" | light => "l" end in
  let parseIds : string -> Outcome (list string) :=
    fun item => if String.eqb item "[]" then Returned []
                else Returned [item] in
  let stringifyIds : list string -> string :=
    fun ids => match ids with i :: _ => i | [] => "[]" end in
  let localStorage :=
    {| LocalStorage.items := ∅; LocalStorage.blocked := false;
       LocalStorage.accepts := fun _ _ => true |} in
  persistedStates parseTheme parseIds
    (persistStates stringifyTheme stringifyIds (Some localStorage)
                   (toggleTheme light) ["tsKd6HdXvso"]) false
  = (dark, ["tsKd6HdXvso"]).
Proof.
  intros parseTheme stringifyTheme parseIds stringifyIds localStorage.
  exact (proj1 (persisted_states_survive_reload
                  parseTheme stringifyTheme parseIds stringifyIds localStorage
                  (toggleTheme light) ["tsKd6HdXvso"]
                  eq_refl (fun _ _ => eq_refl)
                  ltac:(discriminate) ltac:(discriminate) eq_refl eq_refl)
               false).
Defined.

(* ================================================================== *)
(** * The keys and the pointer                                          *)
(* ================================================================== *)

Module InputFacts.
Import GameControls Input.

Lemma released_no_handle c s : Inv s -> pressed c s = false -> handle_of c s = None.
Proof.
  intros HI Hp. destruct (handle_of c s) eqn:Hh; [| done].
  assert (pressed c s = true) by (apply (inv_pressed _ HI); by eexists).
  congruence.
Qed.

Lemma pressed_handlePress c s : Inv s -> pressed c (handlePress c s) = true.
Proof.
  intros HI. destruct (pressed c s) eqn:Hp;
    [by rewrite ControlFacts.handlePress_pressed |].
  rewrite ControlFacts.handlePress_released
    by auto using released_no_handle.
  unfold pressed. simpl. by rewrite lookup_insert_eq.
Qed.

Lemma pressed_handleRelease c s : Inv s -> pressed c (handleRelease c s) = false.
Proof.
  intros HI. destruct (pressed c s) eqn:Hp;
    [| by rewrite ControlFacts.handleRelease_released].
  destruct (proj1 (inv_pressed _ HI c) Hp) as [h Hh].
  rewrite (ControlFacts.handleRelease_pressed c s h) by done.
  unfold pressed. simpl. by rewrite lookup_insert_eq.
Qed.

(** A press or a release of one button leaves the other buttons as they
    are. *)
Lemma handlePress_other c b s :
  Inv s -> b <> c ->
  pressed b (handlePress c s) = pressed b s
  /\ handle_of b (handlePress c s) = handle_of b s.
Proof.
  intros HI Hne. destruct (pressed c s) eqn:Hp;
    [by rewrite ControlFacts.handlePress_pressed |].
  rewrite ControlFacts.handlePress_released
    by auto using released_no_handle.
  unfold pressed, handle_of. simpl. by rewrite !lookup_insert_ne.
Qed.

Lemma handleRelease_other c b s :
  Inv s -> b <> c ->
  pressed b (handleRelease c s) = pressed b s
  /\ handle_of b (handleRelease c s) = handle_of b s.
Proof.
  intros HI Hne. destruct (pressed c s) eqn:Hp;
    [| by rewrite ControlFacts.handleRelease_released].
  destruct (proj1 (inv_pressed _ HI c) Hp) as [h Hh].
  rewrite (ControlFacts.handleRelease_pressed c s h) by done.
  unfold pressed, handle_of. simpl. by rewrite !lookup_insert_ne.
Qed.

Lemma timersOf_same b s s' :
  Inv s -> Inv s' -> handle_of b s' = handle_of b s ->
  timersOf b s' = timersOf b s.
Proof.
  intros HI HI' Hh. rewrite !ControlFacts.timersOf_handle by done.
  by rewrite Hh.
Qed.

(** A press of a released button followed by its release. *)
Lemma press_release c s :
  Inv s -> pressed c s = false ->
  let s2 := handleRelease c (handlePress c s) in
  (forall b, pressed b s2 = pressed b s)
  /\ (forall b, handle_of b s2 = handle_of b s)
  /\ intervals s2 = intervals s
  /\ audioContextRef s2 = audioContextRef s
  /\ effects s2
     = effects (playSound s)
       ++ [SetInterval (nextHandle s); ClearInterval (nextHandle s)].
Proof.
  intros HI Hp s2. subst s2.
  pose proof (released_no_handle c s HI Hp) as Hh.
  rewrite ControlFacts.handlePress_released by done.
  rewrite (ControlFacts.handleRelease_pressed c _ (nextHandle s)).
  2:{ unfold pressed. simpl. by rewrite lookup_insert_eq. }
  2:{ unfold handle_of. simpl. by rewrite lookup_insert_eq. }
  unfold pressed, handle_of in *. simpl. split_and!.
  - intros b. destruct (decide (b = c)) as [-> | Hne].
    + rewrite lookup_insert_eq. by rewrite Hp.
    + by rewrite !lookup_insert_ne.
  - intros b. destruct (decide (b = c)) as [-> | Hne].
    + rewrite lookup_insert_eq. by rewrite Hh.
    + by rewrite !lookup_insert_ne.
  - apply delete_insert_id.
    destruct (intervals s !! nextHandle s) as [b |] eqn:Hi; [| done].
    apply (inv_fresh _ HI) in Hi. lia.
  - done.
  - by rewrite <- app_assoc.
Qed.

(** No inherited property is an own property of [keyMap]. *)
Lemma keyMap_at_inherited k :
  k ∈ Input.inherited -> Input.keyMap_at k = Input.Inherited k.
Proof.
  intros Hk. unfold Input.keyMap_at.
  rewrite (bool_decide_eq_true_2 _ Hk). unfold Input.inherited in Hk.
  repeat (apply elem_of_cons in Hk as [-> | Hk]; [reflexivity |]).
  by apply elem_of_nil in Hk.
Qed.

End InputFacts.

(** The buttons are independent: in every state the panel reaches, a
    press or a release of one button changes neither whether another
    button is pressed, nor the timer handle it holds, nor its live
    timers. *)
Theorem buttons_independent
        (st : GameControls.AudioState) (es : list GameControls.Event)
        (c b : GameControls.ButtonColor) :
  b <> c ->
  let s := GameControls.after st es in
  (GameControls.pressed b (GameControls.handlePress c s)
   = GameControls.pressed b s
   /\ GameControls.handle_of b (GameControls.handlePress c s)
      = GameControls.handle_of b s
   /\ GameControls.timersOf b (GameControls.handlePress c s)
      = GameControls.timersOf b s)
  /\ (GameControls.pressed b (GameControls.handleRelease c s)
      = GameControls.pressed b s
      /\ GameControls.handle_of b (GameControls.handleRelease c s)
         = GameControls.handle_of b s
      /\ GameControls.timersOf b (GameControls.handleRelease c s)
         = GameControls.timersOf b s).
Proof.
  intros Hne s. pose proof (ControlFacts.Inv_after st es) as HI. fold s in HI.
  destruct (InputFacts.handlePress_other c b s HI Hne) as [Hp Hh].
  destruct (InputFacts.handleRelease_other c b s HI Hne) as [Hp' Hh'].
  split_and!; try done.
  - apply InputFacts.timersOf_same; [done | by apply ControlFacts.Inv_press | done].
  - apply InputFacts.timersOf_same; [done | by apply ControlFacts.Inv_release | done].
Qed.

Lemma buttons_independent_witness :
  let s := GameControls.after GameControls.running
             [GameControls.Press GameControls.green] in
  GameControls.red <> GameControls.green
  /\ GameControls.pressed GameControls.green s = true
  /\ GameControls.pressed GameControls.green
       (GameControls.handlePress GameControls.red s)
     = GameControls.pressed GameControls.green s
  /\ GameControls.timersOf GameControls.green
       (GameControls.handlePress GameControls.red s)
     = GameControls.timersOf GameControls.green s.
Proof.
  intros s.
  destruct (buttons_independent GameControls.running
              [GameControls.Press GameControls.green]
              GameControls.red GameControls.green ltac:(discriminate))
    as [(Hp & _ & Ht) _].
  split_and!; [discriminate | reflexivity | exact Hp | exact Ht].
Defined.

(** A click or a tap leaves no timer behind. On a released button, in any
    state the panel reaches, a mouse down or touch start followed by a
    mouse up, a mouse leave or a touch end: the button is pressed in
    between; afterwards every button is pressed as before and holds the
    handle it held, the live timers are those of before, and the effects
    are one tick (after a resume when the audio context was suspended),
    one timer set and the same timer cleared. *)
Theorem click_leaves_no_timer
        (st : GameControls.AudioState) (es : list GameControls.Event)
        (c : GameControls.ButtonColor) (down up : Input.PointerEvent) :
  Input.isDown down = true -> Input.isDown up = false ->
  GameControls.pressed c (GameControls.after st es) = false ->
  let s := GameControls.after st es in
  let s1 := (Input.button c down s).2 in
  let s2 := (Input.button c up s1).2 in
  GameControls.pressed c s1 = true
  /\ (forall b, GameControls.pressed b s2 = GameControls.pressed b s)
  /\ (forall b, GameControls.handle_of b s2 = GameControls.handle_of b s)
  /\ GameControls.intervals s2 = GameControls.intervals s
  /\ GameControls.pulses s2 = GameControls.pulses s + 1
  /\ GameControls.effects s2
     = GameControls.effects (GameControls.playSound s)
       ++ [GameControls.SetInterval (GameControls.nextHandle s);
           GameControls.ClearInterval (GameControls.nextHandle s)].
Proof.
  intros Hd Hu Hp s s1 s2.
  pose proof (ControlFacts.Inv_after st es) as HI.
  change (GameControls.after st es) with s in HI, Hp.
  assert (H1 : s1 = GameControls.handlePress c s)
    by (subst s1; by destruct down).
  assert (H2 : s2 = GameControls.handleRelease c (GameControls.handlePress c s))
    by (subst s2; rewrite H1; by destruct up).
  destruct (InputFacts.press_release c s HI Hp) as (Ha & Hb & Hc & Hd' & He).
  rewrite H1, H2. split_and!; try done.
  - by apply InputFacts.pressed_handlePress.
  - pose proof (ControlFacts.playSound_pulses s (GameControls.inv_audio _ HI))
      as Hpl.
    unfold GameControls.pulses in *.
    rewrite He, ControlFacts.filter_length_app, Hpl. simpl. lia.
Qed.

Lemma click_leaves_no_timer_witness :
  let s := GameControls.after GameControls.suspended [] in
  let s2 := (Input.button GameControls.red Input.MouseLeave
               (Input.button GameControls.red Input.TouchStart s).2).2 in
  GameControls.pressed GameControls.red s = false
  /\ GameControls.intervals s2 = GameControls.intervals s
  /\ GameControls.effects s2
     = [GameControls.Resume; GameControls.Pulse;
        GameControls.SetInterval 1; GameControls.ClearInterval 1].
Proof.
  intros s s2.
  destruct (click_leaves_no_timer GameControls.suspended [] GameControls.red
              Input.TouchStart Input.MouseLeave eq_refl eq_refl eq_refl)
    as (_ & _ & _ & Hi & _ & He).
  split_and!; [reflexivity | exact Hi | exact He].
Defined.

(** The keys of the panel. [keyMap[event.key]] is a colour for [w], [a],
    [d] in either case, an inherited property of the object for the twelve
    names of [Object.prototype], and [undefined] for every other key. A
    key-down acts only when it is no auto-repeat, its target is no [INPUT]
    element and its key is not [undefined] in [keyMap]; a key-up acts for
    these keys whatever its target. Hence a key-down of a colour that
    acts, followed by the key-up of a key of the same button (the other
    case of the letter, the focus in a text field by then), leaves that
    button released and without a live timer, and the other buttons as
    they were; the events that do not act change nothing and leave the key
    to the browser; and an event whose key names an inherited property,
    [constructor] for one, is not left to the browser: it calls the ref
    with that property, which is no colour. *)
Theorem key_down_then_up
        (st : GameControls.AudioState) (es : list GameControls.Event)
        (down up : Input.KeyboardEvent) (c : GameControls.ButtonColor) :
  Input.keyMap !! Input.key down = Some c ->
  Input.keyMap !! Input.key up = Some c ->
  Input.repeat down = false -> Input.tagName down <> "INPUT" ->
  let s := GameControls.after st es in
  let t := GameControls.handleRelease c (GameControls.handlePress c s) in
  Input.handleKeyDown down (Some s)
  = Input.Acted (Some (GameControls.handlePress c s))
  /\ Input.handleKeyUp up (Some (GameControls.handlePress c s))
     = Input.Acted (Some t)
  /\ GameControls.pressed c (GameControls.handlePress c s) = true
  /\ GameControls.pressed c t = false
  /\ GameControls.timersOf c t = []
  /\ (forall b, b <> c ->
        GameControls.pressed b t = GameControls.pressed b s
        /\ GameControls.timersOf b t = GameControls.timersOf b s)
  /\ (forall e ref,
        Input.repeat e = true \/ Input.tagName e = "INPUT"
        \/ Input.keyMap_at (Input.key e) = Input.Undefined ->
        Input.handleKeyDown e ref = Input.Ignored ref)
  /\ (forall e ref, Input.keyMap_at (Input.key e) = Input.Undefined ->
        Input.handleKeyUp e ref = Input.Ignored ref)
  /\ (forall e ref, Input.key e ∈ Input.inherited ->
        Input.handleKeyUp e ref = Input.ActedInherited (Input.key e)
        /\ (Input.repeat e = false -> Input.tagName e <> "INPUT" ->
            Input.handleKeyDown e ref = Input.ActedInherited (Input.key e)))
  /\ (forall k, Input.keyMap_at k = Input.Undefined
                <-> Input.keyMap !! k = None /\ k ∉ Input.inherited)
  /\ (forall k color, Input.keyMap_at k = Input.Colour color
                      <-> Input.keyMap !! k = Some color).
Proof.
  intros Hkd Hku Hrep Htag s t.
  pose proof (ControlFacts.Inv_after st es) as HI. fold s in HI.
  assert (HI1 := ControlFacts.Inv_press c s HI).
  assert (HIt : GameControls.Inv t) by by apply ControlFacts.Inv_release.
  assert (Hpt : GameControls.pressed c t = false)
    by by apply InputFacts.pressed_handleRelease.
  split_and!.
  - unfold Input.handleKeyDown, Input.keyMap_at. rewrite Hrep, Hkd.
    by apply String.eqb_neq in Htag as ->.
  - unfold Input.handleKeyUp, Input.keyMap_at. by rewrite Hku.
  - by apply InputFacts.pressed_handlePress.
  - done.
  - rewrite ControlFacts.timersOf_handle by done.
    by rewrite InputFacts.released_no_handle.
  - intros b Hne.
    destruct (InputFacts.handlePress_other c b s HI Hne) as [Hp Hh].
    destruct (InputFacts.handleRelease_other c b _ HI1 Hne) as [Hp' Hh'].
    split; [subst t; congruence |].
    apply InputFacts.timersOf_same; [done | done | subst t; congruence].
  - intros e ref [He | [He | He]]; unfold Input.handleKeyDown.
    + by rewrite He.
    + rewrite He. simpl. by rewrite orb_true_r.
    + rewrite He. by destruct (_ || _).
  - intros e ref He. unfold Input.handleKeyUp. by rewrite He.
  - intros e ref He. unfold Input.handleKeyUp, Input.handleKeyDown.
    rewrite (InputFacts.keyMap_at_inherited _ He). split; [done |].
    intros -> Ht. by apply String.eqb_neq in Ht as ->.
  - intros k. unfold Input.keyMap_at.
    destruct (Input.keyMap !! k) as [color |]; [by split; [| intros [? _]] |].
    case_bool_decide; split; try done. by intros [_ ?].
  - intros k color. unfold Input.keyMap_at.
    destruct (Input.keyMap !! k) as [color' |].
    + split; congruence.
    + by case_bool_decide.
Qed.

Lemma key_down_then_up_witness :
  let down := {| Input.key := "w"; Input.repeat := false;
                 Input.tagName := "BODY" |} in
  let up := {| Input.key := "W"; Input.repeat := false;
               Input.tagName := "INPUT" |} in
  let s := GameControls.after GameControls.running [] in
  Input.keyMap !! "w" = Some GameControls.red
  /\ Input.keyMap !! "W" = Some GameControls.red
  /\ GameControls.pressed GameControls.red
       (GameControls.handleRelease GameControls.red
          (GameControls.handlePress GameControls.red s)) = false.
Proof.
  intros down up s.
  destruct (key_down_then_up GameControls.running [] down up GameControls.red
              eq_refl eq_refl eq_refl ltac:(discriminate))
    as (_ & _ & _ & Hp & _).
  split_and!; [reflexivity | reflexivity | exact Hp].
Defined.

(** A key-down whose key is [constructor]: [keyMap.constructor] is the
    function [Object], and the handler does not leave the key to the
    browser. *)
Example key_down_constructor :
  let e := {| Input.key := "constructor"; Input.repeat := false;
              Input.tagName := "BODY" |} in
  Input.keyMap !! "constructor" = None
  /\ Input.handleKeyDown e None = Input.ActedInherited "constructor"
  /\ Input.handleKeyUp e None = Input.ActedInherited "constructor".
Proof. vm_compute. split_and!; reflexivity. Qed.

(** A press and a release that reach the handlers of one render. The
    guard of [handleRelease] reads the [pressedState] of its render: when
    that render shows the button released, the release that follows the
    press is ignored, and the button stays pressed with its timer live; a
    release after the next render clears the timer. When a render follows
    every event, the panel is the component of [after], shown as it
    is. *)
Theorem release_ignored_in_render_of_press
        (st : GameControls.AudioState) (es : list GameControls.PanelEvent)
        (c : GameControls.ButtonColor) :
  let p := GameControls.panelAfter st es in
  default false (GameControls.shown p !! c) = false ->
  let release := GameControls.Handled (GameControls.Release c) in
  let p1 := GameControls.panelStep p
              (GameControls.Handled (GameControls.Press c)) in
  let p2 := GameControls.panelStep p1 release in
  let p3 := GameControls.panelStep
              (GameControls.panelStep p2 GameControls.Rendered) release in
  p2 = p1
  /\ GameControls.pressed c (GameControls.controls p2) = true
  /\ GameControls.timersOf c (GameControls.controls p2)
     = [GameControls.nextHandle (GameControls.controls p)]
  /\ GameControls.pressed c (GameControls.controls p3) = false
  /\ GameControls.timersOf c (GameControls.controls p3) = []
  /\ GameControls.effects (GameControls.controls p3)
     = (GameControls.effects (GameControls.controls p1)
        ++ [GameControls.ClearInterval
              (GameControls.nextHandle (GameControls.controls p))])%list
  /\ (forall es0,
        GameControls.panelAfter st
          (flat_map (fun e => [GameControls.Handled e; GameControls.Rendered])
                    es0)
        = {| GameControls.controls := GameControls.after st es0;
             GameControls.shown
             := GameControls.pressedState (GameControls.after st es0) |}).
Proof.
  intros p Hg release p1 p2 p3.
  pose proof (ControlFacts.Inv_panelAfter st es) as HI. fold p in HI.
  destruct (ControlFacts.pressIn_counts (GameControls.shown p) c
              (GameControls.controls p) HI Hg)
    as (Hp1 & Hh1 & _).
  assert (HI1 : GameControls.Inv (GameControls.controls p1))
    by (by apply ControlFacts.Inv_pressIn).
  change (GameControls.controls p1)
    with (GameControls.handlePressIn (GameControls.shown p) c
            (GameControls.controls p)) in *.
  set (s1 := GameControls.handlePressIn (GameControls.shown p) c
               (GameControls.controls p)) in *.
  assert (H2 : p2 = p1).
  { subst p2 release. cbn [GameControls.panelStep].
    change (GameControls.shown p1) with (GameControls.shown p).
    change (GameControls.controls p1) with s1.
    by rewrite ControlFacts.handleReleaseIn_hidden. }
  assert (H3 : GameControls.controls p3
               = GameControls.handleReleaseIn (GameControls.pressedState s1) c s1).
  { subst p3. rewrite H2. reflexivity. }
  assert (Hs3 : GameControls.controls p3
                = {| GameControls.pressedState
                     := <[c := false]> (GameControls.pressedState s1);
                     GameControls.audioContextRef := GameControls.audioContextRef s1;
                     GameControls.soundIntervalRef
                     := <[c := None]> (GameControls.soundIntervalRef s1);
                     GameControls.intervals
                     := delete (GameControls.nextHandle (GameControls.controls p))
                               (GameControls.intervals s1);
                     GameControls.nextHandle := GameControls.nextHandle s1;
                     GameControls.effects
                     := (GameControls.effects s1
                         ++ [GameControls.ClearInterval
                               (GameControls.nextHandle
                                  (GameControls.controls p))])%list |}).
  { rewrite H3. rewrite ControlFacts.handleReleaseIn_acts by exact Hp1.
    by rewrite Hh1. }
  assert (HI3 : GameControls.Inv (GameControls.controls p3))
    by (rewrite H3; by apply ControlFacts.Inv_releaseIn).
  assert (Hh3 : GameControls.handle_of c (GameControls.controls p3) = None).
  { rewrite Hs3. unfold GameControls.handle_of. simpl.
    by rewrite lookup_insert_eq. }
  split_and!.
  - done.
  - by rewrite H2.
  - rewrite H2. rewrite ControlFacts.timersOf_handle by done.
    change (GameControls.controls p1) with s1. by rewrite Hh1.
  - rewrite Hs3. unfold GameControls.pressed. simpl.
    by rewrite lookup_insert_eq.
  - rewrite ControlFacts.timersOf_handle by done. by rewrite Hh3.
  - by rewrite Hs3.
  - apply ControlFacts.panelAfter_rendered.
Qed.

Lemma release_ignored_in_render_of_press_witness :
  let p := GameControls.panelAfter GameControls.running
             [GameControls.Handled (GameControls.Press GameControls.red);
              GameControls.Handled (GameControls.Release GameControls.red)] in
  default false
    (GameControls.shown (GameControls.panelAfter GameControls.running [])
     !! GameControls.red) = false
  /\ GameControls.pressed GameControls.red (GameControls.controls p) = true
  /\ GameControls.timersOf GameControls.red (GameControls.controls p)
     = [1%positive].
Proof.
  intros p.
  destruct (release_ignored_in_render_of_press GameControls.running []
              GameControls.red eq_refl)
    as (_ & Hp & Ht & _).
  split_and!; [reflexivity | exact Hp | exact Ht].
Defined.

(* ================================================================== *)
(** * The seed ids                                                      *)
(* ================================================================== *)



